(** * HyperMind: tiered context memory, scope stack and context graph

    A shallow embedding of the [HyperMindService] class (the HyperMind
    multi-scope service of the Ember addon) and the proofs of its
    specification's testable properties.

    Conventions of the embedding.

    - The service instance is a record [HyperMindService] holding its three
      tracked fields; a method takes the state it works on (the instance, or
      the memory store for the methods that touch nothing else) and returns
      the new one (explicit state passing).  A method that can [throw]
      returns a [completion] with the state at that point.
    - Every method call reads the clock once: the reading is the argument
      [now], in milliseconds since the epoch.  [_generateScopeId] also draws
      from [Math.random]; the drawn base-36 suffix is the argument [rnd].
    - Stored values are JSON data ([json]) or scope instances.  Numbers are
      integers that a JavaScript number holds exactly and [JSON.stringify]
      writes in full (magnitude below 2^53), and values are finite trees, so
      [JSON.stringify] is total.
    - A tier of the memory store is a plain JavaScript object.  It is
      modelled by the sequence of its own properties in enumeration order
      (what [Object.entries] returns); reading a property that is not an own
      property falls through to [Object.prototype].  Assigning to the name
      [__proto__] would replace the prototype of the tier object instead of
      adding a property; that name is outside the model as a stored key. *)

From Stdlib Require Import List String Ascii ZArith NArith Arith Bool Lia.
From Stdlib Require Import DecimalString Floats.
From Stdlib Require Import Sorted Permutation.
Import ListNotations.

Set Warnings "-register-all".
Local Open Scope list_scope.
Local Open Scope string_scope.

(** ** JSON data and [JSON.stringify]

    The members of an object are listed in the enumeration order of its
    properties, the order [JSON.stringify] writes them in. *)

Inductive json : Type :=
| JNull
| JBool (b : bool)
| JNum (n : Z)
| JStr (s : string)
| JArr (items : list json)
| JObj (members : list (string * json)).

Definition chr (n : nat) : string := String (ascii_of_nat n) EmptyString.

Definition dec (z : Z) : string := NilZero.string_of_int (Z.to_int z).

Definition hex_digit (n : nat) : string :=
  if Nat.ltb n 10 then chr (48 + n) else chr (87 + n).

(** The escape of one character inside a JSON string literal. *)
Definition quote_char (c : ascii) : string :=
  let n := nat_of_ascii c in
  if Nat.eqb n 34 then chr 92 ++ chr 34
  else if Nat.eqb n 92 then chr 92 ++ chr 92
  else if Nat.eqb n 8 then chr 92 ++ "b"
  else if Nat.eqb n 9 then chr 92 ++ "t"
  else if Nat.eqb n 10 then chr 92 ++ "n"
  else if Nat.eqb n 12 then chr 92 ++ "f"
  else if Nat.eqb n 13 then chr 92 ++ "r"
  else if Nat.ltb n 32 then chr 92 ++ "u00" ++ hex_digit (n / 16) ++ hex_digit (n mod 16)
  else String c EmptyString.

Fixpoint quote_chars (s : string) : string :=
  match s with
  | EmptyString => EmptyString
  | String c s' => quote_char c ++ quote_chars s'
  end.

Definition quote (s : string) : string := chr 34 ++ quote_chars s ++ chr 34.

Fixpoint stringify (j : json) : string :=
  match j with
  | JNull => "null"
  | JBool true => "true"
  | JBool false => "false"
  | JNum n => dec n
  | JStr s => quote s
  | JArr items =>
      "[" ++
      (fix elements (l : list json) : string :=
         match l with
         | [] => EmptyString
         | x :: l' =>
             match l' with
             | [] => stringify x
             | _ :: _ => stringify x ++ "," ++ elements l'
             end
         end) items ++ "]"
  | JObj members =>
      "{" ++
      (fix pairs (l : list (string * json)) : string :=
         match l with
         | [] => EmptyString
         | (k, x) :: l' =>
             match l' with
             | [] => quote k ++ ":" ++ stringify x
             | _ :: _ => quote k ++ ":" ++ stringify x ++ "," ++ pairs l'
             end
         end) members ++ "}"
  end.

(** ** [Date.prototype.toISOString] *)

Fixpoint padStart (fuel width : nat) (s : string) : string :=
  match fuel with
  | O => s
  | S fuel' =>
      if Nat.ltb (String.length s) width then padStart fuel' width ("0" ++ s) else s
  end.

Definition pad (width : nat) (s : string) : string := padStart width width s.

Definition toISOString (ms : Z) : string :=
  let day := (ms / 86400000)%Z in
  let rest := (ms mod 86400000)%Z in
  let z := (day + 719468)%Z in
  let era := (z / 146097)%Z in
  let doe := (z mod 146097)%Z in
  let yoe := ((doe - doe / 1460 + doe / 36524 - doe / 146096) / 365)%Z in
  let doy := (doe - (365 * yoe + yoe / 4 - yoe / 100))%Z in
  let mp := ((5 * doy + 2) / 153)%Z in
  let d := (doy - (153 * mp + 2) / 5 + 1)%Z in
  let m := (if Z.ltb mp 10 then mp + 3 else mp - 9)%Z in
  let y := (yoe + era * 400 + (if Z.leb m 2 then 1 else 0))%Z in
  let year :=
    if (Z.leb 0 y && Z.leb y 9999)%bool then pad 4 (dec y)
    else if Z.ltb y 0 then "-" ++ pad 6 (dec (- y))
    else "+" ++ pad 6 (dec y) in
  year ++ "-" ++ pad 2 (dec m) ++ "-" ++ pad 2 (dec d) ++ "T" ++
  pad 2 (dec (rest / 3600000)) ++ ":" ++
  pad 2 (dec (rest / 60000 mod 60)) ++ ":" ++
  pad 2 (dec (rest / 1000 mod 60)) ++ "." ++
  pad 3 (dec (rest mod 1000)) ++ "Z".

(** ** Scope instances and stored values *)

Module Scope.

(** The object built by [pushScope].  [context] is the empty object the
    constructor puts there; [timestamp] is the ISO rendering of the clock. *)
Inductive scopeInstance : Type := mk {
  id : string;
  config : json;
  context : json;
  timestamp : string;
  parent : option scopeInstance
}.

Fixpoint toJSON (s : scopeInstance) : json :=
  match s with
  | mk i c x t p =>
      JObj [("id", JStr i); ("config", c); ("context", x); ("timestamp", JStr t);
            ("parent", match p with Some q => toJSON q | None => JNull end)]
  end.

(** Number of ancestors reached through [parent]. *)
Fixpoint depth (s : scopeInstance) : nat :=
  match s with
  | mk _ _ _ _ p => match p with Some q => S (depth q) | None => O end
  end.

End Scope.

Abbreviation scopeInstance := Scope.scopeInstance.

Inductive jsvalue : Type :=
| VData (j : json)
| VScope (s : scopeInstance).

(** [null], also the result of a retrieval that finds nothing. *)
Definition null : jsvalue := VData JNull.

Definition JSON_stringify (v : jsvalue) : string :=
  match v with
  | VData j => stringify j
  | VScope s => stringify (Scope.toJSON s)
  end.

(** ** Context entries *)

(** [timestamp] and [lastAccessed] are kept as instants (ms); the source
    stores their ISO rendering and parses [timestamp] back in
    [_optimizeMemory], which loses nothing at millisecond precision.
    [lastAccessed] is absent until the first retrieval. *)
Record Metadata : Type := mkMetadata {
  timestamp : Z;
  accessCount : nat;
  lastAccessed : option Z;
  significance : float
}.

Record contextEntry : Type := mkEntry {
  key : string;
  value : jsvalue;
  metadata : Metadata
}.

(** ** Plain objects used as dictionaries *)

Module JSObject.

(** Own properties, in the order [Object.entries] lists them: array-index
    names in ascending numeric order, then the other names in the order
    they were created. *)
Definition object : Type := list (string * contextEntry).

Definition digit (c : ascii) : option N :=
  let n := N_of_ascii c in
  if (N.leb 48 n && N.leb n 57)%bool then Some (n - 48)%N else None.

Fixpoint digits (s : string) (acc : N) : option N :=
  match s with
  | EmptyString => Some acc
  | String c s' =>
      match digit c with
      | Some d => digits s' (10 * acc + d)%N
      | None => None
      end
  end.

(** A canonical numeric string below 2^32 - 1 names an array index. *)
Definition array_index (k : string) : option N :=
  match k with
  | EmptyString => None
  | String c rest =>
      match rest with
      | String _ _ => if Ascii.eqb c "0"%char then None else
                        match digits k 0 with
                        | Some n => if N.ltb n 4294967295 then Some n else None
                        | None => None
                        end
      | EmptyString => digits k 0
      end
  end.

(** [precedes k k']: a property created under the new name [k] is listed
    before the existing property [k']. *)
Definition precedes (k k' : string) : bool :=
  match array_index k with
  | Some i => match array_index k' with Some j => N.ltb i j | None => true end
  | None => false
  end.

Fixpoint own_get (o : object) (k : string) : option contextEntry :=
  match o with
  | [] => None
  | (k', e) :: o' => if String.eqb k k' then Some e else own_get o' k
  end.

Definition has_own (o : object) (k : string) : bool :=
  match own_get o k with Some _ => true | None => false end.

(** Writing an existing property keeps its place. *)
Fixpoint replace (o : object) (k : string) (e : contextEntry) : object :=
  match o with
  | [] => []
  | (k', e') :: o' =>
      if String.eqb k k' then (k', e) :: o' else (k', e') :: replace o' k e
  end.

(** Creating a property. *)
Fixpoint define (o : object) (k : string) (e : contextEntry) : object :=
  match o with
  | [] => [(k, e)]
  | (k', e') :: o' =>
      if precedes k k' then (k, e) :: (k', e') :: o' else (k', e') :: define o' k e
  end.

(** [o[k] = e] for a name other than [__proto__] or an object that has a
    property of that name (otherwise the assignment replaces the prototype
    of [o] and adds no property, which this function does not describe),
    also [{...o, [k]: e}] for every name. *)
Definition own_set (o : object) (k : string) (e : contextEntry) : object :=
  if has_own o k then replace o k e else define o k e.

(** [delete o[k]], also [const {[k]: _, ...rest} = o]. *)
Definition own_delete (o : object) (k : string) : object :=
  filter (fun p => negb (String.eqb k (fst p))) o.

Definition keys (o : object) : list string := map fst o.

(** The names every plain object inherits from [Object.prototype]. *)
Definition Object_prototype : list string :=
  ["constructor"; "__defineGetter__"; "__defineSetter__"; "hasOwnProperty";
   "__lookupGetter__"; "__lookupSetter__"; "isPrototypeOf";
   "propertyIsEnumerable"; "toString"; "valueOf"; "__proto__";
   "toLocaleString"].

Definition inherited (k : string) : bool :=
  existsb (String.eqb k) Object_prototype.

(** What the expression [o[k]] evaluates to: an entry stored in [o], a
    member of [Object.prototype] (a truthy object that is no entry), or
    [undefined]. *)
Inductive property : Type :=
| Own (e : contextEntry)
| Inherited
| Undefined.

Definition get (o : object) (k : string) : property :=
  match own_get o k with
  | Some e => Own e
  | None => if inherited k then Inherited else Undefined
  end.

End JSObject.

Import JSObject.

(** ** The service state *)

Inductive tier : Type := Hot | Warm | Cold | Archived.

Definition tier_eqb (a b : tier) : bool :=
  match a, b with
  | Hot, Hot | Warm, Warm | Cold, Cold | Archived, Archived => true
  | _, _ => false
  end.

Record MemoryStore : Type := mkStore {
  hot : object;
  warm : object;
  cold : object;
  archived : object
}.

(** [this.memoryStore[t]] *)
Definition tier_get (ms : MemoryStore) (t : tier) : object :=
  match t with
  | Hot => hot ms
  | Warm => warm ms
  | Cold => cold ms
  | Archived => archived ms
  end.

(** [this.memoryStore[t] = o] *)
Definition tier_set (ms : MemoryStore) (t : tier) (o : object) : MemoryStore :=
  match t with
  | Hot => mkStore o (warm ms) (cold ms) (archived ms)
  | Warm => mkStore (hot ms) o (cold ms) (archived ms)
  | Cold => mkStore (hot ms) (warm ms) o (archived ms)
  | Archived => mkStore (hot ms) (warm ms) (cold ms) o
  end.

Module Node.
Record t : Type := mk { id : string; type : string; data : scopeInstance }.
End Node.

Module Edge.
Record t : Type := mk { from : string; to : string; type : string }.
End Edge.

Record ContextGraph : Type := mkGraph {
  nodes : list Node.t;
  edges : list Edge.t
}.

Record HyperMindService : Type := mkService {
  memoryStore : MemoryStore;
  scopeStack : list scopeInstance;
  contextGraph : ContextGraph
}.

(** The instance as its field initialisers leave it. *)
Definition empty_store : MemoryStore := mkStore [] [] [] [].

Definition init : HyperMindService :=
  mkService empty_store [] (mkGraph [] []).

(** ** Completions *)

Inductive error : Type :=
| Error (message : string)
| TypeError.

Inductive completion (A : Type) : Type :=
| Normal (a : A)
| Throw (e : error).

Arguments Normal {A} a.
Arguments Throw {A} e.

Definition EmptyStackError : error := Error "Cannot pop from empty scope stack".

(** ** Options of [storeContext] *)

Module Options.
Record t : Type := mk { tier : option tier; significance : option float }.
Definition default : t := mk None None.
End Options.

(** [x || 1.0] for a number [x]: zero and NaN are falsy. *)
Definition or_one (x : option float) : float :=
  match x with
  | Some f =>
      if (PrimFloat.eqb f 0%float || negb (PrimFloat.eqb f f))%bool then 1.0%float else f
  | None => 1.0%float
  end.

(** ** The memory methods

    [storeContext], [retrieveContext], [_optimizeMemory],
    [_deduplicateContexts] and [_promoteIfNeeded] touch [this.memoryStore]
    only; they are functions of the memory store. *)

Definition tierOrder : list tier := [Archived; Cold; Warm; Hot].

(** [l.indexOf(t)], for a [t] that occurs in [l]. *)
Fixpoint indexOf (l : list tier) (t : tier) : nat :=
  match l with
  | [] => O
  | t' :: l' => if tier_eqb t t' then O else S (indexOf l' t)
  end.

(** A missing entry returns at once; an inherited member passes the guard
    and fails at [entry.metadata.accessCount].  The move writes
    [{...this.memoryStore[newTier], [key]: entry}] to the new tier and the
    rest of the destructuring to the current one. *)
Definition _promoteIfNeeded (key : string) (currentTier : tier) (ms : MemoryStore)
  : completion MemoryStore :=
  let currentIndex := indexOf tierOrder currentTier in
  match get (tier_get ms currentTier) key with
  | Undefined => Normal ms
  | Inherited => Throw TypeError
  | Own entry =>
      if (Nat.ltb 10 (accessCount (metadata entry))
          && Nat.ltb currentIndex (List.length tierOrder - 1))%bool
      then
        match nth_error tierOrder (currentIndex + 1) with
        | Some newTier =>
            let ms1 := tier_set ms newTier (own_set (tier_get ms newTier) key entry) in
            Normal (tier_set ms1 currentTier (own_delete (tier_get ms1 currentTier) key))
        | None => Normal ms
        end
      else Normal ms
  end.

(** [ageInHours > 24 && accessCount < 5]; the quotient [age / 3600000]
    exceeds 24 exactly when [age] exceeds 24 * 3600000 ms. *)
Definition stale (now : Z) (entry : contextEntry) : bool :=
  let age := (now - timestamp (metadata entry))%Z in
  (Z.ltb (24 * (1000 * 60 * 60)) age && Nat.ltb (accessCount (metadata entry)) 5)%bool.

(** [this.memoryStore.warm[key] = entry; delete this.memoryStore.hot[key]] *)
Definition demote (ms : MemoryStore) (p : string * contextEntry) : MemoryStore :=
  let ms1 := tier_set ms Warm (own_set (warm ms) (fst p) (snd p)) in
  tier_set ms1 Hot (own_delete (hot ms1) (fst p)).

(** The first loop of [_optimizeMemory], over [Object.entries] of the hot tier. *)
Definition tiering (now : Z) (ms : MemoryStore) : MemoryStore :=
  fold_left (fun m p => if stale now (snd p) then demote m p else m) (hot ms) ms.

(** [seen.has(s)], the set [seen] kept as a list. *)
Definition seen_has (seen : list string) (s : string) : bool :=
  existsb (String.eqb s) seen.

(** The body of the inner loop of [_deduplicateContexts]; the accumulator
    is the store and the set [seen]. *)
Definition dedup_entry (t : tier) (acc : MemoryStore * list string)
  (p : string * contextEntry) : MemoryStore * list string :=
  let valueStr := JSON_stringify (value (snd p)) in
  if seen_has (snd acc) valueStr
  then (tier_set (fst acc) t (own_delete (tier_get (fst acc) t) (fst p)), snd acc)
  else (fst acc, valueStr :: snd acc).

(** The inner loop, over [Object.entries] of the tier as the loop finds it. *)
Definition dedup_tier (acc : MemoryStore * list string) (t : tier)
  : MemoryStore * list string :=
  fold_left (dedup_entry t) (tier_get (fst acc) t) acc.

Definition _deduplicateContexts (ms : MemoryStore) : MemoryStore :=
  fst (fold_left dedup_tier [Hot; Warm; Cold] (ms, [])).

Definition _optimizeMemory (now : Z) (ms : MemoryStore) : MemoryStore :=
  _deduplicateContexts (tiering now ms).

Definition storeContext (now : Z) (key : string) (value : jsvalue)
  (options : Options.t) (ms : MemoryStore) : MemoryStore :=
  let tier := match Options.tier options with Some t => t | None => Hot end in
  let contextEntry :=
    mkEntry key value
      (mkMetadata now 0 None (or_one (Options.significance options))) in
  _optimizeMemory now (tier_set ms tier (own_set (tier_get ms tier) key contextEntry)).

(** [entry.metadata.accessCount++; entry.metadata.lastAccessed = now] *)
Definition touch (now : Z) (entry : contextEntry) : contextEntry :=
  mkEntry (key entry) (value entry)
    (mkMetadata (timestamp (metadata entry)) (S (accessCount (metadata entry)))
       (Some now) (significance (metadata entry))).

(** The loop of [retrieveContext] over the tiers left to scan.  The test
    [if (this.memoryStore[tier][key])] succeeds on an entry and on an
    inherited member; on the latter [entry.metadata] is [undefined] and the
    increment throws.  The entry is updated in place. *)
Fixpoint retrieve_from (tiers : list tier) (now : Z) (key : string) (ms : MemoryStore)
  : completion jsvalue * MemoryStore :=
  match tiers with
  | [] => (Normal null, ms)
  | t :: rest =>
      match get (tier_get ms t) key with
      | Undefined => retrieve_from rest now key ms
      | Inherited => (Throw TypeError, ms)
      | Own entry =>
          let entry' := touch now entry in
          let ms1 := tier_set ms t (replace (tier_get ms t) key entry') in
          match _promoteIfNeeded key t ms1 with
          | Normal ms2 => (Normal (value entry'), ms2)
          | Throw e => (Throw e, ms1)
          end
      end
  end.

Definition retrieveContext (now : Z) (key : string) (ms : MemoryStore)
  : completion jsvalue * MemoryStore :=
  retrieve_from [Hot; Warm; Cold; Archived] now key ms.

(** ** The scope methods *)

(** [l[l.length - 1] || null], for a list of objects. *)
Fixpoint last_element {A : Type} (l : list A) : option A :=
  match l with
  | [] => None
  | x :: l' => match l' with [] => Some x | _ :: _ => last_element l' end
  end.

Definition getCurrentScope (this : HyperMindService) : option scopeInstance :=
  last_element (scopeStack this).

Definition _generateScopeId (now : Z) (rnd : string) : string :=
  "scope_" ++ dec now ++ "_" ++ rnd.

Definition _updateContextGraph (scope : scopeInstance) (g : ContextGraph) : ContextGraph :=
  let nodes' := (nodes g ++ [Node.mk (Scope.id scope) "scope" scope])%list in
  match Scope.parent scope with
  | Some p =>
      mkGraph nodes' (edges g ++ [Edge.mk (Scope.id p) (Scope.id scope) "parent-child"])%list
  | None => mkGraph nodes' (edges g)
  end.

Definition pushScope (now : Z) (rnd : string) (scopeConfig : json)
  (this : HyperMindService) : scopeInstance * HyperMindService :=
  let scopeInstance :=
    Scope.mk (_generateScopeId now rnd) scopeConfig (JObj []) (toISOString now)
      (last_element (scopeStack this)) in
  (scopeInstance,
   mkService (memoryStore this) (scopeStack this ++ [scopeInstance])%list
     (_updateContextGraph scopeInstance (contextGraph this))).

(** The template [`scope_${scope.id}`] of [_archiveScope]. *)
Definition archiveKey (scope : scopeInstance) : string := "scope_" ++ Scope.id scope.

Definition _archiveScope (now : Z) (scope : scopeInstance) (this : HyperMindService)
  : HyperMindService :=
  mkService
    (storeContext now (archiveKey scope) (VScope scope) (Options.mk (Some Archived) None)
       (memoryStore this))
    (scopeStack this) (contextGraph this).

(** [slice(0, -1)] is [removelast]; the state returned with a [Throw] is the
    state at the throw. *)
Definition popScope (now : Z) (this : HyperMindService)
  : completion scopeInstance * HyperMindService :=
  match scopeStack this with
  | [] => (Throw EmptyStackError, this)
  | first :: rest =>
      let popped := last rest first in
      let this1 :=
        mkService (memoryStore this) (removelast (scopeStack this)) (contextGraph this) in
      (Normal popped, _archiveScope now popped this1)
  end.

(** ** Notions used by the properties *)

(** No object has two own properties of one name: the sequences that
    represent tier objects list every key once. *)
Definition well_formed (ms : MemoryStore) : Prop :=
  forall t, NoDup (keys (tier_get ms t)).

(** The canonical serialization the deduplication compares. *)
Definition serialization (p : string * contextEntry) : string :=
  JSON_stringify (value (snd p)).

(** The entries the deduplication visits, in the order it visits them. *)
Definition dedup_order (ms : MemoryStore) : object :=
  (hot ms ++ warm ms ++ cold ms)%list.

(** [p] has the serialization of an entry of [earlier]. *)
Definition duplicate_of (earlier : object) (p : string * contextEntry) : bool :=
  existsb (fun q => String.eqb (serialization p) (serialization q)) earlier.

(** The first occurrences: an entry of [l] is kept when no entry visited
    ahead of it ([earlier], then the entries of [l] in front of it) has its
    serialization. *)
Fixpoint keep_first (earlier l : object) : object :=
  match l with
  | [] => []
  | p :: l' =>
      ((if duplicate_of earlier p then [] else [p])
       ++ keep_first (earlier ++ [p]) l')%list
  end.

(** The set [seen] holds exactly the serializations of the entries [earlier]. *)
Definition agrees (seen : list string) (earlier : object) : Prop :=
  forall s, seen_has seen s = existsb (fun q => String.eqb s (serialization q)) earlier.

(** Number of entries of [l] whose serialization is [s]. *)
Definition occurrences (s : string) (l : object) : nat :=
  List.length (filter (fun p => String.eqb s (serialization p)) l).

(** The tier [t] stores an entry under [k]. *)
Definition holds (ms : MemoryStore) (t : tier) (k : string) : bool :=
  has_own (tier_get ms t) k.

Definition holders (ms : MemoryStore) (k : string) : list tier :=
  filter (fun t => holds ms t k) [Hot; Warm; Cold; Archived].

(** Some tier stores an entry under [k]. *)
Definition resolvable (ms : MemoryStore) (k : string) : bool :=
  existsb (fun t => holds ms t k) [Hot; Warm; Cold; Archived].

(** The tier one step up the promotion order, if any. *)
Definition next_tier (t : tier) : option tier :=
  nth_error tierOrder (indexOf tierOrder t + 1).

(** Position in the promotion order: archived < cold < warm < hot. *)
Definition rank (t : tier) : nat := indexOf tierOrder t.

(** [retrieveContext] looks into [t'] ahead of [t]. *)
Definition scanned_before (t' t : tier) : Prop :=
  indexOf [Hot; Warm; Cold; Archived] t' < indexOf [Hot; Warm; Cold; Archived] t.

(** The scan of [retrieveContext] for [k] stops at the entry [e] of tier [t]. *)
Definition finds (ms : MemoryStore) (k : string) (t : tier) (e : contextEntry) : Prop :=
  own_get (tier_get ms t) k = Some e /\
  forall t', scanned_before t' t -> get (tier_get ms t') k = Undefined.

(** The entry [storeContext] builds. *)
Definition new_entry (now : Z) (k : string) (v : jsvalue) (options : Options.t)
  : contextEntry :=
  mkEntry k v (mkMetadata now 0 None (or_one (Options.significance options))).

(** The tier [storeContext] writes to. *)
Definition target (options : Options.t) : tier :=
  match Options.tier options with Some t => t | None => Hot end.

(** The store [storeContext] hands to [_optimizeMemory]. *)
Definition inserted (now : Z) (k : string) (v : jsvalue) (options : Options.t)
  (ms : MemoryStore) : MemoryStore :=
  tier_set ms (target options)
    (own_set (tier_get ms (target options)) k (new_entry now k v options)).

(** The entries of [o] listed ahead of the property [k]. *)
Fixpoint in_front (o : object) (k : string) : object :=
  match o with
  | [] => []
  | (k', e) :: o' => if String.eqb k k' then [] else (k', e) :: in_front o' k
  end.

(** The entries the deduplication has visited when it reaches [k] in tier [t]. *)
Definition visited_before (ms : MemoryStore) (t : tier) (k : string) : object :=
  ((match t with
    | Hot => []
    | Warm => hot ms
    | Cold => hot ms ++ warm ms
    | Archived => dedup_order ms
    end) ++ in_front (tier_get ms t) k)%list.

(** The store after a retrieval that stopped at the entry [e] of tier [t]:
    the entry is touched in place and, with more than ten accesses, moved to
    the next tier if there is one. *)
Definition retrieved (now : Z) (k : string) (t : tier) (e : contextEntry)
  (ms : MemoryStore) : MemoryStore :=
  let e' := touch now e in
  let ms1 := tier_set ms t (replace (tier_get ms t) k e') in
  if Nat.ltb 10 (accessCount (metadata e')) then
    match next_tier t with
    | Some t1 =>
        tier_set (tier_set ms1 t1 (own_set (tier_get ms t1) k e')) t
          (own_delete (tier_get ms1 t) k)
    | None => ms1
    end
  else ms1.

(** Calls on the memory store. *)
Inductive memory_call : Type :=
| Store (now : Z) (key : string) (value : jsvalue) (options : Options.t)
| Retrieve (now : Z) (key : string)
| Maintain (now : Z).

Definition run_memory_call (c : memory_call) (ms : MemoryStore) : MemoryStore :=
  match c with
  | Store now key value options => storeContext now key value options ms
  | Retrieve now key => snd (retrieveContext now key ms)
  | Maintain now => _optimizeMemory now ms
  end.

Definition stores_under (k : string) (c : memory_call) : bool :=
  match c with
  | Store _ key _ _ => String.eqb k key
  | _ => false
  end.


(** Calls on the service. *)
Inductive call : Type :=
| Push (now : Z) (rnd : string) (scopeConfig : json)
| Pop (now : Z)
| Memory (c : memory_call).

Definition with_memory (ms : MemoryStore) (this : HyperMindService) : HyperMindService :=
  mkService ms (scopeStack this) (contextGraph this).

(** One call; the scope a push returns is recorded. *)
Definition run_call (c : call) (this : HyperMindService)
  : list scopeInstance * HyperMindService :=
  match c with
  | Push now rnd scopeConfig =>
      let r := pushScope now rnd scopeConfig this in ([fst r], snd r)
  | Pop now => ([], snd (popScope now this))
  | Memory c' => ([], with_memory (run_memory_call c' (memoryStore this)) this)
  end.

(** A run of calls: the scopes pushed, in push order, and the final state. *)
Fixpoint run (calls : list call) (this : HyperMindService)
  : list scopeInstance * HyperMindService :=
  match calls with
  | [] => ([], this)
  | c :: calls' =>
      let r := run_call c this in
      let r' := run calls' (snd r) in
      ((fst r ++ fst r')%list, snd r')
  end.

(** The node and the edges [_updateContextGraph] adds for a scope. *)
Definition node_of (s : scopeInstance) : Node.t := Node.mk (Scope.id s) "scope" s.

Definition edges_of (s : scopeInstance) : list Edge.t :=
  match Scope.parent s with
  | Some p => [Edge.mk (Scope.id p) (Scope.id s) "parent-child"]
  | None => []
  end.

Definition is_push (c : call) : bool :=
  match c with Push _ _ _ => true | _ => false end.

Definition has_parent (s : scopeInstance) : bool :=
  match Scope.parent s with Some _ => true | None => false end.

(** Every scope of the stack has as many ancestors as scopes beneath it. *)
Definition depth_indexed (stack : list scopeInstance) : Prop :=
  forall i f, nth_error stack i = Some f -> Scope.depth f = i.



(** * The search methods and the collaborating services *)

(** ** [String.prototype.includes] *)

(** [s.startsWith(t)] *)
Fixpoint startsWith (s t : string) {struct t} : bool :=
  match t with
  | EmptyString => true
  | String c t' =>
      match s with
      | EmptyString => false
      | String d s' => (Ascii.eqb c d && startsWith s' t')%bool
      end
  end.

(** [s.includes(t)] *)
Fixpoint includes (s t : string) : bool :=
  (startsWith s t
   || match s with
      | EmptyString => false
      | String _ s' => includes s' t
      end)%bool.

(** ** [searchContexts] and [_graphSearch] *)

Module Query.
(** [searchType] and [term] may be left out of the query object. *)
Record t : Type := mk { searchType : option string; term : option string }.
End Query.

Module Hit.
(** A result of the chronological search, [{ key, ...entry, tier }]: the
    spread of [entry] writes its own [key] over the property name. *)
Record t : Type := mk { key : string; value : jsvalue; metadata : Metadata; tier : tier }.
End Hit.

Inductive searchResult : Type :=
| ContextHit (h : Hit.t)
| GraphHit (key : string) (value : scopeInstance).

(** The string [includes] searches for: it converts its argument to a
    string, and a term left out is the string [undefined]. *)
Definition search_string (term : option string) : string :=
  match term with Some s => s | None => "undefined" end.

(** The inner loop of the chronological search over the entries of a tier. *)
Definition tier_hits (term : string) (t : tier) (o : object) : list Hit.t :=
  map (fun p => Hit.mk (key (snd p)) (value (snd p)) (metadata (snd p)) t)
    (filter (fun p => includes (fst p) term) o).

(** [results.sort((a, b) => new Date(b.metadata.timestamp) -
    new Date(a.metadata.timestamp))]: [Array.prototype.sort] is stable, so the
    result is the stable arrangement by decreasing timestamp. *)
Fixpoint insert_hit (h : Hit.t) (l : list Hit.t) : list Hit.t :=
  match l with
  | [] => [h]
  | h' :: l' =>
      if Z.ltb (timestamp (Hit.metadata h)) (timestamp (Hit.metadata h'))
      then h' :: insert_hit h l'
      else h :: h' :: l'
  end.

Fixpoint sort_hits (l : list Hit.t) : list Hit.t :=
  match l with
  | [] => []
  | h :: l' => insert_hit h (sort_hits l')
  end.

Definition _graphSearch (term : string) (g : ContextGraph) : list searchResult :=
  map (fun node => GraphHit (Node.id node) (Node.data node))
    (filter (fun node => includes (JSON_stringify (VScope (Node.data node))) term)
       (nodes g)).

Definition searchContexts (query : Query.t) (this : HyperMindService) : list searchResult :=
  let searchType :=
    match Query.searchType query with Some s => s | None => "chronological" end in
  let term := search_string (Query.term query) in
  if String.eqb searchType "chronological" then
    map ContextHit
      (sort_hits
         (flat_map (fun t => tier_hits term t (tier_get (memoryStore this) t))
            [Hot; Warm; Cold; Archived]))
  else if String.eqb searchType "graph" then _graphSearch term (contextGraph this)
  else [].

(** ** Registries: plain objects keyed by name *)

Module Dict.

Section Dict.

Variable A : Type.

(** Own properties in enumeration order, as for the tiers. *)
Definition t : Type := list (string * A).

Fixpoint own_get (d : t) (k : string) : option A :=
  match d with
  | [] => None
  | (k', a) :: d' => if String.eqb k k' then Some a else own_get d' k
  end.

Fixpoint replace (d : t) (k : string) (a : A) : t :=
  match d with
  | [] => []
  | (k', a') :: d' =>
      if String.eqb k k' then (k', a) :: d' else (k', a') :: replace d' k a
  end.

Fixpoint define (d : t) (k : string) (a : A) : t :=
  match d with
  | [] => [(k, a)]
  | (k', a') :: d' =>
      if precedes k k' then (k, a) :: (k', a') :: d' else (k', a') :: define d' k a
  end.

(** [d[k] = a] *)
Definition set (d : t) (k : string) (a : A) : t :=
  match own_get d k with
  | Some _ => replace d k a
  | None => define d k a
  end.

(** The value of the expression [d[k]]. *)
Inductive property : Type :=
| Own (a : A)
| Inherited
| Undefined.

Definition get (d : t) (k : string) : property :=
  match own_get d k with
  | Some a => Own a
  | None => if inherited k then Inherited else Undefined
  end.

End Dict.

Arguments own_get {A} d k.
Arguments replace {A} d k a.
Arguments define {A} d k a.
Arguments set {A} d k a.
Arguments get {A} d k.
Arguments Own {A} a.
Arguments Inherited {A}.
Arguments Undefined {A}.

End Dict.

(** ** The tensor registry (TensorLogicService) *)

Module Tensor.
Record meta : Type := mkMeta { created : string; type : string }.
Record t : Type := mk {
  name : string;
  shape : list Z;
  data : list json;
  metadata : meta
}.
End Tensor.

(** The registry of rules holds functions and is touched by none of the
    methods below; it is left out. *)
Record TensorLogicService : Type := mkTensorLogic {
  tensorRegistry : Dict.t Tensor.t
}.

(** The methods below throw nothing but the [RangeError] of [new Array]. *)
Inductive outcome (A : Type) : Type :=
| Return (a : A)
| RangeError.

Arguments Return {A} a.
Arguments RangeError {A}.

(** [shape.reduce((a, b) => a * b, 1)] for a shape of integers.  The
    floating-point product and the exact one are on the same side of the
    bound of [new Array] whenever no running product overflows to infinity
    ahead of a zero dimension; in particular for dimensions of at least 1. *)
Definition shape_size (shape : list Z) : Z := fold_left Z.mul shape 1%Z.

(** [new Array(size).fill(0)] as the language defines it: a length that is
    negative or above 2^32 - 1 is refused.  An engine also refuses a length
    below that bound when it cannot allocate the elements (V8 throws a
    [RangeError] from about 2^27 elements on); the properties of the tensors
    are stated for lengths up to 2^25 and for lengths above 2^32 - 1, where
    the engines agree with the language. *)
Definition _initializeData (shape : list Z) : outcome (list json) :=
  let size := shape_size shape in
  if (Z.leb 0 size && Z.leb size 4294967295)%bool
  then Return (repeat (JNum 0) (Z.to_nat size))
  else RangeError.

(** [data] is an array or left out; an array is truthy even when empty. *)
Definition initTensor (now : Z) (name : string) (shape : list Z)
  (data : option (list json)) (this : TensorLogicService)
  : outcome Tensor.t * TensorLogicService :=
  let data' :=
    match data with
    | Some d => Return d
    | None => _initializeData shape
    end in
  match data' with
  | Return d =>
      let tensor := Tensor.mk name shape d (Tensor.mkMeta (toISOString now) "tensor") in
      (Return tensor, mkTensorLogic (Dict.set (tensorRegistry this) name tensor))
  | RangeError => (RangeError, this)
  end.

Definition getTensor (name : string) (this : TensorLogicService)
  : Dict.property Tensor.t :=
  Dict.get (tensorRegistry this) name.

(** ** Boundaries and spaces (ATenSpaceService) *)

Module ScopeModel.
(** The scope descriptor the scope service is handed. *)
Record t : Type := mk {
  id : string;
  type : string;
  isGlobal : bool;
  isOrg : bool;
  isProject : bool
}.

Definition toJSON (m : t) : json :=
  JObj [("id", JStr (id m)); ("type", JStr (type m)); ("isGlobal", JBool (isGlobal m));
        ("isOrg", JBool (isOrg m)); ("isProject", JBool (isProject m))].
End ScopeModel.

(** Truthiness of JSON data. *)
Definition truthy (j : json) : bool :=
  match j with
  | JNull => false
  | JBool b => b
  | JNum n => negb (Z.eqb n 0)
  | JStr s => negb (String.eqb s EmptyString)
  | JArr _ => true
  | JObj _ => true
  end.

(** [s || d] for a string that may be left out. *)
Definition string_or (s : option string) (d : string) : string :=
  match s with
  | Some x => if String.eqb x EmptyString then d else x
  | None => d
  end.

(** [j || d] for JSON data that may be left out. *)
Definition json_or (j : option json) (d : json) : json :=
  match j with
  | Some x => if truthy x then x else d
  | None => d
  end.

Module Boundary.
Record config : Type := mkConfig {
  config_type : option string;
  config_constraints : option json;
  config_domain : option json
}.
Record meta : Type := mkMeta { created : string; scopeId : string }.
Record t : Type := mk {
  name : string;
  type : string;
  constraints : json;
  domain : json;
  metadata : meta
}.
End Boundary.

Module Operation.
(** The record [executeInSpace] builds; its [result] is always [null]. *)
Record t : Type := mk {
  space : string;
  operation : string;
  params : json;
  timestamp : string
}.
End Operation.

Module Space.
Record config : Type := mkConfig {
  config_boundary : option string;
  config_shape : option (list Z);
  config_dimensions : option Z
}.
Record meta : Type := mkMeta { created : string; scopeId : string }.
(** [operations] starts empty; only [executeInSpace] adds to it.  The tensor
    is the object the tensor registry holds; no method writes to a tensor,
    so its content stands for it. *)
Record t : Type := mk {
  name : string;
  boundary : option string;
  tensorSpace : Tensor.t;
  dimensions : Z;
  operations : list Operation.t;
  metadata : meta
}.
End Space.

Module Atom.
(** [data] is the space object itself: a reference into the store of
    space objects. *)
Record t : Type := mk { id : string; type : string; data : nat; timestamp : string }.
End Atom.

Module Link.
Record t : Type := mk {
  id : string; from : string; to : string; type : string; timestamp : string
}.
End Link.

Record AtomSpace : Type := mkAtomSpace {
  atoms : list Atom.t;
  links : list Link.t
}.

(** A space object is reachable from the registry and from its atom, and
    [executeInSpace] writes to it.  The space objects are kept in a store,
    in order of creation; the registry and the atoms hold positions in it. *)
Record ATenSpaceService : Type := mkATenSpace {
  spaces : list Space.t;
  spaceRegistry : Dict.t nat;
  boundaries : Dict.t Boundary.t;
  atomSpace : AtomSpace
}.

(** ** The scope selector (ScopeService) and the application

    The services are singletons that reach each other by injection; the
    application state holds the four of them.  The lists of scopes of the
    scope service are touched by no method and are left out.  A call of the
    selector runs to completion without yielding; the methods it calls are
    given its clock reading. *)

Record ScopeService : Type := mkScope {
  org : option ScopeModel.t;
  project : option ScopeModel.t
}.

Record App : Type := mkApp {
  scope : ScopeService;
  hypermind : HyperMindService;
  tensorLogic : TensorLogicService;
  atenSpace : ATenSpaceService
}.

Definition fresh_app : App :=
  mkApp (mkScope None None) init (mkTensorLogic [])
    (mkATenSpace [] [] [] (mkAtomSpace [] [])).

(** [m?.id], with [undefined] as the empty string (both are falsy). *)
Definition optional_id (m : option ScopeModel.t) : string :=
  match m with Some x => ScopeModel.id x | None => EmptyString end.

(** [this.scope.org?.id || this.scope.project?.id || 'global'] *)
Definition current_scopeId (s : ScopeService) : string :=
  string_or (Some (string_or (Some (optional_id (org s))) (optional_id (project s))))
    "global".

Definition defineBoundary (now : Z) (name : string) (config : Boundary.config)
  (app : App) : Boundary.t * App :=
  let boundary :=
    Boundary.mk name
      (string_or (Boundary.config_type config) "dirichlet")
      (json_or (Boundary.config_constraints config) (JObj []))
      (json_or (Boundary.config_domain config) JNull)
      (Boundary.mkMeta (toISOString now) (current_scopeId (scope app))) in
  let aten := atenSpace app in
  (boundary,
   mkApp (scope app) (hypermind app) (tensorLogic app)
     (mkATenSpace (spaces aten) (spaceRegistry aten)
        (Dict.set (boundaries aten) name boundary) (atomSpace aten))).

(** The space object is given by its position [ref] and its content. *)
Definition _addToAtomSpace (now : Z) (ref : nat) (space : Space.t)
  (aten : ATenSpaceService) : ATenSpaceService :=
  let atom := Atom.mk ("atom_" ++ Space.name space) "space" ref (toISOString now) in
  mkATenSpace (spaces aten) (spaceRegistry aten) (boundaries aten)
    (mkAtomSpace (atoms (atomSpace aten) ++ [atom])%list (links (atomSpace aten))).

(** [config.dimensions || 1] *)
Definition dimensions_or_one (d : option Z) : Z :=
  match d with
  | Some n => if Z.eqb n 0 then 1%Z else n
  | None => 1%Z
  end.

(** The new space object takes the next position of the store; the
    position is what the method returns. *)
Definition createSpace (now : Z) (name : string) (config : Space.config) (app : App)
  : outcome nat * App :=
  let shape := match Space.config_shape config with Some s => s | None => [1%Z] end in
  match initTensor now (name ++ "_tensor") shape None (tensorLogic app) with
  | (RangeError, _) => (RangeError, app)
  | (Return tensorSpace, tensorLogic') =>
      let space :=
        Space.mk name (Space.config_boundary config) tensorSpace
          (dimensions_or_one (Space.config_dimensions config)) []
          (Space.mkMeta (toISOString now) (current_scopeId (scope app))) in
      let aten := atenSpace app in
      let ref := List.length (spaces aten) in
      let aten1 :=
        mkATenSpace (spaces aten ++ [space])%list
          (Dict.set (spaceRegistry aten) name ref) (boundaries aten) (atomSpace aten) in
      (Return ref,
       mkApp (scope app) (hypermind app) tensorLogic'
         (_addToAtomSpace now ref space aten1))
  end.

(** [space.operations.push(result)] on the space object at [ref]. *)
Fixpoint log_operation (ref : nat) (result : Operation.t) (store : list Space.t)
  {struct store} : list Space.t :=
  match store with
  | [] => []
  | space :: store' =>
      match ref with
      | O =>
          Space.mk (Space.name space) (Space.boundary space) (Space.tensorSpace space)
            (Space.dimensions space) (Space.operations space ++ [result])%list
            (Space.metadata space) :: store'
      | S ref' => space :: log_operation ref' result store'
      end
  end.

(** [this.spaceRegistry[spaceName]] that is not an own property is a member
    of [Object.prototype], which passes the test [!space] and has no
    [operations]: the [push] throws a [TypeError].  [boundaries[...]] cannot
    throw and [_validateBoundaryConstraints] returns [true] whatever it is
    given, so the second [throw] is never reached.  [params] left out is
    [{}]. *)
Definition executeInSpace (now : Z) (spaceName operation : string)
  (params : option json) (this : ATenSpaceService)
  : completion Operation.t * ATenSpaceService :=
  match Dict.get (spaceRegistry this) spaceName with
  | Dict.Undefined => (Throw (Error ("Space not found: " ++ spaceName)), this)
  | Dict.Inherited => (Throw TypeError, this)
  | Dict.Own ref =>
      let result :=
        Operation.mk spaceName operation
          (match params with Some p => p | None => JObj [] end) (toISOString now) in
      (Normal result,
       mkATenSpace (log_operation ref result (spaces this)) (spaceRegistry this)
         (boundaries this) (atomSpace this))
  end.

Definition mapScopeToDomain (now : Z) (scopeModel : ScopeModel.t) (app : App)
  : outcome nat * App :=
  let domainName :=
    "domain_" ++ ScopeModel.type scopeModel ++ "_" ++ ScopeModel.id scopeModel in
  let boundaryName := "boundary_" ++ ScopeModel.type scopeModel in
  let app1 :=
    snd (defineBoundary now boundaryName
           (Boundary.mkConfig
              (Some (if ScopeModel.isGlobal scopeModel then "periodic" else "dirichlet"))
              (Some (JObj [("scopeType", JStr (ScopeModel.type scopeModel));
                           ("scopeId", JStr (ScopeModel.id scopeModel))]))
              (Some (ScopeModel.toJSON scopeModel)))
           app) in
  createSpace now domainName
    (Space.mkConfig (Some boundaryName) (Some [1%Z; 1%Z])
       (Some (if ScopeModel.isProject scopeModel then 3%Z
              else if ScopeModel.isOrg scopeModel then 2%Z else 1%Z)))
    app1.

Definition getSpace (name : string) (app : App) : Dict.property nat :=
  Dict.get (spaceRegistry (atenSpace app)) name.

(** The content of the space object at [ref]. *)
Definition space_at (ref : nat) (this : ATenSpaceService) : option Space.t :=
  nth_error (spaces this) ref.

Definition getBoundary (name : string) (app : App) : Dict.property Boundary.t :=
  Dict.get (boundaries (atenSpace app)) name.

(** The configuration [initializeScopeFrameworks] pushes. *)
Definition scope_config (scopeModel : ScopeModel.t) : json :=
  JObj [("scopeId", JStr (ScopeModel.id scopeModel));
        ("scopeType", JStr (ScopeModel.type scopeModel));
        ("scopeModel", ScopeModel.toJSON scopeModel)].

Definition initializeScopeFrameworks (now : Z) (rnd : string)
  (scopeModel : option ScopeModel.t) (app : App) : outcome unit * App :=
  match scopeModel with
  | None => (Return tt, app)
  | Some m =>
      match initTensor now ("scope_" ++ ScopeModel.id m) [1%Z; 1%Z] None (tensorLogic app) with
      | (RangeError, _) => (RangeError, app)
      | (Return _, tensorLogic') =>
          let app1 := mkApp (scope app) (hypermind app) tensorLogic' (atenSpace app) in
          let hypermind' := snd (pushScope now rnd (scope_config m) (hypermind app1)) in
          let app2 := mkApp (scope app1) hypermind' (tensorLogic app1) (atenSpace app1) in
          match mapScopeToDomain now m app2 with
          | (RangeError, app3) => (RangeError, app3)
          | (Return _, app3) => (Return tt, app3)
          end
      end
  end.

Definition setOrg (now : Z) (rnd : string) (orgModel : option ScopeModel.t) (app : App)
  : outcome unit * App :=
  let app1 :=
    mkApp (mkScope orgModel (project (scope app))) (hypermind app) (tensorLogic app)
      (atenSpace app) in
  match orgModel with
  | Some _ => initializeScopeFrameworks now rnd orgModel app1
  | None => (Return tt, app1)
  end.

Definition setProject (now : Z) (rnd : string) (projectModel : option ScopeModel.t)
  (app : App) : outcome unit * App :=
  let app1 :=
    mkApp (mkScope (org (scope app)) projectModel) (hypermind app) (tensorLogic app)
      (atenSpace app) in
  match projectModel with
  | Some _ => initializeScopeFrameworks now rnd projectModel app1
  | None => (Return tt, app1)
  end.

(** ** Queries on the atom space *)

Module AtomQuery.
Record t : Type := mk { type : option string; name : option string }.
End AtomQuery.

(** [q && !test(q)] for a string [q] that may be left out. *)
Definition mismatch (q : option string) (test : string -> bool) : bool :=
  match q with
  | Some x => (negb (String.eqb x EmptyString) && negb (test x))%bool
  | None => false
  end.

Definition _matchesQuery (atom : Atom.t) (query : AtomQuery.t) : bool :=
  if mismatch (AtomQuery.type query) (String.eqb (Atom.type atom)) then false
  else if mismatch (AtomQuery.name query) (includes (Atom.id atom)) then false
  else true.

Definition queryAtomSpace (query : AtomQuery.t) (this : ATenSpaceService) : list Atom.t :=
  filter (fun atom => _matchesQuery atom query) (atoms (atomSpace this)).

(** ** Notions used by the properties of the search methods *)

(** Every entry carries the name it is stored under. *)
Definition keyed (ms : MemoryStore) : Prop :=
  forall t k e, own_get (tier_get ms t) k = Some e -> key e = k.

(** [a] is listed no later than [b] by the chronological search. *)
Definition newer_first (a b : Hit.t) : Prop :=
  (timestamp (Hit.metadata b) <= timestamp (Hit.metadata a))%Z.

(** The hit the chronological search builds for an entry of tier [t]. *)
Definition hit_of (t : tier) (e : contextEntry) : Hit.t :=
  Hit.mk (key e) (value e) (metadata e) t.

(** The entries in the order the chronological search scans them. *)
Definition scan_hits (term : string) (ms : MemoryStore) : list Hit.t :=
  flat_map (fun t => tier_hits term t (tier_get ms t)) [Hot; Warm; Cold; Archived].

(** A character [JSON.stringify] writes as it is. *)
Definition unescaped (c : ascii) : bool :=
  let n := nat_of_ascii c in
  (negb (Nat.eqb n 34) && negb (Nat.eqb n 92) && Nat.leb 32 n)%bool.

Fixpoint plain (s : string) : bool :=
  match s with
  | EmptyString => true
  | String c s' => (unescaped c && plain s')%bool
  end.

(** Retrieving the key [k] once per clock reading of [nows]. *)
Fixpoint retrievals (nows : list Z) (k : string) (ms : MemoryStore) : MemoryStore :=
  match nows with
  | [] => ms
  | now :: nows' => retrievals nows' k (snd (retrieveContext now k ms))
  end.

(** Two lists of visited entries with the same serializations. *)
Definition same_values (E E' : object) : Prop :=
  forall p, duplicate_of E p = duplicate_of E' p.

(** ** Notions used by the properties of the collaborating services *)

(** The names [mapScopeToDomain] derives from a scope. *)
Definition domain_name (m : ScopeModel.t) : string :=
  "domain_" ++ ScopeModel.type m ++ "_" ++ ScopeModel.id m.

Definition boundary_name (m : ScopeModel.t) : string :=
  "boundary_" ++ ScopeModel.type m.

(** The zero tensor of shape [1, 1] created at [now]. *)
Definition unit_tensor (now : Z) (name : string) : Tensor.t :=
  Tensor.mk name [1%Z; 1%Z] [JNum 0] (Tensor.mkMeta (toISOString now) "tensor").

(** The boundary and the space of the scope [m], created at [now] while
    the scope selector is [s]. *)
Definition domain_boundary (now : Z) (m : ScopeModel.t) (s : ScopeService) : Boundary.t :=
  Boundary.mk (boundary_name m)
    (if ScopeModel.isGlobal m then "periodic" else "dirichlet")
    (JObj [("scopeType", JStr (ScopeModel.type m)); ("scopeId", JStr (ScopeModel.id m))])
    (ScopeModel.toJSON m)
    (Boundary.mkMeta (toISOString now) (current_scopeId s)).

Definition domain_space (now : Z) (m : ScopeModel.t) (s : ScopeService) : Space.t :=
  Space.mk (domain_name m) (Some (boundary_name m))
    (unit_tensor now (domain_name m ++ "_tensor"))
    (if ScopeModel.isProject m then 3%Z else if ScopeModel.isOrg m then 2%Z else 1%Z)
    []
    (Space.mkMeta (toISOString now) (current_scopeId s)).

(** Calls on the scope selector. *)
Inductive selection : Type :=
| SetOrg (now : Z) (rnd : string) (orgModel : option ScopeModel.t)
| SetProject (now : Z) (rnd : string) (projectModel : option ScopeModel.t).

Definition run_selection (c : selection) (app : App) : outcome unit * App :=
  match c with
  | SetOrg now rnd m => setOrg now rnd m app
  | SetProject now rnd m => setProject now rnd m app
  end.

(** A sequence of calls, up to the first one that throws. *)
Fixpoint run_selections (cs : list selection) (app : App) : outcome unit * App :=
  match cs with
  | [] => (Return tt, app)
  | c :: cs' =>
      match run_selection c app with
      | (Return _, app') => run_selections cs' app'
      | (RangeError, app') => (RangeError, app')
      end
  end.

(** The call hands over a scope (not [null]). *)
Definition selects (c : selection) : bool :=
  match c with
  | SetOrg _ _ (Some _) | SetProject _ _ (Some _) => true
  | _ => false
  end.

(** The scope a call hands over, its clock reading and its random draw. *)
Definition chosen (c : selection) : option ScopeModel.t :=
  match c with SetOrg _ _ m | SetProject _ _ m => m end.

Definition clock (c : selection) : Z :=
  match c with SetOrg now _ _ | SetProject now _ _ => now end.

Definition drawn (c : selection) : string :=
  match c with SetOrg _ rnd _ | SetProject _ rnd _ => rnd end.

(** The selector after the assignment the call starts with. *)
Definition select (c : selection) (s : ScopeService) : ScopeService :=
  match c with
  | SetOrg _ _ m => mkScope m (project s)
  | SetProject _ _ m => mkScope (org s) m
  end.

(** The atom [_addToAtomSpace] builds for the space of the scope [m] held
    at [ref]. *)
Definition domain_atom (now : Z) (m : ScopeModel.t) (ref : nat) : Atom.t :=
  Atom.mk ("atom_" ++ domain_name m) "space" ref (toISOString now).

(** Calls on the application: on the scope selector and on the spaces. *)
Inductive app_call : Type :=
| Select (c : selection)
| Execute (now : Z) (spaceName operation : string) (params : option json).

Definition with_atenSpace (app : App) (aten : ATenSpaceService) : App :=
  mkApp (scope app) (hypermind app) (tensorLogic app) aten.

(** The application after a call; a call that throws leaves it as it is at
    that point. *)
Definition run_app_call (c : app_call) (app : App) : App :=
  match c with
  | Select c => snd (run_selection c app)
  | Execute now spaceName operation params =>
      with_atenSpace app
        (snd (executeInSpace now spaceName operation params (atenSpace app)))
  end.

Definition run_app (cs : list app_call) (app : App) : App :=
  fold_left (fun app c => run_app_call c app) cs app.

(** The scopes the calls handed over. *)
Definition selected (cs : list app_call) : list ScopeModel.t :=
  flat_map (fun c =>
              match c with
              | Select c => match chosen c with Some m => [m] | None => [] end
              | Execute _ _ _ _ => []
              end) cs.

(** The space object after [operations.push(result)]. *)
Definition logged (result : Operation.t) (space : Space.t) : Space.t :=
  Space.mk (Space.name space) (Space.boundary space) (Space.tensorSpace space)
    (Space.dimensions space) (Space.operations space ++ [result])%list
    (Space.metadata space).

(** The registry, the atoms and the store of space objects fit together:
    a registered name refers to a space object of that name, created for one
    of the scopes [ms]; every scope of [ms] is registered; an atom is a space
    atom that refers to a space object and is named after it; every scope of
    [ms] has an atom. *)
Definition fitting (ms : list ScopeModel.t) (this : ATenSpaceService) : Prop :=
  (forall name ref,
      Dict.own_get (spaceRegistry this) name = Some ref ->
      (exists space, space_at ref this = Some space /\ Space.name space = name) /\
      (exists m, In m ms /\ name = domain_name m)) /\
  (forall m, In m ms -> Dict.own_get (spaceRegistry this) (domain_name m) <> None) /\
  (forall atom,
      In atom (atoms (atomSpace this)) ->
      Atom.type atom = "space" /\
      exists space, space_at (Atom.data atom) this = Some space /\
                    Atom.id atom = "atom_" ++ Space.name space) /\
  (forall m, In m ms ->
     exists atom, In atom (atoms (atomSpace this)) /\
                  Atom.id atom = "atom_" ++ domain_name m).

(** ** The name [__proto__]

    An assignment [tier['__proto__'] = entry] to a tier that has no own
    property of that name replaces the prototype of the tier object and adds
    no property; [storeContext] and the tiering loop assign in that way.
    The properties of stores and of runs are stated for stores that hold no
    property of that name and for calls that store none. *)

Definition plain_store (ms : MemoryStore) : bool := negb (resolvable ms "__proto__").

Definition plain_memory_call (c : memory_call) : bool := negb (stores_under "__proto__" c).

Definition plain_call (c : call) : bool :=
  match c with
  | Memory c => plain_memory_call c
  | _ => true
  end.

(** * Properties *)

(** ** The embedding on samples *)

Example stringify_sample :
  stringify (JObj [("a", JNum 1); ("b", JArr [JStr "x"; JNull; JBool true])])
  = "{" ++ quote "a" ++ ":1," ++ quote "b" ++ ":[" ++ quote "x" ++ ",null,true]}".
Proof. reflexivity. Qed.

Example toISOString_epoch : toISOString 0 = "1970-01-01T00:00:00.000Z".
Proof. reflexivity. Qed.

Example toISOString_sample : toISOString 1700000000123 = "2023-11-14T22:13:20.123Z".
Proof. vm_compute. reflexivity. Qed.

Example toISOString_leap : toISOString 951782400000 = "2000-02-29T00:00:00.000Z".
Proof. vm_compute. reflexivity. Qed.

Example array_index_samples :
  map array_index ["0"; "7"; "42"; "007"; "4294967294"; "4294967295"; "-1"; "1e3"; "key1"]
  = [Some 0%N; Some 7%N; Some 42%N; None; Some 4294967294%N; None; None; None; None].
Proof. vm_compute. reflexivity. Qed.

(** The walk-through of the specification: an entry stored in cold moves to
    warm on its 11th retrieval and to hot on its 12th. *)
Example promotion_walk :
  let ms := storeContext 1000 "k1" (VData (JObj [("a", JNum 1)]))
              (Options.mk (Some Cold) None) empty_store in
  let retrieve_n :=
    fix retrieve_n (n : nat) (m : MemoryStore) : MemoryStore :=
      match n with
      | O => m
      | S n' => retrieve_n n' (snd (retrieveContext 2000 "k1" m))
      end in
  map (fun n => holders (retrieve_n n ms) "k1") [0; 10; 11; 12; 13]
  = [[Cold]; [Cold]; [Warm]; [Hot]; [Hot]].
Proof. vm_compute. reflexivity. Qed.

(** Properties named by array indices are listed first, in numeric order. *)
Example enumeration_order :
  keys (hot (storeContext 3 "1" (VData (JNum 3)) Options.default
               (storeContext 2 "10" (VData (JNum 2)) Options.default
                  (storeContext 1 "b" (VData (JNum 1)) Options.default empty_store))))
  = ["1"; "10"; "b"].
Proof. vm_compute. reflexivity. Qed.

(** ** Own properties of an object *)

Section ObjectFacts.

Implicit Types (o : object) (k : string) (e : contextEntry).

Lemma eqb_neq_sym k k' : k <> k' -> String.eqb k' k = false.
Proof. intro H. apply String.eqb_neq. congruence. Qed.

Lemma own_get_replace_same o k e :
  has_own o k = true -> own_get (replace o k e) k = Some e.
Proof.
  unfold has_own. induction o as [|[k' e'] o IH]; simpl; [discriminate|].
  destruct (String.eqb k k') eqn:E; simpl; rewrite E; auto.
Qed.

Lemma own_get_replace_other o k e k' :
  k' <> k -> own_get (replace o k e) k' = own_get o k'.
Proof.
  intro N. induction o as [|[k0 e0] o IH]; simpl; [reflexivity|].
  destruct (String.eqb k k0) eqn:E; simpl.
  - apply String.eqb_eq in E. subst k0.
    rewrite (proj2 (String.eqb_neq k' k) N). reflexivity.
  - destruct (String.eqb k' k0); auto.
Qed.

Lemma own_get_define_same o k e :
  own_get o k = None -> own_get (define o k e) k = Some e.
Proof.
  induction o as [|[k' e'] o IH]; simpl.
  - intros _. rewrite String.eqb_refl. reflexivity.
  - destruct (String.eqb k k') eqn:E; [discriminate|]. intro H.
    destruct (precedes k k'); simpl.
    + rewrite String.eqb_refl. reflexivity.
    + rewrite E. auto.
Qed.

Lemma own_get_define_other o k e k' :
  k' <> k -> own_get (define o k e) k' = own_get o k'.
Proof.
  intro N. induction o as [|[k0 e0] o IH]; simpl.
  - rewrite (proj2 (String.eqb_neq k' k) N). reflexivity.
  - destruct (precedes k k0); simpl.
    + rewrite (proj2 (String.eqb_neq k' k) N). reflexivity.
    + destruct (String.eqb k' k0); auto.
Qed.

Lemma own_get_set_same o k e : own_get (own_set o k e) k = Some e.
Proof.
  unfold own_set. destruct (has_own o k) eqn:H.
  - now apply own_get_replace_same.
  - apply own_get_define_same. unfold has_own in H.
    destruct (own_get o k); [discriminate|reflexivity].
Qed.

Lemma own_get_set_other o k e k' :
  k' <> k -> own_get (own_set o k e) k' = own_get o k'.
Proof.
  intro N. unfold own_set. destruct (has_own o k).
  - now apply own_get_replace_other.
  - now apply own_get_define_other.
Qed.

Lemma own_get_delete_same o k : own_get (own_delete o k) k = None.
Proof.
  unfold own_delete. induction o as [|[k' e'] o IH]; simpl; [reflexivity|].
  destruct (String.eqb k k') eqn:E; simpl; [assumption|].
  rewrite E. assumption.
Qed.

Lemma own_get_delete_other o k k' :
  k' <> k -> own_get (own_delete o k) k' = own_get o k'.
Proof.
  intro N. unfold own_delete. induction o as [|[k0 e0] o IH]; simpl; [reflexivity|].
  destruct (String.eqb k k0) eqn:E; simpl.
  - apply String.eqb_eq in E. subst k0.
    rewrite (proj2 (String.eqb_neq k' k) N). assumption.
  - destruct (String.eqb k' k0); auto.
Qed.

Lemma own_get_delete_sub o k k' e :
  own_get (own_delete o k) k' = Some e -> own_get o k' = Some e /\ k' <> k.
Proof.
  intro H. destruct (String.eqb_spec k' k) as [->|N].
  - rewrite own_get_delete_same in H. discriminate.
  - rewrite own_get_delete_other in H by assumption. auto.
Qed.

Lemma own_get_In o k e : own_get o k = Some e -> In (k, e) o.
Proof.
  induction o as [|[k' e'] o IH]; simpl; [discriminate|].
  destruct (String.eqb_spec k k') as [->|N].
  - intros [= ->]. now left.
  - intro H. right. auto.
Qed.

Lemma own_get_None o k : own_get o k = None <-> ~ In k (keys o).
Proof.
  induction o as [|[k' e'] o IH]; simpl.
  - tauto.
  - destruct (String.eqb_spec k k') as [->|N].
    + split; [discriminate|]. intro H. exfalso. apply H. now left.
    + rewrite IH. split.
      * intros H [E|I]; [congruence|tauto].
      * tauto.
Qed.

Lemma In_own_get o k e : NoDup (keys o) -> In (k, e) o -> own_get o k = Some e.
Proof.
  induction o as [|[k' e'] o IH]; simpl; [tauto|].
  intros D [E|I].
  - injection E as -> ->. rewrite String.eqb_refl. reflexivity.
  - inversion D as [|? ? Hn D']; subst.
    destruct (String.eqb_spec k k') as [->|N].
    + exfalso. apply Hn. change k' with (fst (k', e)). now apply in_map.
    + auto.
Qed.

Lemma has_own_true o k : has_own o k = true <-> exists e, own_get o k = Some e.
Proof.
  unfold has_own. destruct (own_get o k).
  - split; eauto.
  - split; [discriminate|]. intros [e H]. discriminate.
Qed.

Lemma has_own_false o k : has_own o k = false <-> own_get o k = None.
Proof.
  unfold has_own. destruct (own_get o k); split; congruence.
Qed.

(** *** The key sequence stays duplicate-free *)

Lemma keys_replace o k e : keys (replace o k e) = keys o.
Proof.
  induction o as [|[k' e'] o IH]; simpl; [reflexivity|].
  destruct (String.eqb k k'); simpl; congruence.
Qed.

Lemma In_keys_define o k e k' : In k' (keys (define o k e)) <-> k' = k \/ In k' (keys o).
Proof.
  induction o as [|[k0 e0] o IH]; simpl.
  - intuition congruence.
  - destruct (precedes k k0); simpl.
    + intuition congruence.
    + rewrite IH. intuition congruence.
Qed.

Lemma NoDup_keys_define o k e :
  ~ In k (keys o) -> NoDup (keys o) -> NoDup (keys (define o k e)).
Proof.
  induction o as [|[k0 e0] o IH]; simpl; intros Hn D.
  - constructor; [tauto|constructor].
  - destruct (precedes k k0); simpl.
    + constructor; [simpl; tauto|assumption].
    + inversion D as [|? ? Hn0 D']; subst. constructor.
      * rewrite In_keys_define. intuition congruence.
      * apply IH; tauto.
Qed.

Lemma NoDup_keys_set o k e : NoDup (keys o) -> NoDup (keys (own_set o k e)).
Proof.
  intro D. unfold own_set. destruct (has_own o k) eqn:H.
  - now rewrite keys_replace.
  - apply NoDup_keys_define; [|assumption].
    apply own_get_None. now apply has_own_false.
Qed.

Lemma keys_delete o k : keys (own_delete o k) = filter (fun k' => negb (String.eqb k k')) (keys o).
Proof.
  unfold own_delete, keys. induction o as [|[k' e'] o IH]; simpl; [reflexivity|].
  destruct (String.eqb k k'); simpl; congruence.
Qed.

Lemma NoDup_keys_delete o k : NoDup (keys o) -> NoDup (keys (own_delete o k)).
Proof. intro D. rewrite keys_delete. now apply NoDup_filter. Qed.

Lemma own_delete_absent o k : ~ In k (keys o) -> own_delete o k = o.
Proof.
  unfold own_delete. induction o as [|[k' e'] o IH]; simpl; [reflexivity|].
  intro H. destruct (String.eqb_spec k k') as [->|N]; simpl.
  - tauto.
  - f_equal. apply IH. tauto.
Qed.

Lemma own_delete_app o1 o2 k :
  own_delete (o1 ++ o2)%list k = (own_delete o1 k ++ own_delete o2 k)%list.
Proof. unfold own_delete. apply filter_app. Qed.

(** *** Property reads *)

Lemma get_own o k e : own_get o k = Some e -> get o k = Own e.
Proof. unfold get. now intros ->. Qed.

Lemma get_Own o k e : get o k = Own e <-> own_get o k = Some e.
Proof.
  unfold get. destruct (own_get o k).
  - split; congruence.
  - destruct (inherited k); split; discriminate.
Qed.

Lemma get_Undefined o k :
  get o k = Undefined <-> own_get o k = None /\ inherited k = false.
Proof.
  unfold get. destruct (own_get o k).
  - split; [discriminate|]. intros [H _]. discriminate.
  - destruct (inherited k); split; try discriminate; auto. intros [_ H]. discriminate.
Qed.

End ObjectFacts.

(** ** The four tiers *)

Lemma tier_eqb_eq a b : tier_eqb a b = true <-> a = b.
Proof. destruct a, b; simpl; split; congruence. Qed.

Lemma tier_get_set_same ms t o : tier_get (tier_set ms t o) t = o.
Proof. destruct t; reflexivity. Qed.

Lemma tier_get_set_other ms t t' o : t' <> t -> tier_get (tier_set ms t o) t' = tier_get ms t'.
Proof. destruct t, t'; simpl; congruence. Qed.

Lemma tier_set_get ms t : tier_set ms t (tier_get ms t) = ms.
Proof. destruct ms, t; reflexivity. Qed.

Lemma tier_set_set ms t o o' : tier_set (tier_set ms t o) t o' = tier_set ms t o'.
Proof. destruct t; reflexivity. Qed.

Lemma well_formed_empty : well_formed empty_store.
Proof. intros []; constructor. Qed.

Ltac use_well_formed W :=
  first [exact (W Hot) | exact (W Warm) | exact (W Cold) | exact (W Archived)].

Lemma well_formed_tier_set ms t o :
  well_formed ms -> NoDup (keys o) -> well_formed (tier_set ms t o).
Proof.
  intros W D t'. destruct t, t'; simpl; try assumption; use_well_formed W.
Qed.

(** ** The tiering loop of [_optimizeMemory] *)

Section Tiering.

Variable now : Z.

Let step (m : MemoryStore) (p : string * contextEntry) : MemoryStore :=
  if stale now (snd p) then demote m p else m.

Lemma demote_tiers m p :
  hot (demote m p) = own_delete (hot m) (fst p) /\
  warm (demote m p) = own_set (warm m) (fst p) (snd p) /\
  cold (demote m p) = cold m /\
  archived (demote m p) = archived m.
Proof. unfold demote. simpl. auto. Qed.

Lemma well_formed_demote m p : well_formed m -> well_formed (demote m p).
Proof.
  intros W. unfold demote.
  apply well_formed_tier_set.
  - apply well_formed_tier_set; [assumption|]. apply NoDup_keys_set, (W Warm).
  - simpl. apply NoDup_keys_delete, (W Hot).
Qed.

Lemma tiering_loop (l : object) : forall m,
  NoDup (keys l) ->
  let m' := fold_left step l m in
  cold m' = cold m /\ archived m' = archived m /\
  (forall k, own_get (hot m') k =
             match own_get l k with
             | Some e => if stale now e then None else own_get (hot m) k
             | None => own_get (hot m) k
             end) /\
  (forall k, own_get (warm m') k =
             match own_get l k with
             | Some e => if stale now e then Some e else own_get (warm m) k
             | None => own_get (warm m) k
             end).
Proof.
  induction l as [|[k0 e0] l IH]; intros m D; simpl.
  - auto.
  - inversion D as [|? ? Hn D']; subst.
    assert (L0 : own_get l k0 = None) by now apply own_get_None.
    destruct (IH (step m (k0, e0)) D') as (Hc & Ha & Hh & Hw).
    remember (step m (k0, e0)) as m1 eqn:M1.
    unfold step in M1. simpl in M1.
    destruct (stale now e0) eqn:S0.
    + destruct (demote_tiers m (k0, e0)) as (Dh & Dw & Dc & Da).
      rewrite <- M1 in Dh, Dw, Dc, Da. simpl in Dh, Dw.
      repeat split.
      * congruence.
      * congruence.
      * intro k. rewrite Hh, Dh. destruct (String.eqb_spec k k0) as [->|N].
        -- rewrite L0, S0. apply own_get_delete_same.
        -- rewrite own_get_delete_other by assumption. reflexivity.
      * intro k. rewrite Hw, Dw. destruct (String.eqb_spec k k0) as [->|N].
        -- rewrite L0, S0. apply own_get_set_same.
        -- rewrite own_get_set_other by assumption. reflexivity.
    + subst m1. repeat split; try assumption.
      * intro k. rewrite Hh. destruct (String.eqb_spec k k0) as [->|N];
          [rewrite L0, S0|]; reflexivity.
      * intro k. rewrite Hw. destruct (String.eqb_spec k k0) as [->|N];
          [rewrite L0, S0|]; reflexivity.
Qed.

Lemma well_formed_loop (l : object) : forall m,
  well_formed m -> well_formed (fold_left step l m).
Proof.
  induction l as [|p l IH]; intros m W; simpl; [assumption|].
  apply IH. unfold step. destruct (stale now (snd p)); [|assumption].
  now apply well_formed_demote.
Qed.

(** What the loop does to each key: a stale hot entry moves to warm, where it
    replaces the entry of the same key if there is one; nothing else moves. *)
Lemma tiering_spec ms :
  well_formed ms ->
  cold (tiering now ms) = cold ms /\
  archived (tiering now ms) = archived ms /\
  (forall k, own_get (hot (tiering now ms)) k =
             match own_get (hot ms) k with
             | Some e => if stale now e then None else Some e
             | None => None
             end) /\
  (forall k, own_get (warm (tiering now ms)) k =
             match own_get (hot ms) k with
             | Some e => if stale now e then Some e else own_get (warm ms) k
             | None => own_get (warm ms) k
             end).
Proof.
  intro W. destruct (tiering_loop (hot ms) ms (W Hot)) as (Hc & Ha & Hh & Hw).
  repeat split; try assumption.
  intro k. fold step in Hh. unfold tiering. fold step. rewrite Hh.
  destruct (own_get (hot ms) k) as [e|] eqn:E; [|reflexivity].
  destruct (stale now e); reflexivity.
Qed.

Lemma well_formed_tiering ms : well_formed ms -> well_formed (tiering now ms).
Proof. apply well_formed_loop. Qed.

End Tiering.

(** ** The deduplication pass *)

Section Deduplication.

Local Open Scope list_scope.

Implicit Types (l earlier done : object) (p : string * contextEntry).

Lemma keep_first_app earlier l1 l2 :
  keep_first earlier (l1 ++ l2)%list
  = (keep_first earlier l1 ++ keep_first (earlier ++ l1) l2)%list.
Proof.
  revert earlier. induction l1 as [|p l1 IH]; intro earlier; simpl.
  - now rewrite app_nil_r.
  - rewrite IH, <- !app_assoc. reflexivity.
Qed.

Lemma keep_first_In earlier l p : In p (keep_first earlier l) -> In p l.
Proof.
  revert earlier. induction l as [|q l IH]; intro earlier; simpl; [tauto|].
  rewrite in_app_iff. intros [H|H].
  - destruct (duplicate_of earlier q); simpl in H; tauto.
  - right. eauto.
Qed.

Lemma keep_first_NoDup earlier l : NoDup (keys l) -> NoDup (keys (keep_first earlier l)).
Proof.
  revert earlier. induction l as [|q l IH]; intros earlier D; simpl; [constructor|].
  inversion D as [|? ? Hn D']; subst.
  destruct (duplicate_of earlier q); simpl; [now apply IH|].
  constructor; [|now apply IH].
  intro H. apply Hn. unfold keys in *. apply in_map_iff in H.
  destruct H as ([k e] & E & I). apply keep_first_In in I.
  apply in_map_iff. now exists (k, e).
Qed.

Lemma keep_first_own_get earlier l k e :
  NoDup (keys l) -> own_get (keep_first earlier l) k = Some e -> own_get l k = Some e.
Proof.
  intros D H. apply In_own_get; [assumption|].
  eapply keep_first_In. apply own_get_In. eassumption.
Qed.

Lemma occurrences_app s l1 l2 :
  occurrences s (l1 ++ l2)%list = occurrences s l1 + occurrences s l2.
Proof. unfold occurrences. now rewrite filter_app, length_app. Qed.

Lemma occurrences_cons s p l :
  occurrences s (p :: l)
  = (if String.eqb s (serialization p) then 1 else 0) + occurrences s l.
Proof.
  unfold occurrences. simpl. now destruct (String.eqb s (serialization p)).
Qed.

(** After the pass a serialization occurs once if it occurred at all. *)
Lemma occurrences_keep_first s l : forall earlier,
  occurrences s (keep_first earlier l) =
  if existsb (fun q => String.eqb s (serialization q)) earlier then 0
  else Nat.min 1 (occurrences s l).
Proof.
  induction l as [|p l IH]; intro earlier; simpl.
  - now destruct (existsb _ earlier).
  - rewrite occurrences_app, IH, existsb_app, occurrences_cons.
    simpl existsb. rewrite orb_false_r. unfold duplicate_of.
    destruct (String.eqb_spec s (serialization p)) as [->|N].
    + destruct (existsb _ earlier); simpl; [reflexivity|].
      rewrite occurrences_cons, String.eqb_refl. reflexivity.
    + rewrite orb_false_r.
      destruct (existsb (fun q => String.eqb (serialization p) (serialization q)) earlier);
        [|rewrite occurrences_cons, (proj2 (String.eqb_neq _ _) N)];
        destruct (existsb _ earlier); reflexivity.
Qed.

Lemma agrees_nil : agrees [] [].
Proof. intro s. reflexivity. Qed.

Lemma agrees_duplicate seen earlier p :
  agrees seen earlier -> seen_has seen (serialization p) = duplicate_of earlier p.
Proof. intro A. apply A. Qed.

Lemma agrees_seen seen earlier p :
  agrees seen earlier -> seen_has seen (serialization p) = true ->
  agrees seen (earlier ++ [p]).
Proof.
  intros A H s. rewrite existsb_app, <- A. simpl. rewrite orb_false_r.
  destruct (String.eqb_spec s (serialization p)) as [->|N].
  - rewrite H. reflexivity.
  - now rewrite orb_false_r.
Qed.

Lemma agrees_add seen earlier p :
  agrees seen earlier -> agrees (serialization p :: seen) (earlier ++ [p]).
Proof.
  intros A s. rewrite existsb_app, <- A. simpl. rewrite orb_false_r.
  unfold seen_has. apply orb_comm.
Qed.

Lemma own_delete_middle done l k e :
  NoDup (keys (done ++ (k, e) :: l)) ->
  own_delete (done ++ (k, e) :: l) k = (done ++ l)%list.
Proof.
  intro D. unfold keys in D. rewrite map_app in D. simpl in D.
  pose proof (NoDup_remove_2 _ _ _ D) as Hn. rewrite in_app_iff in Hn.
  rewrite own_delete_app. unfold own_delete at 2. simpl.
  rewrite String.eqb_refl. simpl.
  fold (own_delete l k). rewrite !own_delete_absent; tauto.
Qed.

(** The loop over the entries of one tier. *)
Lemma dedup_loop t l : forall m done earlier seen,
  tier_get m t = (done ++ l)%list ->
  NoDup (keys (done ++ l)) ->
  agrees seen earlier ->
  exists seen',
    fold_left (dedup_entry t) l (m, seen)
    = (tier_set m t (done ++ keep_first earlier l), seen')
    /\ agrees seen' (earlier ++ l).
Proof.
  induction l as [|[k e] l IH]; intros m done earlier seen T D A; simpl.
  - exists seen. rewrite !app_nil_r in *. rewrite <- T, tier_set_get. auto.
  - unfold dedup_entry at 2. simpl fst. simpl snd.
    change (JSON_stringify (value e)) with (serialization (k, e)).
    rewrite (agrees_duplicate _ _ _ A).
    destruct (duplicate_of earlier (k, e)) eqn:Dup.
    + rewrite T, own_delete_middle by assumption.
      destruct (IH (tier_set m t (done ++ l)%list) done (earlier ++ [(k, e)])%list seen)
        as (seen' & F & A').
      * apply tier_get_set_same.
      * unfold keys in *. rewrite map_app in *. simpl in D.
        now apply NoDup_remove_1 in D.
      * apply agrees_seen; [assumption|]. now rewrite (agrees_duplicate _ _ _ A).
      * exists seen'. rewrite F, tier_set_set, <- app_assoc in *. simpl in *. auto.
    + destruct (IH m (done ++ [(k, e)])%list (earlier ++ [(k, e)])%list
                  (serialization (k, e) :: seen)) as (seen' & F & A').
      * now rewrite <- app_assoc.
      * now rewrite <- app_assoc.
      * now apply agrees_add.
      * exists seen'. rewrite F, <- !app_assoc in *. simpl in *. auto.
Qed.

Lemma dedup_tier_spec t m earlier seen :
  NoDup (keys (tier_get m t)) ->
  agrees seen earlier ->
  exists seen',
    dedup_tier (m, seen) t
    = (tier_set m t (keep_first earlier (tier_get m t)), seen')
    /\ agrees seen' (earlier ++ tier_get m t).
Proof.
  intros D A. unfold dedup_tier. simpl fst.
  apply (dedup_loop t (tier_get m t) m [] earlier seen); auto.
Qed.

(** [_deduplicateContexts] keeps, tier by tier, the first occurrence of every
    serialization in the order hot, warm, cold, and leaves the archived tier
    as it is. *)
Lemma deduplicate_spec ms :
  well_formed ms ->
  _deduplicateContexts ms
  = mkStore (keep_first [] (hot ms))
            (keep_first (hot ms) (warm ms))
            (keep_first (hot ms ++ warm ms) (cold ms))
            (archived ms).
Proof.
  intro W. unfold _deduplicateContexts. cbn [fold_left].
  destruct (dedup_tier_spec Hot ms [] [] (W Hot) agrees_nil) as (s1 & F1 & A1).
  rewrite F1. clear F1.
  match goal with
  | |- context [dedup_tier (?m, s1) Warm] =>
      destruct (dedup_tier_spec Warm m _ s1 (W Warm) A1) as (s2 & F2 & A2)
  end.
  rewrite F2. clear F2.
  match goal with
  | |- context [dedup_tier (?m, s2) Cold] =>
      destruct (dedup_tier_spec Cold m _ s2 (W Cold) A2) as (s3 & F3 & A3)
  end.
  rewrite F3. reflexivity.
Qed.

Lemma deduplicate_order ms :
  well_formed ms ->
  dedup_order (_deduplicateContexts ms) = keep_first [] (dedup_order ms).
Proof.
  intro W. rewrite deduplicate_spec by assumption. unfold dedup_order. simpl.
  now rewrite !keep_first_app.
Qed.

Lemma well_formed_deduplicate ms :
  well_formed ms -> well_formed (_deduplicateContexts ms).
Proof.
  intro W. rewrite deduplicate_spec by assumption.
  intros []; simpl; try apply keep_first_NoDup; use_well_formed W.
Qed.

(** The pass deletes and never adds. *)
Lemma deduplicate_own_get ms t k e :
  well_formed ms ->
  own_get (tier_get (_deduplicateContexts ms) t) k = Some e ->
  own_get (tier_get ms t) k = Some e.
Proof.
  intros W. rewrite deduplicate_spec by assumption.
  destruct t; simpl; try apply keep_first_own_get; try use_well_formed W. auto.
Qed.

End Deduplication.

(** ** Promotion and retrieval *)

Section Retrieval.

Variable now : Z.

Lemma next_tier_cases t :
  match t with
  | Archived => next_tier t = Some Cold
  | Cold => next_tier t = Some Warm
  | Warm => next_tier t = Some Hot
  | Hot => next_tier t = None
  end.
Proof. destruct t; reflexivity. Qed.

Lemma next_tier_rank t t1 : next_tier t = Some t1 -> rank t1 = S (rank t).
Proof. destruct t; intros [= <-]; reflexivity. Qed.

Lemma next_tier_neq t t1 : next_tier t = Some t1 -> t1 <> t.
Proof. destruct t; intros [= <-]; discriminate. Qed.

Lemma promote_own key t ms e :
  own_get (tier_get ms t) key = Some e ->
  _promoteIfNeeded key t ms =
  Normal (if Nat.ltb 10 (accessCount (metadata e)) then
            match next_tier t with
            | Some t1 =>
                tier_set (tier_set ms t1 (own_set (tier_get ms t1) key e)) t
                  (own_delete (tier_get ms t) key)
            | None => ms
            end
          else ms).
Proof.
  intro H. unfold _promoteIfNeeded. rewrite (get_own _ _ _ H).
  destruct (Nat.ltb 10 (accessCount (metadata e))); [|reflexivity].
  destruct t; reflexivity.
Qed.

Lemma retrieve_from_skip t rest key ms :
  get (tier_get ms t) key = Undefined ->
  retrieve_from (t :: rest) now key ms = retrieve_from rest now key ms.
Proof. intro H. simpl. now rewrite H. Qed.

Lemma retrieve_from_inherited t rest key ms :
  get (tier_get ms t) key = Inherited ->
  retrieve_from (t :: rest) now key ms = (Throw TypeError, ms).
Proof. intro H. simpl. now rewrite H. Qed.

Lemma retrieve_from_own t rest key ms e :
  own_get (tier_get ms t) key = Some e ->
  retrieve_from (t :: rest) now key ms = (Normal (value e), retrieved now key t e ms).
Proof.
  intro H. simpl. rewrite (get_own _ _ _ H).
  assert (H1 : own_get (tier_get (tier_set ms t (replace (tier_get ms t) key (touch now e))) t)
                 key = Some (touch now e)).
  { rewrite tier_get_set_same. apply own_get_replace_same.
    apply has_own_true. eauto. }
  rewrite (promote_own _ _ _ _ H1). unfold retrieved.
  destruct (Nat.ltb 10 (accessCount (metadata (touch now e)))); [|reflexivity].
  destruct t; reflexivity.
Qed.

(** The three outcomes of a retrieval. *)
Lemma retrieve_cases key ms :
  (exists t e, finds ms key t e /\
     retrieveContext now key ms = (Normal (value e), retrieved now key t e ms)) \/
  ((forall t, get (tier_get ms t) key = Undefined) /\
     retrieveContext now key ms = (Normal null, ms)) \/
  ((exists t, get (tier_get ms t) key = Inherited) /\
     retrieveContext now key ms = (Throw TypeError, ms)).
Proof.
  unfold retrieveContext.
  destruct (get (tier_get ms Hot) key) as [e| |] eqn:G1.
  { left. exists Hot, e. apply get_Own in G1. split.
    - split; [assumption|]. intros [] L; unfold scanned_before in L; simpl in L; lia.
    - now apply retrieve_from_own. }
  { right. right. split; [now exists Hot|]. now apply retrieve_from_inherited. }
  rewrite retrieve_from_skip by assumption.
  destruct (get (tier_get ms Warm) key) as [e| |] eqn:G2.
  { left. exists Warm, e. apply get_Own in G2. split.
    - split; [assumption|]. intros [] L; unfold scanned_before in L; simpl in L; try lia; assumption.
    - now apply retrieve_from_own. }
  { right. right. split; [now exists Warm|]. now apply retrieve_from_inherited. }
  rewrite retrieve_from_skip by assumption.
  destruct (get (tier_get ms Cold) key) as [e| |] eqn:G3.
  { left. exists Cold, e. apply get_Own in G3. split.
    - split; [assumption|]. intros [] L; unfold scanned_before in L; simpl in L; try lia; assumption.
    - now apply retrieve_from_own. }
  { right. right. split; [now exists Cold|]. now apply retrieve_from_inherited. }
  rewrite retrieve_from_skip by assumption.
  destruct (get (tier_get ms Archived) key) as [e| |] eqn:G4.
  { left. exists Archived, e. apply get_Own in G4. split.
    - split; [assumption|]. intros [] L; unfold scanned_before in L; simpl in L; try lia; assumption.
    - now apply retrieve_from_own. }
  { right. right. split; [now exists Archived|]. now apply retrieve_from_inherited. }
  rewrite retrieve_from_skip by assumption.
  right. left. split; [|reflexivity]. intros []; assumption.
Qed.

Lemma retrieve_finds key ms t e :
  finds ms key t e ->
  retrieveContext now key ms = (Normal (value e), retrieved now key t e ms).
Proof.
  intros [H B]. unfold retrieveContext.
  assert (S : forall t', scanned_before t' t -> forall rest,
             retrieve_from (t' :: rest) now key ms = retrieve_from rest now key ms).
  { intros t' L rest. apply retrieve_from_skip. now apply B. }
  destruct t.
  - now apply retrieve_from_own.
  - rewrite (S Hot) by (unfold scanned_before; simpl; lia). now apply retrieve_from_own.
  - rewrite (S Hot), (S Warm) by (unfold scanned_before; simpl; lia).
    now apply retrieve_from_own.
  - rewrite (S Hot), (S Warm), (S Cold) by (unfold scanned_before; simpl; lia).
    now apply retrieve_from_own.
Qed.

(** *** The store after a hit *)

Lemma retrieved_other key t e ms k t0 :
  k <> key ->
  own_get (tier_get (retrieved now key t e ms) t0) k = own_get (tier_get ms t0) k.
Proof.
  intro N. unfold retrieved.
  assert (R : forall t0, own_get (tier_get (tier_set ms t (replace (tier_get ms t) key
                 (touch now e))) t0) k = own_get (tier_get ms t0) k).
  { intro t'. destruct (tier_eqb t' t) eqn:E.
    - apply tier_eqb_eq in E. subst t'. rewrite tier_get_set_same.
      now apply own_get_replace_other.
    - rewrite tier_get_set_other; [reflexivity|]. intro X. subst t'.
      destruct t; discriminate. }
  destruct (Nat.ltb 10 (accessCount (metadata (touch now e)))); [|apply R].
  destruct (next_tier t) as [t1|] eqn:T1; [|apply R].
  pose proof (next_tier_neq _ _ T1) as N1.
  destruct (tier_eqb t0 t) eqn:E.
  - apply tier_eqb_eq in E. subst t0. rewrite tier_get_set_same.
    rewrite own_get_delete_other by assumption.
    rewrite tier_get_set_same. now apply own_get_replace_other.
  - assert (t0 <> t) by (intro X; subst t0; destruct t; discriminate).
    rewrite tier_get_set_other by assumption.
    destruct (tier_eqb t0 t1) eqn:E1.
    + apply tier_eqb_eq in E1. subst t0. rewrite tier_get_set_same.
      now apply own_get_set_other.
    + assert (t0 <> t1) by (intro X; subst t0; destruct t1; discriminate).
      rewrite tier_get_set_other by assumption. apply R.
Qed.

Lemma retrieved_stays key t e ms :
  own_get (tier_get ms t) key = Some e ->
  (Nat.ltb 10 (S (accessCount (metadata e))) && negb (tier_eqb t Hot))%bool = false ->
  own_get (tier_get (retrieved now key t e ms) t) key = Some (touch now e) /\
  forall t0, t0 <> t -> tier_get (retrieved now key t e ms) t0 = tier_get ms t0.
Proof.
  intros H C. unfold retrieved.
  change (accessCount (metadata (touch now e))) with (S (accessCount (metadata e))).
  assert (Same : own_get (tier_get (tier_set ms t (replace (tier_get ms t) key
                   (touch now e))) t) key = Some (touch now e)).
  { rewrite tier_get_set_same. apply own_get_replace_same. apply has_own_true. eauto. }
  destruct (Nat.ltb 10 (S (accessCount (metadata e)))) eqn:L.
  - destruct t; simpl in C; try discriminate. simpl next_tier. cbv iota. split.
    + exact Same.
    + intros t0 N. now apply tier_get_set_other.
  - split; [exact Same|]. intros t0 N. now apply tier_get_set_other.
Qed.

Lemma retrieved_moves key t e ms :
  own_get (tier_get ms t) key = Some e ->
  (Nat.ltb 10 (S (accessCount (metadata e))) && negb (tier_eqb t Hot))%bool = true ->
  exists t1,
    next_tier t = Some t1 /\
    tier_get (retrieved now key t e ms) t1 = own_set (tier_get ms t1) key (touch now e) /\
    tier_get (retrieved now key t e ms) t
    = own_delete (replace (tier_get ms t) key (touch now e)) key /\
    forall t0, t0 <> t -> t0 <> t1 -> tier_get (retrieved now key t e ms) t0 = tier_get ms t0.
Proof.
  intros H C. apply andb_true_iff in C. destruct C as [L NH].
  unfold retrieved.
  change (accessCount (metadata (touch now e))) with (S (accessCount (metadata e))).
  rewrite L.
  destruct (next_tier t) as [t1|] eqn:T1; [|destruct t; discriminate].
  pose proof (next_tier_neq _ _ T1) as N1.
  exists t1. repeat split.
  - rewrite tier_get_set_other by assumption. apply tier_get_set_same.
  - rewrite tier_get_set_same, tier_get_set_same. reflexivity.
  - intros t0 N0 N01. now rewrite !tier_get_set_other by assumption.
Qed.

Lemma well_formed_retrieved key t e ms :
  well_formed ms -> well_formed (retrieved now key t e ms).
Proof.
  intro W. unfold retrieved.
  assert (W1 : well_formed (tier_set ms t (replace (tier_get ms t) key (touch now e)))).
  { apply well_formed_tier_set; [assumption|]. rewrite keys_replace. apply W. }
  destruct (Nat.ltb 10 (accessCount (metadata (touch now e)))); [|assumption].
  destruct (next_tier t) as [t1|]; [|assumption].
  apply well_formed_tier_set.
  - apply well_formed_tier_set; [assumption|]. apply NoDup_keys_set, W.
  - apply NoDup_keys_delete, W1.
Qed.

End Retrieval.

(** ** Storing and the maintenance pass *)

Section Storing.

Variable now : Z.

Lemma storeContext_unfold k v options ms :
  storeContext now k v options ms
  = _deduplicateContexts (tiering now (inserted now k v options ms)).
Proof. reflexivity. Qed.

Lemma well_formed_inserted k v options ms :
  well_formed ms -> well_formed (inserted now k v options ms).
Proof.
  intro W. apply well_formed_tier_set; [assumption|]. apply NoDup_keys_set, W.
Qed.

Lemma well_formed_optimize ms : well_formed ms -> well_formed (_optimizeMemory now ms).
Proof. intro W. now apply well_formed_deduplicate, well_formed_tiering. Qed.

Lemma well_formed_store k v options ms :
  well_formed ms -> well_formed (storeContext now k v options ms).
Proof. intro W. now apply well_formed_optimize, well_formed_inserted. Qed.

Lemma inserted_same k v options ms :
  own_get (tier_get (inserted now k v options ms) (target options)) k
  = Some (new_entry now k v options).
Proof. unfold inserted. rewrite tier_get_set_same. apply own_get_set_same. Qed.

Lemma inserted_other k v options ms t k' :
  (t <> target options \/ k' <> k) ->
  own_get (tier_get (inserted now k v options ms) t) k' = own_get (tier_get ms t) k'.
Proof.
  intro H. unfold inserted. destruct (tier_eqb t (target options)) eqn:E.
  - apply tier_eqb_eq in E. subst t. rewrite tier_get_set_same.
    apply own_get_set_other. tauto.
  - rewrite tier_get_set_other; [reflexivity|].
    intro X. subst t. destruct (target options); discriminate.
Qed.

Lemma new_entry_fresh k v options : stale now (new_entry now k v options) = false.
Proof.
  unfold stale, new_entry. simpl. rewrite Z.sub_diag. reflexivity.
Qed.

(** The pass deletes or moves hot to warm; it creates nothing. *)
Lemma optimize_origin ms t k e :
  well_formed ms ->
  own_get (tier_get (_optimizeMemory now ms) t) k = Some e ->
  own_get (tier_get ms t) k = Some e \/
  (t = Warm /\ own_get (hot ms) k = Some e /\ stale now e = true).
Proof.
  intros W H. unfold _optimizeMemory in H.
  apply deduplicate_own_get in H; [|now apply well_formed_tiering].
  destruct (tiering_spec now ms W) as (Hc & Ha & Hh & Hw).
  destruct t; simpl in H |- *.
  - rewrite Hh in H. destruct (own_get (hot ms) k) as [e0|]; [|discriminate].
    destruct (stale now e0); [discriminate|]. now left.
  - rewrite Hw in H. destruct (own_get (hot ms) k) as [e0|]; [|now left].
    destruct (stale now e0) eqn:S0; [|now left].
    injection H as ->. right. auto.
  - rewrite Hc in H. now left.
  - rewrite Ha in H. now left.
Qed.

Lemma optimize_archived ms :
  well_formed ms -> archived (_optimizeMemory now ms) = archived ms.
Proof.
  intro W. unfold _optimizeMemory.
  rewrite deduplicate_spec by now apply well_formed_tiering.
  simpl. apply (tiering_spec now ms W).
Qed.

End Storing.

(** ** Tiers holding a key *)

Section Holders.


Lemma resolvable_holders ms k : resolvable ms k = false <-> holders ms k = [].
Proof.
  unfold resolvable, holders. cbn [existsb filter].
  destruct (holds ms Hot k), (holds ms Warm k), (holds ms Cold k), (holds ms Archived k);
    simpl; split; congruence.
Qed.

Lemma resolvable_false ms k :
  resolvable ms k = false <-> forall t, own_get (tier_get ms t) k = None.
Proof.
  unfold resolvable. cbn [existsb]. rewrite !orb_false_iff. unfold holds.
  rewrite !has_own_false. split.
  - intros (H1 & H2 & H3 & H4 & _) []; assumption.
  - intro H. repeat split; apply H.
Qed.









End Holders.

(** ** Runs of memory calls *)

Lemma well_formed_retrieve now key ms :
  well_formed ms -> well_formed (snd (retrieveContext now key ms)).
Proof.
  intro W.
  destruct (retrieve_cases now key ms) as [(t & e & F & R)|[(_ & R)|(_ & R)]];
    rewrite R; simpl; try assumption.
  now apply well_formed_retrieved.
Qed.

Lemma well_formed_call c ms : well_formed ms -> well_formed (run_memory_call c ms).
Proof.
  intro W. destruct c; simpl.
  - now apply well_formed_store.
  - now apply well_formed_retrieve.
  - now apply well_formed_optimize.
Qed.




(** ** Promotion *)

Lemma scanned_before_rank t t0 : rank t < rank t0 -> scanned_before t0 t.
Proof.
  unfold scanned_before, rank. destruct t, t0; simpl; lia.
Qed.

(** C4 (promotion step size).  When a retrieval reaches the entry [e] of a
    key in tier [t], it returns the stored value and counts the access.  If
    the count after the increment exceeds 10 and [t] is not hot, the entry,
    with its count kept, is afterwards in the tier exactly one step up the
    order archived, cold, warm, hot, is gone from [t], and is in no tier
    further up.  Otherwise (count at most 10, or [t] is hot) the entry stays
    in [t] and no other tier changes. *)
Theorem promotion_step_size :
  forall (ms : MemoryStore) (now : Z) (key : string) (t : tier) (e : contextEntry),
    finds ms key t e ->
    let r := retrieveContext now key ms in
    let e' := touch now e in
    fst r = Normal (value e) /\
    accessCount (metadata e') = S (accessCount (metadata e)) /\
    if (Nat.ltb 10 (accessCount (metadata e')) && negb (tier_eqb t Hot))%bool
    then
      exists t1,
        next_tier t = Some t1 /\ rank t1 = S (rank t) /\
        own_get (tier_get (snd r) t1) key = Some e' /\
        own_get (tier_get (snd r) t) key = None /\
        (forall t0, rank t1 < rank t0 -> own_get (tier_get (snd r) t0) key = None) /\
        (forall t0, t0 <> t -> t0 <> t1 -> tier_get (snd r) t0 = tier_get ms t0)
    else
      own_get (tier_get (snd r) t) key = Some e' /\
      (forall t0, t0 <> t -> tier_get (snd r) t0 = tier_get ms t0).
Proof.
  intros ms now key t e F r e'. subst r e'.
  rewrite (retrieve_finds now key ms t e F). simpl fst. simpl snd.
  destruct F as [H B].
  split; [reflexivity|]. split; [reflexivity|].
  change (accessCount (metadata (touch now e))) with (S (accessCount (metadata e))).
  destruct (Nat.ltb 10 (S (accessCount (metadata e))) && negb (tier_eqb t Hot))%bool eqn:C.
  - destruct (retrieved_moves now key t e ms H C) as (t1 & T1 & M1 & M0 & Mo).
    exists t1. split; [assumption|]. split; [now apply next_tier_rank|].
    split; [rewrite M1; apply own_get_set_same|].
    split; [rewrite M0; apply own_get_delete_same|].
    split; [|assumption].
    intros t0 L. pose proof (next_tier_rank _ _ T1) as R1.
    rewrite Mo.
    + assert (S0 : scanned_before t0 t) by (apply scanned_before_rank; lia).
      apply B in S0. now apply get_Undefined in S0.
    + intro X. subst t0. lia.
    + intro X. subst t0. lia.
  - now apply retrieved_stays.
Qed.

Lemma promotion_step_size_witness :
  let e := mkEntry "k1" (VData (JNum 1)) (mkMetadata 0 10 (Some 3%Z) 1.0%float) in
  let ms := mkStore [] [] [("k1", e)] [] in
  finds ms "k1" Cold e /\
  own_get (warm (snd (retrieveContext 5 "k1" ms))) "k1" = Some (touch 5 e) /\
  own_get (cold (snd (retrieveContext 5 "k1" ms))) "k1" = None /\
  own_get (hot (snd (retrieveContext 5 "k1" ms))) "k1" = None.
Proof.
  intros e ms.
  assert (F : finds ms "k1" Cold e).
  { split; [reflexivity|]. intros [] L; unfold scanned_before in L; simpl in L;
      try lia; reflexivity. }
  split; [exact F|].
  destruct (promotion_step_size ms 5 "k1" Cold e F) as (_ & _ & P).
  simpl in P. destruct P as (t1 & T1 & _ & P1 & P0 & Pup & _).
  injection T1 as <-.
  split; [exact P1|]. split; [exact P0|].
  apply (Pup Hot). unfold rank. simpl. lia.
Defined.

(** ** Retrieval never demotes; maintenance demotes stale hot entries *)

Lemma retrieve_keeps now key ms t k e :
  own_get (tier_get ms t) k = Some e ->
  let ms' := snd (retrieveContext now key ms) in
  own_get (tier_get ms' t) k = Some e \/
  own_get (tier_get ms' t) k = Some (touch now e) \/
  exists t1, next_tier t = Some t1 /\ own_get (tier_get ms' t1) k = Some (touch now e).
Proof.
  intros H ms'. subst ms'.
  destruct (retrieve_cases now key ms) as [(t0 & e0 & F & R)|[(_ & R)|(_ & R)]];
    rewrite R; simpl snd; [|now left|now left].
  destruct (String.eqb_spec k key) as [->|N];
    [|left; now rewrite retrieved_other].
  destruct F as [H0 B].
  destruct (Nat.ltb 10 (S (accessCount (metadata e0))) && negb (tier_eqb t0 Hot))%bool eqn:C.
  - destruct (retrieved_moves now key t0 e0 ms H0 C) as (t1 & T1 & M1 & M0 & Mo).
    destruct (tier_eqb t t0) eqn:E.
    + apply tier_eqb_eq in E. subst t0. assert (e0 = e) by congruence. subst e0.
      right. right. exists t1. split; [assumption|]. rewrite M1. apply own_get_set_same.
    + assert (N0 : t <> t0) by (intro X; subst t; destruct t0; discriminate).
      assert (N1 : t <> t1).
      { intro X. subst t.
        assert (S0 : scanned_before t1 t0).
        { apply scanned_before_rank. rewrite (next_tier_rank _ _ T1). lia. }
        apply B in S0. apply get_Undefined in S0. destruct S0. congruence. }
      left. now rewrite Mo.
  - destruct (retrieved_stays now key t0 e0 ms H0 C) as (S1 & So).
    destruct (tier_eqb t t0) eqn:E.
    + apply tier_eqb_eq in E. subst t0. assert (e0 = e) by congruence. subst e0.
      right. now left.
    + assert (N0 : t <> t0) by (intro X; subst t; destruct t0; discriminate).
      left. now rewrite So.
Qed.

Lemma retrieve_origin now key ms t' k e' :
  own_get (tier_get (snd (retrieveContext now key ms)) t') k = Some e' ->
  (exists e, own_get (tier_get ms t') k = Some e) \/
  (exists t e, next_tier t = Some t' /\ own_get (tier_get ms t) k = Some e).
Proof.
  destruct (retrieve_cases now key ms) as [(t0 & e0 & F & R)|[(_ & R)|(_ & R)]];
    rewrite R; simpl snd; [|left; eauto|left; eauto].
  destruct (String.eqb_spec k key) as [->|N];
    [|rewrite retrieved_other by assumption; left; eauto].
  destruct F as [H0 B]. intro H.
  destruct (tier_eqb t' t0) eqn:E.
  { apply tier_eqb_eq in E. subst t'. left. eauto. }
  assert (N0 : t' <> t0) by (intro X; subst t'; destruct t0; discriminate).
  destruct (Nat.ltb 10 (S (accessCount (metadata e0))) && negb (tier_eqb t0 Hot))%bool eqn:C.
  - destruct (retrieved_moves now key t0 e0 ms H0 C) as (t1 & T1 & M1 & M0 & Mo).
    destruct (tier_eqb t' t1) eqn:E1.
    + apply tier_eqb_eq in E1. subst t'. right. eauto.
    + assert (N1 : t' <> t1) by (intro X; subst t'; destruct t1; discriminate).
      rewrite Mo in H by assumption. left. eauto.
  - destruct (retrieved_stays now key t0 e0 ms H0 C) as (S1 & So).
    rewrite So in H by assumption. left. eauto.
Qed.

Lemma stale_iff now e :
  stale now e = true <->
  (24 * (1000 * 60 * 60) < now - timestamp (metadata e))%Z /\ accessCount (metadata e) < 5.
Proof.
  unfold stale. rewrite andb_true_iff, Z.ltb_lt, Nat.ltb_lt. reflexivity.
Qed.

(** ** The contract of [retrieveContext] *)

Lemma retrieve_not_found now key ms :
  (forall t, get (tier_get ms t) key = Undefined) ->
  retrieveContext now key ms = (Normal null, ms).
Proof.
  intro U. unfold retrieveContext.
  rewrite !retrieve_from_skip by apply U. reflexivity.
Qed.

(** For a key that [Object.prototype] does not define, a retrieval scans hot,
    warm, cold, archived; at the first tier holding the key it counts the
    access, stamps it, promotes if eligible and returns the stored value;
    with no tier holding the key it returns [null] and changes nothing. *)
Lemma retrieve_plain_key now key ms :
  inherited key = false ->
  (exists t e, finds ms key t e /\
     retrieveContext now key ms = (Normal (value e), retrieved now key t e ms)) \/
  ((forall t, own_get (tier_get ms t) key = None) /\
     retrieveContext now key ms = (Normal null, ms)).
Proof.
  intro P.
  destruct (retrieve_cases now key ms) as [C|[(U & R)|((t & I) & _)]].
  - now left.
  - right. split; [|assumption]. intro t. specialize (U t). now apply get_Undefined in U.
  - unfold get in I. rewrite P in I. destruct (own_get (tier_get ms t) key); discriminate.
Qed.

(** A key that names a member of [Object.prototype] and that the hot tier
    does not store makes the truthiness test of the scan succeed on the
    inherited member, which has no [metadata]: the retrieval throws. *)
Lemma retrieve_inherited_name now key ms :
  inherited key = true ->
  own_get (hot ms) key = None ->
  retrieveContext now key ms = (Throw TypeError, ms).
Proof.
  intros I H. unfold retrieveContext.
  apply retrieve_from_inherited. unfold get. simpl tier_get. now rewrite H, I.
Qed.

(** C7 (retrieve contract), where the code departs from it.  On a fresh
    service [retrieveContext] of the key [constructor] (or [toString], or
    [hasOwnProperty]) does not return [null]: it throws a [TypeError].  The
    same happens with the key stored in the cold tier, which the scan never
    reaches; a key that [Object.prototype] does not define is not found and
    yields [null]. *)
Theorem retrieve_throws_on_inherited_name :
  retrieveContext 0 "constructor" empty_store = (Throw TypeError, empty_store) /\
  fst (retrieveContext 0 "toString" empty_store) = Throw TypeError /\
  fst (retrieveContext 0 "hasOwnProperty" empty_store) = Throw TypeError /\
  fst (retrieveContext 2 "constructor"
         (storeContext 1 "constructor" (VData (JNum 1)) (Options.mk (Some Cold) None)
            empty_store))
  = Throw TypeError /\
  retrieveContext 0 "nonexistent" empty_store = (Normal null, empty_store).
Proof. vm_compute. repeat split. Qed.

(** ** The scope stack *)

Section ScopeStack.

Local Open Scope list_scope.

Lemma last_element_app {A : Type} (l : list A) (x : A) : last_element (l ++ [x]) = Some x.
Proof.
  induction l as [|y l IH]; simpl; [reflexivity|].
  rewrite IH. destruct l; reflexivity.
Qed.

Lemma last_element_None {A : Type} (l : list A) : last_element l = None <-> l = [].
Proof.
  destruct l as [|x l] using rev_ind.
  - simpl. tauto.
  - rewrite last_element_app. split; [discriminate|].
    intro H. now apply app_eq_nil in H.
Qed.

Lemma last_default {A : Type} (l : list A) (x d d' : A) :
  last (x :: l) d = last (x :: l) d'.
Proof.
  revert x. induction l as [|y l IH]; intro x; [reflexivity|].
  change (last (y :: l) d = last (y :: l) d'). apply IH.
Qed.

Lemma last_cons {A : Type} (l : list A) (x d : A) : last l x = last (x :: l) d.
Proof.
  destruct l as [|y l]; [reflexivity|].
  change (last (y :: l) x = last (y :: l) d). apply last_default.
Qed.

Lemma popScope_empty now this :
  scopeStack this = [] -> popScope now this = (Throw EmptyStackError, this).
Proof. intro H. unfold popScope. now rewrite H. Qed.

Lemma popScope_top now this stack F :
  scopeStack this = stack ++ [F] ->
  popScope now this =
  (Normal F,
   mkService
     (storeContext now (archiveKey F) (VScope F) (Options.mk (Some Archived) None)
        (memoryStore this))
     stack (contextGraph this)).
Proof.
  intro H. unfold popScope. rewrite H.
  destruct (stack ++ [F]) as [|first rest] eqn:E.
  - now apply app_eq_nil in E.
  - rewrite (last_cons rest first F), <- E, last_last, removelast_last. reflexivity.
Qed.


(** C8 (pop on empty).  [popScope] throws the empty-stack error exactly when
    the scope stack is empty; it throws nothing else; and when it throws, the
    service (stack, memory store, context graph) is as it was. *)
Theorem pop_empty_atomic :
  forall (now : Z) (this : HyperMindService),
    (fst (popScope now this) = Throw EmptyStackError <-> scopeStack this = []) /\
    (forall e, fst (popScope now this) = Throw e ->
               e = EmptyStackError /\ snd (popScope now this) = this).
Proof.
  intros now this. unfold popScope.
  destruct (scopeStack this) as [|first rest]; simpl.
  - split; [tauto|]. intros e [= <-]. auto.
  - split; [split; discriminate|]. intros e H. discriminate.
Qed.

Lemma pop_empty_atomic_witness :
  scopeStack init = [] /\
  fst (popScope 5 init) = Throw EmptyStackError /\
  snd (popScope 5 init) = init.
Proof.
  split; [reflexivity|].
  destruct (pop_empty_atomic 5 init) as (I & A).
  split; [now apply I|]. now apply (A EmptyStackError), I.
Defined.





End ScopeStack.

(** ** The context graph *)

Section Graph.

Local Open Scope list_scope.

Lemma updateContextGraph_spec scope g :
  nodes (_updateContextGraph scope g) = nodes g ++ [node_of scope] /\
  edges (_updateContextGraph scope g) = edges g ++ edges_of scope.
Proof.
  unfold _updateContextGraph, edges_of, node_of.
  destruct (Scope.parent scope); simpl; auto using app_nil_r.
Qed.

Lemma edges_of_length s : List.length (edges_of s) = Nat.b2n (has_parent s).
Proof. unfold edges_of, has_parent. now destruct (Scope.parent s). Qed.

Lemma run_call_graph c this :
  let r := run_call c this in
  nodes (contextGraph (snd r)) = nodes (contextGraph this) ++ map node_of (fst r) /\
  edges (contextGraph (snd r)) = edges (contextGraph this) ++ flat_map edges_of (fst r) /\
  List.length (fst r) = Nat.b2n (is_push c).
Proof.
  destruct c as [now rnd scopeConfig|now|c]; cbn [run_call fst snd is_push Nat.b2n].
  - unfold pushScope. cbn [fst snd contextGraph map flat_map].
    rewrite app_nil_r. split; [|split]; try reflexivity;
      apply updateContextGraph_spec.
  - unfold popScope. destruct (scopeStack this); simpl; now rewrite !app_nil_r.
  - simpl. now rewrite !app_nil_r.
Qed.

Lemma filter_has_parent_length l :
  List.length (flat_map edges_of l) = List.length (filter has_parent l).
Proof.
  induction l as [|s l IH]; simpl; [reflexivity|].
  rewrite length_app, edges_of_length, IH. destruct (has_parent s); reflexivity.
Qed.

Lemma run_graph calls : forall this,
  let pushed := fst (run calls this) in
  let final := snd (run calls this) in
  List.length pushed = List.length (filter is_push calls) /\
  nodes (contextGraph final) = nodes (contextGraph this) ++ map node_of pushed /\
  edges (contextGraph final) = edges (contextGraph this) ++ flat_map edges_of pushed.
Proof.
  induction calls as [|c calls IH]; intro this.
  - simpl. now rewrite !app_nil_r.
  - cbn [run fst snd filter].
    destruct (run_call_graph c this) as (N0 & E0 & L0).
    set (r := run_call c this) in *. clearbody r.
    destruct (IH (snd r)) as (L1 & N1 & E1).
    rewrite length_app, map_app, flat_map_app, N1, E1, N0, E0, L1, L0, <- !app_assoc.
    repeat split. destruct (is_push c); reflexivity.
Qed.

(** C9 (graph node and edge counts).  Whatever calls are made on a fresh
    service, if K of them are pushes and M of the pushed scopes have a parent,
    the graph ends with exactly K nodes and M edges.  From any state the
    nodes and edges present stay in place, one node is appended per push, and
    one parent-child edge from the parent's id to the scope's id is appended
    for each pushed scope that has a parent and none for the others.  A
    pushed scope has a parent exactly when the stack was not empty at its
    push. *)
Theorem graph_counts :
  (forall calls : list call,
      let pushed := fst (run calls init) in
      let graph := contextGraph (snd (run calls init)) in
      List.length (nodes graph) = List.length (filter is_push calls) /\
      List.length (edges graph) = List.length (filter has_parent pushed)) /\
  (forall (calls : list call) (this : HyperMindService),
      let pushed := fst (run calls this) in
      let graph := contextGraph (snd (run calls this)) in
      List.length pushed = List.length (filter is_push calls) /\
      nodes graph = nodes (contextGraph this) ++ map node_of pushed /\
      edges graph = edges (contextGraph this) ++ flat_map edges_of pushed /\
      List.length (flat_map edges_of pushed) = List.length (filter has_parent pushed)) /\
  (forall now rnd scopeConfig this,
      let scope := fst (pushScope now rnd scopeConfig this) in
      (has_parent scope = true <-> scopeStack this <> []) /\
      Scope.parent scope = getCurrentScope this /\
      edges_of scope
      = match getCurrentScope this with
        | Some p => [Edge.mk (Scope.id p) (Scope.id scope) "parent-child"]
        | None => []
        end).
Proof.
  split; [|split].
  - intros calls pushed graph. subst pushed graph.
    destruct (run_graph calls init) as (L & N & E).
    rewrite N, E. simpl. rewrite length_map, L, filter_has_parent_length. auto.
  - intros calls this pushed graph. subst pushed graph.
    destruct (run_graph calls this) as (L & N & E).
    auto using filter_has_parent_length.
  - intros now rnd scopeConfig this scope. subst scope.
    unfold pushScope, getCurrentScope, has_parent, edges_of. cbn [fst Scope.parent].
    split; [|split; reflexivity].
    pose proof (last_element_None (scopeStack this)) as N.
    destruct (last_element (scopeStack this)) as [p|].
    + split; [|reflexivity]. intros _ X. apply N in X. discriminate.
    + split; [discriminate|]. intro H. exfalso. apply H. now apply N.
Qed.

End Graph.

(** ** States reached through the methods

    In every state the methods can reach from a fresh service the memory
    store is [well_formed] and the scope on top of the stack is not also
    further down (the scopes of the stack are distinct objects). *)

Section Reachable.

Local Open Scope list_scope.

Lemma depth_indexed_push now rnd scopeConfig this :
  depth_indexed (scopeStack this) ->
  depth_indexed (scopeStack (snd (pushScope now rnd scopeConfig this))).
Proof.
  intro D. unfold pushScope. cbn [snd scopeStack].
  intros i f H.
  destruct (Nat.lt_ge_cases i (List.length (scopeStack this))) as [L|L].
  - rewrite nth_error_app1 in H by assumption. now apply D.
  - rewrite nth_error_app2 in H by assumption.
    destruct (i - List.length (scopeStack this)) as [|n] eqn:E; simpl in H;
      [|destruct n; discriminate].
    injection H as <-. cbn [Scope.depth].
    assert (I : i = List.length (scopeStack this)) by lia. rewrite I.
    destruct (scopeStack this) as [|x l _] eqn:ST using rev_ind; [reflexivity|].
    rewrite last_element_app, length_app. simpl.
    rewrite (D (List.length l) x); [lia|].
    rewrite nth_error_app2 by lia. now rewrite Nat.sub_diag.
Qed.

Lemma depth_indexed_removelast stack :
  depth_indexed stack -> depth_indexed (removelast stack).
Proof.
  intro D. destruct stack as [|x l _] using rev_ind; [exact D|].
  rewrite removelast_last. intros i f H. apply D.
  rewrite nth_error_app1; [assumption|]. apply nth_error_Some. congruence.
Qed.

Lemma depth_indexed_NoDup stack : depth_indexed stack -> NoDup stack.
Proof.
  intro D. apply NoDup_nth_error. intros i j L E.
  destruct (nth_error stack i) as [f|] eqn:Hi.
  - symmetry in E. rewrite <- (D i f Hi). now apply D.
  - apply nth_error_None in Hi. lia.
Qed.

Lemma run_call_invariant c this :
  well_formed (memoryStore this) /\ depth_indexed (scopeStack this) ->
  well_formed (memoryStore (snd (run_call c this))) /\
  depth_indexed (scopeStack (snd (run_call c this))).
Proof.
  intros [W D]. destruct c as [now rnd scopeConfig|now|c]; cbn [run_call snd].
  - split; [exact W|]. now apply depth_indexed_push.
  - unfold popScope. destruct (scopeStack this) as [|first rest] eqn:ST.
    + cbn [snd]. rewrite ST. now split.
    + cbn [snd _archiveScope memoryStore scopeStack]. split.
      * now apply well_formed_store.
      * rewrite <- ST in D |- *. now apply depth_indexed_removelast.
  - split; [now apply well_formed_call|exact D].
Qed.

Lemma run_invariant calls : forall this,
  well_formed (memoryStore this) /\ depth_indexed (scopeStack this) ->
  well_formed (memoryStore (snd (run calls this))) /\
  depth_indexed (scopeStack (snd (run calls this))).
Proof.
  induction calls as [|c calls IH]; intros this I; [exact I|].
  cbn [run snd]. apply IH. now apply run_call_invariant.
Qed.

Lemma reachable_well_formed calls :
  let this := snd (run calls init) in
  well_formed (memoryStore this) /\
  NoDup (scopeStack this) /\
  (forall stack F, scopeStack this = stack ++ [F] -> ~ In F stack).
Proof.
  intro this.
  destruct (run_invariant calls init) as [W D].
  { split; [exact well_formed_empty|]. intros [|i] f H; discriminate. }
  fold this in W, D. pose proof (depth_indexed_NoDup _ D) as N.
  repeat split; try assumption.
  intros stack F E I. rewrite E in N.
  apply NoDup_remove_2 in N. apply N. now rewrite app_nil_r.
Qed.

End Reachable.

(** ** Archival on pop *)

Section Archival.

Local Open Scope list_scope.

Lemma archiveKey_plain scope : inherited (archiveKey scope) = false.
Proof. reflexivity. Qed.

Lemma store_archived now k v ms :
  well_formed ms ->
  let ms' := storeContext now k v (Options.mk (Some Archived) None) ms in
  own_get (archived ms') k
  = Some (mkEntry k v (mkMetadata now 0 None 1.0%float)) /\
  (forall t, t <> Archived -> holds ms t k = false -> holds ms Hot k = false ->
             holds ms' t k = false).
Proof.
  intros W ms'. subst ms'. rewrite storeContext_unfold.
  set (options := Options.mk (Some Archived) None).
  fold (_optimizeMemory now (inserted now k v options ms)).
  pose proof (well_formed_inserted now k v options ms W) as W1.
  split.
  - rewrite optimize_archived by assumption.
    apply (inserted_same now k v options ms).
  - intros t N H HH. unfold holds in *. apply has_own_false.
    destruct (own_get (tier_get (_optimizeMemory now (inserted now k v options ms)) t) k)
      as [e|] eqn:E; [|reflexivity].
    apply has_own_false in H, HH.
    destruct (optimize_origin now _ t k e W1 E) as [K|(_ & K & _)].
    + rewrite inserted_other in K by (left; exact N). rewrite H in K. discriminate K.
    + change (hot (inserted now k v options ms))
        with (tier_get (inserted now k v options ms) Hot) in K.
      rewrite inserted_other in K by (left; discriminate). rewrite HH in K. discriminate K.
Qed.

(** What a pop does with the scope on top of the stack. *)
Lemma pop_archives now now' this stack F :
  well_formed (memoryStore this) ->
  scopeStack this = stack ++ [F] ->
  ~ In F stack ->
  (forall t, t <> Archived -> holds (memoryStore this) t (archiveKey F) = false) ->
  let r := popScope now this in
  fst r = Normal F /\
  scopeStack (snd r) = stack /\
  ~ In F (scopeStack (snd r)) /\
  contextGraph (snd r) = contextGraph this /\
  own_get (archived (memoryStore (snd r))) (archiveKey F)
  = Some (mkEntry (archiveKey F) (VScope F) (mkMetadata now 0 None 1.0%float)) /\
  fst (retrieveContext now' (archiveKey F) (memoryStore (snd r))) = Normal (VScope F).
Proof.
  intros W HS NI A r. subst r.
  rewrite (popScope_top now this stack F HS). cbn [fst snd scopeStack contextGraph memoryStore].
  destruct (store_archived now (archiveKey F) (VScope F) (memoryStore this) W) as (S1 & S2).
  repeat split; try assumption.
  rewrite (retrieve_finds now' (archiveKey F) _ Archived
             (mkEntry (archiveKey F) (VScope F) (mkMetadata now 0 None 1.0%float))).
  - reflexivity.
  - split; [exact S1|]. intros t' L.
    apply get_Undefined. split; [|apply archiveKey_plain].
    apply has_own_false. apply S2.
    + intro X. subst t'. unfold scanned_before in L. simpl in L. lia.
    + apply A. intro X. subst t'. unfold scanned_before in L. simpl in L. lia.
    + apply A. discriminate.
Qed.

(** C3 (archival on pop), as the code has it.  In a state reached from a
    fresh service, with a scope [F] on top of the stack and no entry stored
    under the key [scope_] + [F.id] in the hot, warm or cold tier,
    [popScope] returns [F], takes it off the stack, which no longer contains
    it, leaves the graph alone and stores [F] in the archived tier under that
    key with access count 0 and significance 1.0; a retrieval of the key then
    returns [F]. *)
Theorem archival_on_pop :
  forall (calls : list call) (now now' : Z) (stack : list scopeInstance)
         (F : scopeInstance),
    let this := snd (run calls init) in
    scopeStack this = stack ++ [F] ->
    (forall t, t <> Archived -> holds (memoryStore this) t (archiveKey F) = false) ->
    let r := popScope now this in
    fst r = Normal F /\
    scopeStack (snd r) = stack /\
    ~ In F (scopeStack (snd r)) /\
    contextGraph (snd r) = contextGraph this /\
    own_get (archived (memoryStore (snd r))) (archiveKey F)
    = Some (mkEntry (archiveKey F) (VScope F) (mkMetadata now 0 None 1.0%float)) /\
    fst (retrieveContext now' (archiveKey F) (memoryStore (snd r))) = Normal (VScope F).
Proof.
  intros calls now now' stack F this HS A.
  destruct (reachable_well_formed calls) as (W & _ & NI).
  fold this in W, NI.
  apply pop_archives; auto.
Qed.

Lemma archival_on_pop_witness :
  let calls := [Push 1000 "abc" (JObj [("name", JStr "parent")]);
                Memory (Store 1001 "k" (VData (JNum 1)) Options.default);
                Push 1002 "def" (JObj [("name", JStr "child")])] in
  let this := snd (run calls init) in
  let P := fst (pushScope 1000 "abc" (JObj [("name", JStr "parent")]) init) in
  let C := last (scopeStack this) P in
  scopeStack this = [P] ++ [C] /\
  fst (popScope 1003 this) = Normal C /\
  fst (retrieveContext 1004 (archiveKey C) (memoryStore (snd (popScope 1003 this))))
  = Normal (VScope C).
Proof.
  intros calls this P C.
  assert (HS : scopeStack this = [P] ++ [C]) by reflexivity.
  split; [exact HS|].
  destruct (archival_on_pop calls 1003 1004 [P] C HS) as (R1 & _ & _ & _ & _ & R2).
  - intros [] N; reflexivity.
  - split; assumption.
Defined.

(** C3 as the specification words it does not hold: an entry stored under
    the archive key in the hot tier shadows the archived scope.  After a
    push, a store under the key of the pushed scope and a pop, the retrieval
    of that key returns the stored number, not the popped scope. *)
Lemma archival_shadowed_by_hot_entry :
  let F := fst (pushScope 1000 "abc" JNull init) in
  let this := snd (run [Push 1000 "abc" JNull;
                        Memory (Store 1001 "scope_scope_1000_abc" (VData (JNum 7))
                                  Options.default)] init) in
  archiveKey F = "scope_scope_1000_abc" /\
  scopeStack this = [F] /\
  fst (popScope 1002 this) = Normal F /\
  fst (retrieveContext 1003 (archiveKey F) (memoryStore (snd (popScope 1002 this))))
  = Normal (VData (JNum 7)) /\
  VData (JNum 7) <> VScope F.
Proof.
  vm_compute. repeat split; discriminate.
Qed.

End Archival.

(** ** What a store leaves behind *)

Section StoreThenDeduplicate.

Local Open Scope list_scope.

Variable now : Z.

Lemma tiering_origin ms t k e :
  well_formed ms ->
  own_get (tier_get (tiering now ms) t) k = Some e ->
  own_get (tier_get ms t) k = Some e \/
  (t = Warm /\ own_get (tier_get ms Hot) k = Some e /\ stale now e = true).
Proof.
  intros W H. destruct (tiering_spec now ms W) as (Hc & Ha & Hh & Hw).
  destruct t; simpl in H |- *.
  - rewrite Hh in H. destruct (own_get (hot ms) k) as [e0|]; [|discriminate].
    destruct (stale now e0); [discriminate|]. now left.
  - rewrite Hw in H. destruct (own_get (hot ms) k) as [e0|]; [|now left].
    destruct (stale now e0) eqn:S0; [|now left].
    injection H as ->. right. auto.
  - rewrite Hc in H. now left.
  - rewrite Ha in H. now left.
Qed.

(** Where the entries come from that are in the store when the
    deduplication of [storeContext] starts. *)
Lemma staged_origin k v options ms t k' e :
  well_formed ms ->
  own_get (tier_get (tiering now (inserted now k v options ms)) t) k' = Some e ->
  (k' = k /\ e = new_entry now k v options /\ t = target options) \/
  (exists t', (t' = t \/ (t = Warm /\ t' = Hot)) /\ own_get (tier_get ms t') k' = Some e).
Proof.
  intros W H.
  assert (I : forall t', own_get (tier_get (inserted now k v options ms) t') k' = Some e ->
                (t' = target options /\ k' = k /\ e = new_entry now k v options) \/
                own_get (tier_get ms t') k' = Some e).
  { intros t' I. destruct (tier_eqb t' (target options)) eqn:E.
    - apply tier_eqb_eq in E. subst t'. destruct (String.eqb_spec k' k) as [->|N].
      + rewrite inserted_same in I. injection I as <-. now left.
      + rewrite inserted_other in I by now right. now right.
    - rewrite inserted_other in I; [now right|]. left. intro X. subst t'.
      destruct (target options); discriminate. }
  apply tiering_origin in H; [|now apply well_formed_inserted].
  destruct H as [H|(-> & H & S)].
  - destruct (I t H) as [(-> & -> & ->)|K]; [now left|]. right. exists t. auto.
  - destruct (I Hot H) as [(_ & -> & ->)|K].
    + now rewrite new_entry_fresh in S.
    + right. exists Hot. auto.
Qed.

(** The new entry is in its tier when the deduplication starts, unless a
    stale hot entry of the same key has just taken its place in warm. *)
Lemma staged_new k v options ms :
  well_formed ms ->
  (target options = Warm -> own_get (hot ms) k = None) ->
  own_get (tier_get (tiering now (inserted now k v options ms)) (target options)) k
  = Some (new_entry now k v options).
Proof.
  intros W HW.
  pose proof (inserted_same now k v options ms) as I.
  destruct (tiering_spec now _ (well_formed_inserted now k v options ms W))
    as (Hc & Ha & Hh & Hw).
  destruct (target options) eqn:T; simpl in I |- *.
  - rewrite Hh, I, new_entry_fresh. reflexivity.
  - rewrite Hw, I.
    change (hot (inserted now k v options ms))
      with (tier_get (inserted now k v options ms) Hot).
    rewrite inserted_other by (left; rewrite T; discriminate).
    simpl. now rewrite (HW eq_refl).
  - now rewrite Hc.
  - now rewrite Ha.
Qed.

Lemma in_front_split o k e :
  own_get o k = Some e -> exists rest, o = in_front o k ++ (k, e) :: rest.
Proof.
  induction o as [|[k' e'] o IH]; simpl; [discriminate|].
  destruct (String.eqb_spec k k') as [->|N].
  - intros [= ->]. now exists o.
  - intro H. destruct (IH H) as [rest R]. exists rest. simpl. now rewrite <- R.
Qed.

Lemma keep_first_duplicate earlier l1 k e l2 :
  NoDup (keys (l1 ++ (k, e) :: l2)) ->
  duplicate_of (earlier ++ l1) (k, e) = true ->
  own_get (keep_first earlier (l1 ++ (k, e) :: l2)) k = None.
Proof.
  intros D Dup. rewrite keep_first_app. simpl. rewrite Dup. simpl.
  apply own_get_None. intro I.
  unfold keys in D, I. rewrite map_app in D. simpl in D.
  apply NoDup_remove_2 in D. apply D.
  rewrite map_app, in_app_iff in I. rewrite in_app_iff.
  destruct I as [I|I]; [left|right];
    apply in_map_iff in I; destruct I as ([k0 e0] & E0 & I);
    apply keep_first_In in I; apply in_map_iff; now exists (k0, e0).
Qed.

(** An entry that repeats the serialization of an entry visited before it is
    gone after the pass. *)
Lemma deduplicate_deletes ms t k e :
  well_formed ms ->
  t <> Archived ->
  own_get (tier_get ms t) k = Some e ->
  duplicate_of (visited_before ms t k) (k, e) = true ->
  own_get (tier_get (_deduplicateContexts ms) t) k = None.
Proof.
  intros W NA H Dup. rewrite deduplicate_spec by assumption.
  destruct (in_front_split _ _ _ H) as [rest R].
  pose proof (W t) as D. rewrite R in D. unfold visited_before in Dup.
  destruct t; simpl in R, Dup |- *; try tauto;
    rewrite R; now apply keep_first_duplicate.
Qed.

End StoreThenDeduplicate.

(** C10 (a store does not guarantee retrievability).  [storeContext] inserts
    the entry and runs the maintenance pass.  If, when the deduplication of
    that pass starts, the new entry sits in its tier (hot, warm or cold)
    behind an entry with the same serialization (an entry of a tier visited
    earlier, or one listed ahead of it in its own tier by [Object.entries]:
    array indices in ascending order, then the other names in insertion
    order), the new entry is deleted before [storeContext] returns; if
    moreover no other tier held the key and the key is not a member of
    [Object.prototype], a retrieval of the key right after the store returns
    [null].  This is stated for a store that holds no property [__proto__]
    before the call.  Such states exist: there are
    a store that does not hold the key and a value other than [null], which
    stored under the key in the empty store is retrieved, such that after
    storing the value under the key no tier holds the key and its retrieval
    returns [null]. *)
Theorem store_may_delete :
  (forall (ms : MemoryStore) (now : Z) (k : string) (v : jsvalue) (options : Options.t),
      let t := target options in
      let m := tiering now (inserted now k v options ms) in
      let e := new_entry now k v options in
      let ms' := storeContext now k v options ms in
      well_formed ms ->
      plain_store ms = true ->
      t <> Archived ->
      own_get (tier_get m t) k = Some e ->
      duplicate_of (visited_before m t k) (k, e) = true ->
      own_get (tier_get ms' t) k = None /\
      ((forall t', t' <> t -> holds ms t' k = false) ->
       inherited k = false ->
       forall now', retrieveContext now' k ms' = (Normal null, ms'))) /\
  (exists (ms : MemoryStore) (now now' : Z) (k : string) (v : jsvalue),
      well_formed ms /\
      plain_store ms = true /\
      resolvable ms k = false /\
      inherited k = false /\
      v <> null /\
      fst (retrieveContext now' k (storeContext now k v Options.default empty_store))
      = Normal v /\
      resolvable (storeContext now k v Options.default ms) k = false /\
      fst (retrieveContext now' k (storeContext now k v Options.default ms)) = Normal null).
Proof.
  split.
  - intros ms now k v options t m e ms' W _ NA H Dup.
    assert (W1 : well_formed m)
      by (apply well_formed_tiering; now apply well_formed_inserted).
    assert (Gone : own_get (tier_get ms' t) k = None).
    { subst ms'. rewrite storeContext_unfold. now apply deduplicate_deletes with (e := e). }
    split; [assumption|].
    intros Other P now'. apply retrieve_not_found. intro t'.
    apply get_Undefined. split; [|assumption].
    destruct (tier_eqb t' t) eqn:E.
    { apply tier_eqb_eq in E. now subst t'. }
    assert (N : t' <> t) by (intro X; subst t'; destruct t; discriminate).
    destruct (own_get (tier_get ms' t') k) as [e1|] eqn:E1; [|reflexivity].
    exfalso. subst ms'. rewrite storeContext_unfold in E1.
    apply deduplicate_own_get in E1; [|assumption].
    destruct (staged_origin now k v options ms t' k e1 W E1) as [(_ & _ & X)|(t0 & T0 & K)].
    + now apply N.
    + destruct T0 as [->|(-> & ->)].
      * pose proof (Other t' N) as O. apply has_own_false in O.
        rewrite O in K. discriminate.
      * destruct (tier_eqb Hot t) eqn:EH.
        -- apply tier_eqb_eq in EH.
           assert (M := H). rewrite <- EH in M.
           destruct (tiering_spec now _ (well_formed_inserted now k v options ms W))
             as (_ & _ & Hh & Hw).
           simpl in E1. rewrite Hw in E1.
           change (hot (inserted now k v options ms))
             with (tier_get (inserted now k v options ms) Hot) in E1.
           pose proof (inserted_same now k v options ms) as I.
           fold t in I. rewrite <- EH in I. rewrite I in E1.
           fold e in E1. unfold e in E1 at 1. rewrite new_entry_fresh in E1.
           change (warm (inserted now k v options ms))
             with (tier_get (inserted now k v options ms) Warm) in E1.
           rewrite inserted_other in E1 by (left; fold t; rewrite <- EH; discriminate).
           pose proof (Other Warm N) as O. apply has_own_false in O.
           rewrite O in E1. discriminate.
        -- assert (NH : Hot <> t) by (intro X; rewrite <- X in EH; discriminate).
           pose proof (Other Hot NH) as O. apply has_own_false in O.
           rewrite O in K. discriminate.
  - exists (storeContext 1 "k0" (VData (JObj [("a", JNum 1)])) Options.default empty_store).
    exists 2%Z, 3%Z, "k1", (VData (JObj [("a", JNum 1)])).
    split; [apply well_formed_store; exact well_formed_empty|].
    repeat split; try reflexivity. discriminate.
Qed.

Lemma store_may_delete_witness :
  let v := VData (JObj [("a", JNum 1)]) in
  let ms := storeContext 1 "k0" v Options.default empty_store in
  well_formed ms /\
  plain_store ms = true /\
  own_get (hot (storeContext 2 "k1" v Options.default ms)) "k1" = None /\
  retrieveContext 3 "k1" (storeContext 2 "k1" v Options.default ms)
  = (Normal null, storeContext 2 "k1" v Options.default ms).
Proof.
  intros v ms.
  assert (W : well_formed ms) by (apply well_formed_store; exact well_formed_empty).
  split; [exact W|]. split; [reflexivity|].
  destruct (proj1 store_may_delete ms 2%Z "k1" v Options.default W eq_refl) as (G & R).
  - discriminate.
  - reflexivity.
  - reflexivity.
  - split; [exact G|].
    apply R; [intros [] N; try reflexivity; now elim N|reflexivity].
Defined.

(** C10 as the specification words it does not hold.  Within a tier the
    deduplication follows the enumeration order of the object, not the
    insertion order: with the value stored in hot under [b], storing it
    under the array index [1] puts the new entry ahead of the one inserted
    before it; the new entry is kept and retrieved, and the earlier one is
    deleted.  And the order that counts is the one the deduplication finds,
    after the tiering loop of the same pass: with the value in a stale hot
    entry, storing it in hot under a second key moves the old entry to warm,
    behind the new one; again the new entry is kept and the old one
    deleted. *)
Lemma store_keeps_the_later_insertion :
  let v := VData (JObj [("a", JNum 1)]) in
  let ms := storeContext 1 "b" v Options.default empty_store in
  let ms' := storeContext 2 "1" v Options.default ms in
  let old := storeContext 0 "a" v Options.default empty_store in
  let old' := storeContext 90000000 "k" v Options.default old in
  (keys (hot ms) = ["b"] /\
   own_get (hot ms) "b" = Some (new_entry 1 "b" v Options.default) /\
   serialization ("b", new_entry 1 "b" v Options.default)
   = serialization ("1", new_entry 2 "1" v Options.default)) /\
  (keys (hot ms') = ["1"] /\
   own_get (hot ms') "1" = Some (new_entry 2 "1" v Options.default) /\
   resolvable ms' "b" = false) /\
  (fst (retrieveContext 3 "1" ms') = Normal v /\
   fst (retrieveContext 3 "b" ms') = Normal null) /\
  (keys (hot old) = ["a"] /\
   keys (hot old') = ["k"] /\
   resolvable old' "a" = false /\
   fst (retrieveContext 90000001 "k" old') = Normal v).
Proof.
  vm_compute. repeat split.
Qed.

(** ** Two stores of one value *)

Section TwoStores.

Local Open Scope list_scope.

Lemma occurrences_zero s l p :
  occurrences s l = 0 -> In p l -> serialization p <> s.
Proof.
  unfold occurrences. intros Z I E.
  assert (F : In p (filter (fun q => String.eqb s (serialization q)) l)).
  { apply filter_In. split; [assumption|]. subst s. apply String.eqb_refl. }
  destruct (filter _ l); [contradiction|discriminate].
Qed.

Lemma occurrences_pos s l p :
  In p l -> serialization p = s -> 1 <= occurrences s l.
Proof.
  intros I E. destruct (occurrences s l) eqn:O; [|lia].
  exfalso. now apply (occurrences_zero s l p).
Qed.

Lemma occurrences_two s l p q :
  In p l -> In q l -> p <> q -> serialization p = s -> serialization q = s ->
  2 <= occurrences s l.
Proof.
  intros Ip Iq N Ep Eq.
  destruct (in_split _ _ Ip) as (l1 & l2 & ->).
  rewrite occurrences_app, occurrences_cons, Ep, String.eqb_refl.
  apply in_app_or in Iq. destruct Iq as [Iq|[Iq|Iq]].
  - pose proof (occurrences_pos s l1 q Iq Eq). lia.
  - congruence.
  - pose proof (occurrences_pos s l2 q Iq Eq). lia.
Qed.

Lemma occurrences_ex s l :
  1 <= occurrences s l -> exists p, In p l /\ serialization p = s.
Proof.
  unfold occurrences. intro L.
  destruct (filter (fun q => String.eqb s (serialization q)) l) as [|p f] eqn:F;
    [simpl in L; lia|].
  assert (I : In p (filter (fun q => String.eqb s (serialization q)) l))
    by (rewrite F; now left).
  apply filter_In in I. destruct I as [I E]. apply String.eqb_eq in E.
  exists p. auto.
Qed.

Lemma In_dedup_order ms p :
  In p (dedup_order ms) <-> exists t, t <> Archived /\ In p (tier_get ms t).
Proof.
  unfold dedup_order. rewrite !in_app_iff. split.
  - intros [I|[I|I]]; [exists Hot|exists Warm|exists Cold]; split;
      (discriminate || assumption).
  - intros ([] & N & I); simpl in I; tauto.
Qed.

Lemma resolvable_true ms k :
  resolvable ms k = true <-> exists t e, own_get (tier_get ms t) k = Some e.
Proof.
  split.
  - intro R. destruct (holders ms k) as [|t l] eqn:H.
    + apply resolvable_holders in H. congruence.
    + assert (I : In t (holders ms k)) by (rewrite H; now left).
      apply filter_In in I. destruct I as [_ I]. apply has_own_true in I.
      destruct I as [e I]. eauto.
  - intros (t & e & H). destruct (resolvable ms k) eqn:R; [reflexivity|].
    rewrite resolvable_false in R. rewrite R in H. discriminate.
Qed.

Lemma store_origin now k v options ms t k' e :
  well_formed ms ->
  own_get (tier_get (storeContext now k v options ms) t) k' = Some e ->
  (k' = k /\ e = new_entry now k v options /\ t = target options) \/
  (exists t', (t' = t \/ (t = Warm /\ t' = Hot)) /\ own_get (tier_get ms t') k' = Some e).
Proof.
  intros W H. rewrite storeContext_unfold in H.
  apply deduplicate_own_get in H.
  - now apply staged_origin in H.
  - apply well_formed_tiering. now apply well_formed_inserted.
Qed.

Lemma origin_tier (t t' : tier) :
  t' = t \/ (t = Warm /\ t' = Hot) -> t <> Archived -> t' <> Archived.
Proof. intros [->|(_ & ->)] N; [assumption|discriminate]. Qed.

Lemma origin_tier_back (t t' : tier) :
  t' = t \/ (t = Warm /\ t' = Hot) -> t' <> Archived -> t <> Archived.
Proof. intros [->|(-> & _)] N; [assumption|discriminate]. Qed.

(** From a store where no hot, warm or cold entry serializes as [v] does and
    no tier holds [k1] or [k2], storing [v] under [k1] and then under [k2],
    both outside the archived tier, leaves exactly one of the two keys
    resolvable. *)
Lemma two_stores_one_survivor ms now1 now2 k1 k2 v o1 o2 :
  well_formed ms ->
  k1 <> k2 ->
  target o1 <> Archived ->
  target o2 <> Archived ->
  resolvable ms k1 = false ->
  resolvable ms k2 = false ->
  occurrences (JSON_stringify v) (dedup_order ms) = 0 ->
  let ms2 := storeContext now2 k2 v o2 (storeContext now1 k1 v o1 ms) in
  xorb (resolvable ms2 k1) (resolvable ms2 k2) = true.
Proof.
  intros W N12 T1 T2 R1 R2 Z ms2.
  set (s := JSON_stringify v) in *.
  set (ms1 := storeContext now1 k1 v o1 ms) in *.
  rewrite resolvable_false in R1, R2.
  assert (W1 : well_formed ms1) by now apply well_formed_store.
  assert (Z0 : forall t k e, t <> Archived -> own_get (tier_get ms t) k = Some e ->
                 serialization (k, e) <> s).
  { intros t k e NA H. apply (occurrences_zero s (dedup_order ms)); [assumption|].
    apply In_dedup_order. exists t. split; [assumption|]. now apply own_get_In. }
  (* the store after the first call *)
  assert (B2 : forall t k e, t <> Archived -> own_get (tier_get ms1 t) k = Some e ->
                 serialization (k, e) = s -> k = k1).
  { intros t k e NA H E.
    destruct (store_origin now1 k1 v o1 ms t k e W H) as [(-> & _)|(t' & O & K)];
      [reflexivity|].
    exfalso. apply (Z0 t' k e); [now apply (origin_tier t)|assumption|assumption]. }
  assert (B3 : forall t, own_get (tier_get ms1 t) k2 = None).
  { intro t. destruct (own_get (tier_get ms1 t) k2) as [e|] eqn:H; [|reflexivity].
    destruct (store_origin now1 k1 v o1 ms t k2 e W H) as [(X & _)|(t' & _ & K)].
    - congruence.
    - rewrite R2 in K. discriminate. }
  assert (B4 : forall t e, own_get (tier_get ms1 t) k1 = Some e ->
                 t <> Archived /\ serialization (k1, e) = s).
  { intros t e H.
    destruct (store_origin now1 k1 v o1 ms t k1 e W H) as [(_ & -> & ->)|(t' & _ & K)].
    - split; [assumption|reflexivity].
    - rewrite R1 in K. discriminate. }
  (* the store when the deduplication of the second call starts *)
  set (m2 := tiering now2 (inserted now2 k2 v o2 ms1)).
  assert (W2 : well_formed m2)
    by (apply well_formed_tiering; now apply well_formed_inserted).
  assert (E2 : ms2 = _deduplicateContexts m2) by reflexivity.
  assert (C2 : forall t k e, t <> Archived -> own_get (tier_get m2 t) k = Some e ->
                 serialization (k, e) = s -> k = k1 \/ k = k2).
  { intros t k e NA H E.
    destruct (staged_origin now2 k2 v o2 ms1 t k e W1 H) as [(-> & _)|(t' & O & K)];
      [now right|].
    left. apply (B2 t' k e); [now apply (origin_tier t)|assumption|assumption]. }
  assert (C3 : own_get (tier_get m2 (target o2)) k2 = Some (new_entry now2 k2 v o2)).
  { apply staged_new; [assumption|]. intros _. apply (B3 Hot). }
  assert (C5 : forall t k e, k = k1 \/ k = k2 -> own_get (tier_get m2 t) k = Some e ->
                 t <> Archived /\ serialization (k, e) = s).
  { intros t k e [->| ->] H.
    - destruct (staged_origin now2 k2 v o2 ms1 t k1 e W1 H) as [(X & _)|(t' & O & K)];
        [congruence|].
      destruct (B4 t' e K) as (NA & E). split; [|assumption].
      now apply (origin_tier_back t t').
    - destruct (staged_origin now2 k2 v o2 ms1 t k2 e W1 H)
        as [(_ & -> & ->)|(t' & _ & K)].
      + split; [assumption|reflexivity].
      + rewrite B3 in K. discriminate. }
  assert (One : occurrences s (dedup_order ms2) = 1).
  { rewrite E2, deduplicate_order, occurrences_keep_first by assumption. cbn [existsb].
    assert (1 <= occurrences s (dedup_order m2)).
    { apply (occurrences_pos s _ (k2, new_entry now2 k2 v o2)); [|reflexivity].
      apply In_dedup_order. exists (target o2). split; [assumption|].
      now apply own_get_In. }
    lia. }
  assert (W3 : well_formed ms2) by (rewrite E2; now apply well_formed_deduplicate).
  assert (Sub : forall t k e, own_get (tier_get ms2 t) k = Some e ->
                  own_get (tier_get m2 t) k = Some e).
  { intros t k e H. rewrite E2 in H. now apply deduplicate_own_get in H. }
  destruct (resolvable ms2 k1) eqn:Q1, (resolvable ms2 k2) eqn:Q2; try reflexivity; exfalso.
  - apply resolvable_true in Q1, Q2.
    destruct Q1 as (ta & ea & Ha). destruct Q2 as (tb & eb & Hb).
    destruct (C5 ta k1 ea (or_introl eq_refl) (Sub _ _ _ Ha)) as (Na & Ea).
    destruct (C5 tb k2 eb (or_intror eq_refl) (Sub _ _ _ Hb)) as (Nb & Eb).
    assert (2 <= occurrences s (dedup_order ms2)); [|lia].
    apply (occurrences_two s _ (k1, ea) (k2, eb)); try assumption.
    + apply In_dedup_order. exists ta. split; [assumption|]. now apply own_get_In.
    + apply In_dedup_order. exists tb. split; [assumption|]. now apply own_get_In.
    + congruence.
  - destruct (occurrences_ex s (dedup_order ms2)) as ([k e] & I & E); [lia|].
    apply In_dedup_order in I. destruct I as (t & NA & I).
    apply In_own_get in I; [|apply W3].
    destruct (C2 t k e NA (Sub _ _ _ I) E) as [-> | ->].
    + rewrite resolvable_false in Q1. rewrite Q1 in I. discriminate.
    + rewrite resolvable_false in Q2. rewrite Q2 in I. discriminate.
Qed.

End TwoStores.

(** C6 (deduplication), as the code has it.  The pass visits the hot, warm
    and cold tiers in that order, each in the enumeration order of its
    object; it keeps an entry exactly when no entry visited before it has the
    same serialization, deletes the others, and leaves the archived tier as
    it is.  Consequently, from a store in which no hot, warm or cold entry
    has the serialization of [v] and no tier holds [k1] or [k2], storing [v]
    under the two different keys, each into hot, warm or cold, leaves exactly
    one of the two keys resolvable. *)
Theorem deduplication :
  (forall ms : MemoryStore,
      well_formed ms ->
      _deduplicateContexts ms
      = mkStore (keep_first [] (hot ms))
                (keep_first (hot ms) (warm ms))
                (keep_first (hot ms ++ warm ms)%list (cold ms))
                (archived ms)) /\
  (forall (earlier l1 l2 : object) (p : string * contextEntry),
      keep_first earlier (l1 ++ p :: l2)%list
      = (keep_first earlier l1
         ++ (if duplicate_of (earlier ++ l1) p then [] else [p])
         ++ keep_first (earlier ++ l1 ++ [p]) l2)%list) /\
  (forall (ms : MemoryStore) (now1 now2 : Z) (k1 k2 : string) (v : jsvalue)
          (o1 o2 : Options.t),
      well_formed ms ->
      k1 <> k2 ->
      target o1 <> Archived ->
      target o2 <> Archived ->
      resolvable ms k1 = false ->
      resolvable ms k2 = false ->
      occurrences (JSON_stringify v) (dedup_order ms) = 0 ->
      xorb (resolvable (storeContext now2 k2 v o2 (storeContext now1 k1 v o1 ms)) k1)
           (resolvable (storeContext now2 k2 v o2 (storeContext now1 k1 v o1 ms)) k2)
      = true).
Proof.
  split; [|split].
  - apply deduplicate_spec.
  - intros earlier l1 l2 p. rewrite keep_first_app. simpl.
    now rewrite <- !app_assoc.
  - intros. now apply two_stores_one_survivor.
Qed.

Lemma deduplication_witness :
  let v := VData (JObj [("a", JNum 1)]) in
  let ms2 :=
    storeContext 2 "k2" v (Options.mk (Some Warm) None)
      (storeContext 1 "k1" v (Options.mk (Some Cold) None) empty_store) in
  well_formed empty_store /\
  xorb (resolvable ms2 "k1") (resolvable ms2 "k2") = true.
Proof.
  intros v ms2. split; [exact well_formed_empty|].
  apply (proj2 (proj2 deduplication)); try reflexivity; try discriminate.
  exact well_formed_empty.
Defined.

(** C6 as the specification words it does not hold.  With the value already
    stored under a third key, both later stores of the same value are deleted
    by the passes they trigger, and neither of the two keys is resolvable.
    With the second key already held by the archived tier, the second store
    is deleted but both keys stay resolvable.  And within a tier the pass
    follows the enumeration order of the object, not the insertion order:
    storing the value under [b] and then under the array index [1] keeps the
    entry stored last. *)
Lemma deduplication_deletes_both :
  let v := VData (JObj [("a", JNum 1)]) in
  let ms := storeContext 1 "k0" v Options.default empty_store in
  let ms2 :=
    storeContext 3 "k2" v (Options.mk (Some Warm) None)
      (storeContext 2 "k1" v Options.default ms) in
  let ms' := storeContext 1 "k2" (VData (JNum 0)) (Options.mk (Some Archived) None)
               empty_store in
  let ms2' :=
    storeContext 3 "k2" v Options.default (storeContext 2 "k1" v Options.default ms') in
  let ms3 :=
    storeContext 2 "1" v Options.default (storeContext 1 "b" v Options.default empty_store) in
  (resolvable ms2 "k1" = false /\
   resolvable ms2 "k2" = false /\
   fst (retrieveContext 4 "k1" ms2) = Normal null /\
   fst (retrieveContext 4 "k2" ms2) = Normal null /\
   keys (hot ms2) = ["k0"]) /\
  (resolvable ms2' "k1" = true /\
   resolvable ms2' "k2" = true /\
   holders ms2' "k2" = [Archived]) /\
  (resolvable ms3 "b" = false /\ keys (hot ms3) = ["1"]).
Proof.
  vm_compute. repeat split.
Qed.

(** * Further properties of the service and of its collaborators *)

(** ** Substrings *)

Section Substrings.

Lemma append_assoc (a b c : string) : (a ++ b) ++ c = a ++ (b ++ c).
Proof. induction a as [|x a IH]; simpl; [reflexivity|]. now rewrite IH. Qed.

Lemma append_empty_r (a : string) : a ++ EmptyString = a.
Proof. induction a as [|x a IH]; simpl; [reflexivity|]. now rewrite IH. Qed.

Lemma startsWith_spec s t : startsWith s t = true <-> exists b, s = t ++ b.
Proof.
  revert s. induction t as [|c t IH]; intro s; simpl.
  - split; [intros _; now exists s|reflexivity].
  - destruct s as [|d s].
    + split; [discriminate|]. intros [b H]. discriminate.
    + rewrite andb_true_iff, IH. split.
      * intros [E [b ->]]. apply Ascii.eqb_eq in E. subst d. now exists b.
      * intros [b [= -> ->]]. split; [apply Ascii.eqb_refl|now exists b].
Qed.

(** [includes] finds exactly the substrings. *)
Lemma includes_spec s t : includes s t = true <-> exists a b, s = a ++ t ++ b.
Proof.
  induction s as [|d s IH].
  - simpl. rewrite orb_false_r, startsWith_spec. split.
    + intros [b H]. now exists EmptyString, b.
    + intros (a & b & H). destruct a; [now exists b|discriminate].
  - cbn [includes]. rewrite orb_true_iff, startsWith_spec, IH. split.
    + intros [[b H]|(a & b & H)].
      * now exists EmptyString, b.
      * exists (String d a), b. simpl. now rewrite H.
    + intros (a & b & H). destruct a as [|x a].
      * left. now exists b.
      * right. injection H as -> ->. now exists a, b.
Qed.

Lemma includes_middle a t b : includes (a ++ t ++ b) t = true.
Proof. apply includes_spec. now exists a, b. Qed.

Lemma includes_empty s : includes s EmptyString = true.
Proof. apply includes_spec. now exists EmptyString, s. Qed.

Lemma includes_suffix a t : includes (a ++ t) t = true.
Proof.
  apply includes_spec. exists a, EmptyString. now rewrite append_empty_r.
Qed.

End Substrings.

(** ** The order of the chronological search *)

Section SortHits.

Local Open Scope list_scope.

Lemma insert_hit_perm h l : Permutation (insert_hit h l) (h :: l).
Proof.
  induction l as [|h' l IH]; simpl; [apply Permutation_refl|].
  destruct (Z.ltb _ _); [|apply Permutation_refl].
  etransitivity; [apply perm_skip, IH|apply perm_swap].
Qed.

Lemma sort_hits_perm l : Permutation (sort_hits l) l.
Proof.
  induction l as [|h l IH]; simpl; [constructor|].
  etransitivity; [apply insert_hit_perm|now apply perm_skip].
Qed.

Lemma insert_hit_sorted h l :
  StronglySorted newer_first l -> StronglySorted newer_first (insert_hit h l).
Proof.
  induction 1 as [|h' l S IH F]; simpl.
  - constructor; constructor.
  - destruct (Z.ltb_spec (timestamp (Hit.metadata h)) (timestamp (Hit.metadata h'))) as [L|L].
    + constructor; [assumption|].
      apply Forall_forall. intros x I.
      apply (Permutation_in _ (insert_hit_perm h l)) in I.
      destruct I as [<-|I]; [unfold newer_first; lia|].
      revert x I. now apply Forall_forall.
    + constructor; [now constructor|].
      constructor; [exact L|].
      eapply Forall_impl; [|exact F]. intros a H. unfold newer_first in *. lia.
Qed.

Lemma sort_hits_sorted l : StronglySorted newer_first (sort_hits l).
Proof.
  induction l as [|h l IH]; simpl; [constructor|]. now apply insert_hit_sorted.
Qed.

Lemma insert_hit_stable z h l :
  filter (fun x => Z.eqb (timestamp (Hit.metadata x)) z) (insert_hit h l)
  = filter (fun x => Z.eqb (timestamp (Hit.metadata x)) z) (h :: l).
Proof.
  induction l as [|h' l IH]; [reflexivity|].
  cbn [insert_hit].
  destruct (Z.ltb_spec (timestamp (Hit.metadata h)) (timestamp (Hit.metadata h'))) as [L|L];
    [|reflexivity].
  cbn [filter] in *. rewrite IH.
  destruct (Z.eqb_spec (timestamp (Hit.metadata h)) z) as [E|N];
    destruct (Z.eqb_spec (timestamp (Hit.metadata h')) z) as [E'|N']; try reflexivity.
  lia.
Qed.

(** Hits of one timestamp keep the order of the scan. *)
Lemma sort_hits_stable z l :
  filter (fun x => Z.eqb (timestamp (Hit.metadata x)) z) (sort_hits l)
  = filter (fun x => Z.eqb (timestamp (Hit.metadata x)) z) l.
Proof.
  induction l as [|h l IH]; [reflexivity|].
  cbn [sort_hits]. rewrite insert_hit_stable. cbn [filter]. now rewrite IH.
Qed.

End SortHits.

(** ** Entries carry the name they are stored under *)

Section Keyed.

Lemma keyed_empty : keyed empty_store.
Proof. intros [] k e H; discriminate. Qed.

Lemma keyed_optimize now ms : well_formed ms -> keyed ms -> keyed (_optimizeMemory now ms).
Proof.
  intros W K t k e H.
  destruct (optimize_origin now ms t k e W H) as [O|(_ & O & _)]; [now apply (K t)|].
  now apply (K Hot).
Qed.

Lemma keyed_store now k v options ms :
  well_formed ms -> keyed ms -> keyed (storeContext now k v options ms).
Proof.
  intros W K t k' e H.
  destruct (store_origin now k v options ms t k' e W H) as [(-> & -> & _)|(t' & _ & O)].
  - reflexivity.
  - now apply (K t').
Qed.

Lemma keyed_retrieved now name t e ms :
  own_get (tier_get ms t) name = Some e ->
  keyed ms -> keyed (retrieved now name t e ms).
Proof.
  intros H K t0 k e0 H0.
  destruct (String.eqb_spec k name) as [->|N].
  2:{ rewrite retrieved_other in H0 by assumption. now apply (K t0). }
  assert (KE : key (touch now e) = name) by (simpl; now apply (K t)).
  destruct (tier_eqb t0 t) eqn:E.
  - apply tier_eqb_eq in E. subst t0.
    destruct (Nat.ltb 10 (S (accessCount (metadata e))) && negb (tier_eqb t Hot))%bool eqn:C.
    + destruct (retrieved_moves now name t e ms H C) as (t1 & _ & _ & M0 & _).
      rewrite M0, own_get_delete_same in H0. discriminate.
    + destruct (retrieved_stays now name t e ms H C) as (S1 & _).
      rewrite S1 in H0. now injection H0 as <-.
  - assert (N0 : t0 <> t) by (intro X; subst t0; destruct t; discriminate).
    destruct (Nat.ltb 10 (S (accessCount (metadata e))) && negb (tier_eqb t Hot))%bool eqn:C.
    + destruct (retrieved_moves now name t e ms H C) as (t1 & _ & M1 & _ & Mo).
      destruct (tier_eqb t0 t1) eqn:E1.
      * apply tier_eqb_eq in E1. subst t0.
        rewrite M1, own_get_set_same in H0. now injection H0 as <-.
      * assert (N1 : t0 <> t1) by (intro X; subst t0; destruct t1; discriminate).
        rewrite Mo in H0 by assumption. now apply (K t0).
    + destruct (retrieved_stays now name t e ms H C) as (_ & So).
      rewrite So in H0 by assumption. now apply (K t0).
Qed.

Lemma keyed_retrieve now key ms : keyed ms -> keyed (snd (retrieveContext now key ms)).
Proof.
  intro K.
  destruct (retrieve_cases now key ms) as [(t & e & F & R)|[(_ & R)|(_ & R)]];
    rewrite R; simpl; try assumption.
  apply keyed_retrieved; [apply F|assumption].
Qed.

Lemma keyed_call c ms :
  well_formed ms -> keyed ms -> keyed (run_memory_call c ms).
Proof.
  intros W K. destruct c; simpl.
  - now apply keyed_store.
  - now apply keyed_retrieve.
  - now apply keyed_optimize.
Qed.

Lemma run_call_keyed c this :
  well_formed (memoryStore this) /\ keyed (memoryStore this) ->
  well_formed (memoryStore (snd (run_call c this))) /\
  keyed (memoryStore (snd (run_call c this))).
Proof.
  intros [W K]. destruct c as [now rnd scopeConfig|now|c]; cbn [run_call snd].
  - now split.
  - unfold popScope. destruct (scopeStack this) as [|first rest]; [now split|].
    cbn [snd _archiveScope memoryStore]. split.
    + now apply well_formed_store.
    + now apply keyed_store.
  - split; [now apply well_formed_call|now apply keyed_call].
Qed.

Lemma run_keyed calls : forall this,
  well_formed (memoryStore this) /\ keyed (memoryStore this) ->
  well_formed (memoryStore (snd (run calls this))) /\
  keyed (memoryStore (snd (run calls this))).
Proof.
  induction calls as [|c calls IH]; intros this I; [exact I|].
  cbn [run snd]. apply IH. now apply run_call_keyed.
Qed.

(** X1.  In every state reached from a fresh service by calls that store
    nothing under [__proto__], an entry found under a property name in any
    tier has that name in its [key] field: stores, promotions, demotions and
    deduplication never file an entry under another name. *)
Theorem entries_carry_their_key :
  forall (calls : list call) (t : tier) (k : string) (e : contextEntry),
    forallb plain_call calls = true ->
    own_get (tier_get (memoryStore (snd (run calls init))) t) k = Some e ->
    key e = k.
Proof.
  intros calls t k e _ H.
  destruct (run_keyed calls init) as [_ K].
  - split; [exact well_formed_empty|exact keyed_empty].
  - now apply (K t).
Qed.

Lemma entries_carry_their_key_witness :
  let calls := [Memory (Store 1 "k1" (VData (JNum 1)) (Options.mk (Some Cold) None));
                Memory (Retrieve 2 "k1")] in
  exists e,
    own_get (cold (memoryStore (snd (run calls init)))) "k1" = Some e /\ key e = "k1".
Proof.
  intro calls. eexists. split; [reflexivity|].
  apply (entries_carry_their_key calls Cold); reflexivity.
Defined.

End Keyed.

(** ** The chronological search *)

Section Chronological.

Local Open Scope list_scope.

Lemma In_tier_hits term t o h :
  In h (tier_hits term t o) <->
  exists k e, In (k, e) o /\ includes k term = true /\ h = hit_of t e.
Proof.
  unfold tier_hits. rewrite in_map_iff. split.
  - intros ([k e] & <- & I). apply filter_In in I. destruct I as [I M].
    exists k, e. auto.
  - intros (k & e & I & M & ->). exists (k, e). split; [reflexivity|].
    apply filter_In. auto.
Qed.

Lemma In_scan_hits term ms h :
  In h (scan_hits term ms) <->
  exists t k e, In (k, e) (tier_get ms t) /\ includes k term = true /\ h = hit_of t e.
Proof.
  unfold scan_hits. rewrite in_flat_map. split.
  - intros (t & _ & I). apply In_tier_hits in I. destruct I as (k & e & I).
    now exists t, k, e.
  - intros (t & k & e & I). exists t. split.
    + destruct t; simpl; tauto.
    + apply In_tier_hits. now exists k, e.
Qed.

Lemma searchContexts_chronological query this :
  Query.searchType query = None \/ Query.searchType query = Some "chronological" ->
  searchContexts query this
  = map ContextHit
      (sort_hits (scan_hits (search_string (Query.term query)) (memoryStore this))).
Proof.
  intros [E|E]; unfold searchContexts; rewrite E; reflexivity.
Qed.

(** X2.  In a state reached from a fresh service by calls that store
    nothing under [__proto__], a search that is
    chronological (by name or by default) returns context hits only; they are
    ordered by creation time, newest first, hits of equal time in scan order
    (hot, warm, cold, archived, each tier in enumeration order); there is one
    hit for every entry of every tier whose name contains the term and no
    other hit, and every hit shows the name, value, metadata and tier of its
    entry. *)
Theorem chronological_search :
  forall (calls : list call) (query : Query.t),
    forallb plain_call calls = true ->
    Query.searchType query = None \/ Query.searchType query = Some "chronological" ->
    let this := snd (run calls init) in
    let term := search_string (Query.term query) in
    exists hits,
      searchContexts query this = map ContextHit hits /\
      StronglySorted newer_first hits /\
      Permutation hits (scan_hits term (memoryStore this)) /\
      (forall z,
          filter (fun h => Z.eqb (timestamp (Hit.metadata h)) z) hits
          = filter (fun h => Z.eqb (timestamp (Hit.metadata h)) z)
              (scan_hits term (memoryStore this))) /\
      (forall h,
          In h hits <->
          exists t k e,
            own_get (tier_get (memoryStore this) t) k = Some e /\
            includes k term = true /\
            h = Hit.mk k (value e) (metadata e) t) /\
      (forall h, In h hits -> includes (Hit.key h) term = true).
Proof.
  intros calls query _ T this term.
  destruct (run_keyed calls init) as [W K].
  { split; [exact well_formed_empty|exact keyed_empty]. }
  fold this in W, K.
  set (hits := sort_hits (scan_hits term (memoryStore this))).
  assert (P : Permutation hits (scan_hits term (memoryStore this)))
    by apply sort_hits_perm.
  assert (I : forall h,
             In h hits <->
             exists t k e,
               own_get (tier_get (memoryStore this) t) k = Some e /\
               includes k term = true /\
               h = Hit.mk k (value e) (metadata e) t).
  { intro h. split.
    - intro H. apply (Permutation_in _ P) in H. apply In_scan_hits in H.
      destruct H as (t & k & e & H & M & ->).
      apply In_own_get in H; [|apply W].
      exists t, k, e. repeat split; try assumption.
      unfold hit_of. now rewrite (K t k e H).
    - intros (t & k & e & H & M & ->).
      apply (Permutation_in _ (Permutation_sym P)). apply In_scan_hits.
      exists t, k, e. repeat split; try assumption.
      + now apply own_get_In.
      + unfold hit_of. now rewrite (K t k e H). }
  exists hits. repeat split.
  - now apply searchContexts_chronological.
  - apply sort_hits_sorted.
  - exact P.
  - intro z. apply sort_hits_stable.
  - apply I.
  - apply I.
  - intros h H. apply I in H. destruct H as (t & k & e & _ & M & ->). exact M.
Qed.

Lemma chronological_search_witness :
  let calls :=
    [Memory (Store 20 "test1" (VData (JNum 1)) (Options.mk (Some Cold) None));
     Memory (Store 10 "other" (VData (JNum 3)) Options.default);
     Memory (Store 30 "test2" (VData (JNum 2)) Options.default)] in
  let query := Query.mk None (Some "test") in
  exists hits,
    searchContexts query (snd (run calls init)) = map ContextHit hits /\
    map Hit.key hits = ["test2"; "test1"] /\
    StronglySorted newer_first hits.
Proof.
  intros calls query.
  destruct (chronological_search calls query eq_refl (or_introl eq_refl))
    as (hits & E & S & _).
  exists hits. split; [exact E|]. split; [|exact S].
  vm_compute in E.
  destruct hits as [|h1 [|h2 [|h3 hits]]]; try discriminate E.
  injection E as <- <-. reflexivity.
Defined.

End Chronological.

(** ** The graph search *)

Section GraphSearch.

Lemma quote_char_unescaped c : unescaped c = true -> quote_char c = String c EmptyString.
Proof.
  unfold unescaped, quote_char. cbv zeta.
  rewrite !andb_true_iff, !negb_true_iff, Nat.leb_le. intros [[E1 E2] L].
  rewrite E1, E2.
  repeat match goal with
         | |- context [Nat.eqb (nat_of_ascii c) ?n] =>
             destruct (Nat.eqb_spec (nat_of_ascii c) n); [lia|]
         end.
  destruct (Nat.ltb_spec (nat_of_ascii c) 32); [lia|reflexivity].
Qed.

Lemma quote_chars_plain s : plain s = true -> quote_chars s = s.
Proof.
  induction s as [|c s IH]; simpl; [reflexivity|].
  rewrite andb_true_iff. intros [U P].
  now rewrite (quote_char_unescaped c U), IH.
Qed.

Lemma plain_app a b : plain (a ++ b) = (plain a && plain b)%bool.
Proof.
  induction a as [|c a IH]; simpl; [reflexivity|]. now rewrite IH, andb_assoc.
Qed.

Lemma plain_uint d : plain (NilEmpty.string_of_uint d) = true.
Proof. induction d; simpl; try assumption; reflexivity. Qed.

Lemma plain_dec z : plain (dec z) = true.
Proof.
  unfold dec, NilZero.string_of_int, NilZero.string_of_uint.
  destruct (Z.to_int z) as [d|d]; destruct d; try reflexivity;
    try (apply (plain_uint (Decimal.D0 _))); try (apply (plain_uint (Decimal.D1 _)));
    try (apply (plain_uint (Decimal.D2 _))); try (apply (plain_uint (Decimal.D3 _)));
    try (apply (plain_uint (Decimal.D4 _))); try (apply (plain_uint (Decimal.D5 _)));
    try (apply (plain_uint (Decimal.D6 _))); try (apply (plain_uint (Decimal.D7 _)));
    try (apply (plain_uint (Decimal.D8 _))); try (apply (plain_uint (Decimal.D9 _))).
Qed.

(** An id is written into the serialization as it is when the random suffix
    has no character that needs an escape (the base-36 digits have none). *)
Lemma plain_generated_id now rnd : plain rnd = true -> plain (_generateScopeId now rnd) = true.
Proof.
  intro P. unfold _generateScopeId. rewrite !plain_app, plain_dec, P. reflexivity.
Qed.

Lemma stringify_scope_includes_id (F : scopeInstance) :
  plain (Scope.id F) = true ->
  includes (JSON_stringify (VScope F)) (Scope.id F) = true.
Proof.
  intro P. apply includes_spec.
  destruct F as [i c x t p]. simpl in P. simpl. unfold quote. simpl.
  rewrite (quote_chars_plain i P), !append_assoc.
  exists ("{" ++ chr 34 ++ "id" ++ chr 34 ++ ":" ++ chr 34). eexists.
  simpl. reflexivity.
Qed.

Lemma searchContexts_graph term this :
  searchContexts (Query.mk (Some "graph") term) this
  = _graphSearch (search_string term) (contextGraph this).
Proof. reflexivity. Qed.

Lemma graphSearch_In term g node :
  In node (nodes g) ->
  includes (JSON_stringify (VScope (Node.data node))) term = true ->
  In (GraphHit (Node.id node) (Node.data node)) (_graphSearch term g).
Proof.
  intros I M. unfold _graphSearch. apply in_map_iff. exists node.
  split; [reflexivity|]. apply filter_In. auto.
Qed.

Lemma graphSearch_empty_term g :
  _graphSearch EmptyString g
  = map (fun node => GraphHit (Node.id node) (Node.data node)) (nodes g).
Proof.
  unfold _graphSearch. f_equal.
  apply forallb_filter_id. apply forallb_forall. intros n _. apply includes_empty.
Qed.

(** X3.  The graph search outlives the stack: a scope pushed with an id whose
    random suffix needs no escape is found by a graph search for its id after
    any later calls, pops included, with its id as key and itself as value.
    A graph search for the empty term on a service run from fresh lists
    every scope ever pushed, in push order.  A search of any type other than
    the two known ones returns nothing. *)
Theorem graph_search_finds_pushed_scopes :
  (forall (this : HyperMindService) (now : Z) (rnd : string) (scopeConfig : json)
          (calls : list call),
      plain rnd = true ->
      let F := fst (pushScope now rnd scopeConfig this) in
      let final := snd (run calls (snd (pushScope now rnd scopeConfig this))) in
      In (GraphHit (Scope.id F) F)
         (searchContexts (Query.mk (Some "graph") (Some (Scope.id F))) final)) /\
  (forall calls : list call,
      searchContexts (Query.mk (Some "graph") (Some EmptyString)) (snd (run calls init))
      = map (fun f => GraphHit (Scope.id f) f) (fst (run calls init))) /\
  (forall (searchType : string) (term : option string) (this : HyperMindService),
      searchType <> "chronological" -> searchType <> "graph" ->
      searchContexts (Query.mk (Some searchType) term) this = []).
Proof.
  split; [|split].
  - intros this now rnd scopeConfig calls P F final.
    rewrite searchContexts_graph. cbn [search_string].
    apply (graphSearch_In _ _ (node_of F)).
    + subst final. destruct (run_graph calls (snd (pushScope now rnd scopeConfig this)))
        as (_ & N & _).
      rewrite N. apply in_or_app. left.
      change (contextGraph (snd (pushScope now rnd scopeConfig this)))
        with (_updateContextGraph F (contextGraph this)).
      destruct (updateContextGraph_spec F (contextGraph this)) as (N1 & _).
      rewrite N1. apply in_or_app. right. now left.
    + cbn [node_of Node.data]. apply stringify_scope_includes_id.
      subst F. cbn [pushScope fst Scope.id]. now apply plain_generated_id.
  - intro calls. rewrite searchContexts_graph. cbn [search_string].
    rewrite graphSearch_empty_term.
    destruct (run_graph calls init) as (_ & N & _). rewrite N. simpl.
    rewrite map_map. reflexivity.
  - intros searchType term this N1 N2. unfold searchContexts. cbn [Query.searchType].
    rewrite (proj2 (String.eqb_neq _ _) N1), (proj2 (String.eqb_neq _ _) N2). reflexivity.
Qed.

Lemma graph_search_finds_pushed_scopes_witness :
  let this := snd (pushScope 1000 "k3x9a" (JObj [("name", JStr "parent")]) init) in
  let F := fst (pushScope 1001 "zz01b" (JObj [("name", JStr "child")]) this) in
  let final :=
    snd (run [Pop 1002; Memory (Retrieve 1003 "k")]
           (snd (pushScope 1001 "zz01b" (JObj [("name", JStr "child")]) this))) in
  plain "zz01b" = true /\
  scopeStack final = scopeStack this /\
  In (GraphHit "scope_1001_zz01b" F)
     (searchContexts (Query.mk (Some "graph") (Some "scope_1001_zz01b")) final).
Proof.
  intros this F final. split; [reflexivity|]. split; [reflexivity|].
  apply (proj1 graph_search_finds_pushed_scopes this 1001%Z "zz01b"
           (JObj [("name", JStr "child")]) [Pop 1002; Memory (Retrieve 1003 "k")]).
  reflexivity.
Defined.

End GraphSearch.

(** ** The archived scope in the chronological search *)

Section ArchivedSearch.

Local Open Scope list_scope.

(** X4.  Right after a pop in a state reached from a fresh service, the
    chronological search for the id of the popped scope lists the archived
    scope: a hit in the archived tier under the key [scope_] + id, with the
    scope as value, access count 0 and significance 1.0.  Unlike a
    retrieval, the search is not shadowed by entries of other tiers. *)
Theorem chronological_search_lists_archived_scope :
  forall (calls : list call) (now : Z) (stack : list scopeInstance) (F : scopeInstance),
    let this := snd (run calls init) in
    scopeStack this = stack ++ [F] ->
    In (ContextHit
          (Hit.mk (archiveKey F) (VScope F) (mkMetadata now 0 None 1.0%float) Archived))
       (searchContexts (Query.mk None (Some (Scope.id F))) (snd (popScope now this))).
Proof.
  intros calls now stack F this HS.
  destruct (reachable_well_formed calls) as (W & _ & _). fold this in W.
  rewrite (popScope_top now this stack F HS). cbn [snd].
  rewrite searchContexts_chronological by now left.
  apply in_map. apply (Permutation_in _ (Permutation_sym (sort_hits_perm _))).
  apply In_scan_hits. cbn [memoryStore Query.term search_string].
  exists Archived, (archiveKey F),
    (mkEntry (archiveKey F) (VScope F) (mkMetadata now 0 None 1.0%float)).
  split; [|split; [|reflexivity]].
  - apply own_get_In.
    apply (store_archived now (archiveKey F) (VScope F) (memoryStore this) W).
  - apply includes_suffix.
Qed.

Lemma chronological_search_lists_archived_scope_witness :
  let calls := [Push 1000 "abc" JNull;
                Memory (Store 1001 "scope_scope_1000_abc" (VData (JNum 7)) Options.default)] in
  let F := fst (pushScope 1000 "abc" JNull init) in
  scopeStack (snd (run calls init)) = [] ++ [F] /\
  In (ContextHit
        (Hit.mk "scope_scope_1000_abc" (VScope F) (mkMetadata 1002 0 None 1.0%float) Archived))
     (searchContexts (Query.mk None (Some "scope_1000_abc"))
        (snd (popScope 1002 (snd (run calls init))))).
Proof.
  intros calls F. split; [reflexivity|].
  apply (chronological_search_lists_archived_scope calls 1002 [] F). reflexivity.
Defined.

End ArchivedSearch.

(** ** Store, then retrieve *)

Section RoundTrip.

Local Open Scope list_scope.

Lemma own_get_app (a b : object) k :
  own_get (a ++ b) k = match own_get a k with Some e => Some e | None => own_get b k end.
Proof.
  induction a as [|[k' e'] a IH]; simpl; [reflexivity|].
  destruct (String.eqb k k'); [reflexivity|assumption].
Qed.

Lemma keep_first_kept earlier l1 k e l2 :
  NoDup (keys (l1 ++ (k, e) :: l2)) ->
  duplicate_of (earlier ++ l1) (k, e) = false ->
  own_get (keep_first earlier (l1 ++ (k, e) :: l2)) k = Some e.
Proof.
  intros D Dup. rewrite keep_first_app. simpl. rewrite Dup.
  rewrite own_get_app.
  assert (N : own_get (keep_first earlier l1) k = None).
  { apply own_get_None. intro I.
    unfold keys in D, I. rewrite map_app in D. simpl in D.
    apply NoDup_remove_2 in D. apply D. apply in_or_app. left.
    apply in_map_iff in I. destruct I as ([k0 e0] & E0 & I).
    apply keep_first_In in I. apply in_map_iff. now exists (k0, e0). }
  rewrite N. simpl. now rewrite String.eqb_refl.
Qed.

(** An entry that repeats no serialization visited before it stays. *)
Lemma deduplicate_keeps ms t k e :
  well_formed ms ->
  t <> Archived ->
  own_get (tier_get ms t) k = Some e ->
  duplicate_of (visited_before ms t k) (k, e) = false ->
  own_get (tier_get (_deduplicateContexts ms) t) k = Some e.
Proof.
  intros W NA H Dup. rewrite deduplicate_spec by assumption.
  destruct (in_front_split _ _ _ H) as [rest R].
  pose proof (W t) as D. rewrite R in D. unfold visited_before in Dup.
  destruct t; simpl in R, Dup |- *; try tauto;
    rewrite R; now apply keep_first_kept.
Qed.

Lemma in_front_In o k q : In q (in_front o k) -> In q o /\ fst q <> k.
Proof.
  induction o as [|[k' e'] o IH]; simpl; [tauto|].
  destruct (String.eqb_spec k k') as [->|N]; simpl; [tauto|].
  intros [<-|I].
  - split; [now left|]. simpl. congruence.
  - destruct (IH I). auto.
Qed.

Lemma visited_before_In ms t k q :
  t <> Archived ->
  In q (visited_before ms t k) ->
  exists t', t' <> Archived /\ In q (tier_get ms t') /\ (t' = t -> fst q <> k).
Proof.
  intros NA I. unfold visited_before in I. apply in_app_or in I.
  destruct I as [I|I].
  - destruct t; try tauto; simpl in I.
    + contradiction.
    + exists Hot. repeat split; try discriminate. assumption.
    + apply in_app_or in I. destruct I as [I|I];
        [exists Hot|exists Warm]; repeat split; try discriminate; assumption.
  - apply in_front_In in I. destruct I as [I N]. exists t. auto.
Qed.

Lemma duplicate_of_false l p :
  (forall q, In q l -> serialization q <> serialization p) -> duplicate_of l p = false.
Proof.
  intro H. unfold duplicate_of.
  destruct (existsb _ l) eqn:E; [|reflexivity].
  apply existsb_exists in E. destruct E as (q & I & E).
  apply String.eqb_eq in E. exfalso. now apply (H q I).
Qed.

Lemma scanned_before_irrefl t : ~ scanned_before t t.
Proof. unfold scanned_before. lia. Qed.

Lemma scanned_before_Hot t t' : scanned_before t' t -> t' <> Hot -> scanned_before Hot t.
Proof. unfold scanned_before. destruct t, t'; simpl; intros; try lia; congruence. Qed.

(** X5.  Store, then retrieve, for a key other than [__proto__] and a store
    that holds no property of that name.  If no tier scanned before the
    target tier answers for the key, and (for a target other than archived) no hot, warm
    or cold entry has the serialization of the value, then [storeContext]
    leaves the new entry in the target tier, replacing what the tier held
    under the key, and the next [retrieveContext] of the key returns the
    value and counts one access. *)
Theorem store_then_retrieve :
  forall (ms : MemoryStore) (now now' : Z) (k : string) (v : jsvalue)
         (options : Options.t),
    well_formed ms ->
    plain_store ms = true ->
    k <> "__proto__" ->
    (forall t', scanned_before t' (target options) -> get (tier_get ms t') k = Undefined) ->
    (target options <> Archived ->
     occurrences (JSON_stringify v) (dedup_order ms) = 0) ->
    let ms' := storeContext now k v options ms in
    own_get (tier_get ms' (target options)) k = Some (new_entry now k v options) /\
    fst (retrieveContext now' k ms') = Normal v /\
    own_get (tier_get (snd (retrieveContext now' k ms')) (target options)) k
    = Some (touch now' (new_entry now k v options)).
Proof.
  intros ms now now' k v options W _ _ B Z ms'.
  set (t := target options) in *.
  set (e := new_entry now k v options).
  set (m := tiering now (inserted now k v options ms)).
  assert (Wm : well_formed m)
    by (apply well_formed_tiering; now apply well_formed_inserted).
  assert (E' : ms' = _deduplicateContexts m) by reflexivity.
  assert (Hm : own_get (tier_get m t) k = Some e).
  { apply staged_new; [assumption|]. intro TW. fold t in TW.
    assert (U : get (tier_get ms Hot) k = Undefined).
    { apply B. rewrite TW. unfold scanned_before. simpl. lia. }
    now apply get_Undefined in U. }
  assert (H' : own_get (tier_get ms' t) k = Some e).
  { rewrite E'. destruct (tier_eqb t Archived) eqn:TA.
    - apply tier_eqb_eq in TA. rewrite TA in *.
      rewrite deduplicate_spec by assumption. exact Hm.
    - assert (NA : t <> Archived) by (intro X; rewrite X in TA; discriminate).
      apply deduplicate_keeps; try assumption.
      apply duplicate_of_false. intros [k' e'] I S.
      destruct (visited_before_In m t k (k', e') NA I) as (t' & NA' & I' & NK).
      apply In_own_get in I'; [|apply Wm].
      destruct (staged_origin now k v options ms t' k' e' W I')
        as [(-> & _ & ->)|(t0 & O & K)].
      + now apply NK.
      + apply (occurrences_zero (JSON_stringify v) (dedup_order ms) (k', e'));
          [now apply Z| |exact S].
        apply In_dedup_order. exists t0. split; [now apply (origin_tier t')|].
        now apply own_get_In. }
  assert (F : finds ms' k t e).
  { split; [exact H'|]. intros t' L.
    pose proof (B t' L) as U. apply get_Undefined in U. destruct U as [U P].
    apply get_Undefined. split; [|exact P].
    destruct (own_get (tier_get ms' t') k) as [e1|] eqn:E1; [|reflexivity].
    exfalso. unfold ms' in E1.
    destruct (store_origin now k v options ms t' k e1 W E1)
      as [(_ & _ & X)|(t0 & [->|(-> & ->)] & K)].
    - fold t in X. rewrite X in L. now apply scanned_before_irrefl in L.
    - rewrite U in K. discriminate.
    - assert (UH : get (tier_get ms Hot) k = Undefined).
      { apply B. apply (scanned_before_Hot _ Warm); [exact L|discriminate]. }
      apply get_Undefined in UH. destruct UH as [UH _]. rewrite UH in K. discriminate. }
  split; [exact H'|].
  rewrite (retrieve_finds now' k ms' t e F). cbn [fst snd].
  split; [reflexivity|].
  apply retrieved_stays; [exact H'|reflexivity].
Qed.

Lemma store_then_retrieve_witness :
  let ms := storeContext 1 "a" (VData (JNum 1)) Options.default empty_store in
  let v := VData (JObj [("data", JStr "warm")]) in
  well_formed ms /\
  plain_store ms = true /\
  fst (retrieveContext 3 "key2" (storeContext 2 "key2" v (Options.mk (Some Warm) None) ms))
  = Normal v.
Proof.
  intros ms v.
  assert (W : well_formed ms) by (apply well_formed_store; exact well_formed_empty).
  assert (N : "key2" <> "__proto__") by discriminate.
  split; [exact W|]. split; [reflexivity|].
  apply (store_then_retrieve ms 2 3 "key2" v (Options.mk (Some Warm) None) W eq_refl N).
  - intros [] L; unfold scanned_before in L; simpl in L; try lia; reflexivity.
  - intros _. reflexivity.
Defined.

End RoundTrip.

(** ** Exclusivity and the moves between tiers *)

Section Moves.

Local Open Scope list_scope.









Lemma tier_eqb_neq t t' : t <> t' -> tier_eqb t t' = false.
Proof.
  intro N. destruct (tier_eqb t t') eqn:E; [|reflexivity].
  apply tier_eqb_eq in E. contradiction.
Qed.






(** What the maintenance pass leaves of a hot entry. *)
Lemma pass_moves_stale now k e ms :
  well_formed ms ->
  own_get (hot ms) k = Some e ->
  stale now e = true ->
  (forall t' k' e', t' = Hot \/ t' = Warm -> k' <> k ->
                    own_get (tier_get ms t') k' = Some e' ->
                    serialization (k', e') <> serialization (k, e)) ->
  own_get (warm (_optimizeMemory now ms)) k = Some e.
Proof.
  intros W H S D.
  set (m := tiering now ms).
  assert (Wm : well_formed m) by now apply well_formed_tiering.
  destruct (tiering_spec now ms W) as (_ & _ & Hh & Hw). fold m in Hh, Hw.
  apply (deduplicate_keeps m Warm k e Wm); [discriminate| |].
  - cbn [tier_get]. now rewrite Hw, H, S.
  - apply duplicate_of_false. intros [k' e'] I.
    unfold visited_before in I. cbn [tier_get] in I.
    apply in_app_or in I. destruct I as [I|I].
    + apply In_own_get in I; [|apply (Wm Hot)].
      rewrite Hh in I. destruct (own_get (hot ms) k') as [e0|] eqn:G; [|discriminate].
      destruct (stale now e0) eqn:S0; [discriminate|]. injection I as ->.
      apply (D Hot); [now left| |assumption].
      intro X. subst k'. assert (e' = e) by congruence. subst e'. congruence.
    + apply in_front_In in I. destruct I as [I N]. cbn [fst] in N.
      apply In_own_get in I; [|apply (Wm Warm)].
      rewrite Hw in I. destruct (own_get (hot ms) k') as [e0|] eqn:G.
      * destruct (stale now e0).
        -- injection I as ->. apply (D Hot); [now left|assumption|assumption].
        -- apply (D Warm); [now right|assumption|assumption].
      * apply (D Warm); [now right|assumption|assumption].
Qed.

Lemma pass_keeps_fresh now k e ms :
  well_formed ms ->
  own_get (hot ms) k = Some e ->
  stale now e = false ->
  (forall k' e', k' <> k -> own_get (hot ms) k' = Some e' ->
                 serialization (k', e') <> serialization (k, e)) ->
  own_get (hot (_optimizeMemory now ms)) k = Some e.
Proof.
  intros W H S D.
  set (m := tiering now ms).
  assert (Wm : well_formed m) by now apply well_formed_tiering.
  destruct (tiering_spec now ms W) as (_ & _ & Hh & _). fold m in Hh.
  apply (deduplicate_keeps m Hot k e Wm); [discriminate| |].
  - cbn [tier_get]. now rewrite Hh, H, S.
  - apply duplicate_of_false. intros [k' e'] I.
    unfold visited_before in I. cbn [tier_get app] in I.
    apply in_front_In in I. destruct I as [I N]. cbn [fst] in N.
    apply In_own_get in I; [|apply (Wm Hot)].
    rewrite Hh in I. destruct (own_get (hot ms) k') as [e0|] eqn:G; [|discriminate].
    destruct (stale now e0); [discriminate|]. injection I as ->.
    now apply (D k').
Qed.

(** C5 (promotion monotonicity).  A retrieval never moves an entry toward
    archived: every entry is afterwards in the tier it was in or in the next
    tier up, and every entry found afterwards was in that tier or in the tier
    one step below.  The tiering loop of the maintenance pass moves exactly
    the hot entries older than 24 hours with fewer than 5 accesses: such an
    entry leaves hot and (its key not being [__proto__]) is in warm,
    unchanged; every other hot entry stays; cold and archived are untouched;
    and whatever the whole pass leaves in a tier was in that tier before or
    is a stale hot entry moved to warm.  After the whole pass the archived
    tier is as it was; in a store that holds no property [__proto__], a
    stale hot entry is no longer in hot, and it is in warm, unchanged, exactly
    when the deduplication that ends the pass did not find its serialization
    ahead of it (in hot, or in front of it in warm), in particular when no
    entry of another key in hot or warm has its serialization; a hot entry
    that is not stale is still in hot exactly when the deduplication did not
    find its serialization in front of it in hot, in particular when no hot
    entry of another key has its serialization.  [pushScope] does not touch
    the memory store. *)
Theorem promotion_monotonicity :
  (forall ms now key t k e,
      own_get (tier_get ms t) k = Some e ->
      own_get (tier_get (snd (retrieveContext now key ms)) t) k = Some e \/
      own_get (tier_get (snd (retrieveContext now key ms)) t) k = Some (touch now e) \/
      exists t1, next_tier t = Some t1 /\ rank t1 = S (rank t) /\
        own_get (tier_get (snd (retrieveContext now key ms)) t1) k = Some (touch now e)) /\
  (forall ms now key t' k e',
      own_get (tier_get (snd (retrieveContext now key ms)) t') k = Some e' ->
      (exists e, own_get (tier_get ms t') k = Some e) \/
      (exists t e, next_tier t = Some t' /\ rank t' = S (rank t) /\
                   own_get (tier_get ms t) k = Some e)) /\
  (forall ms now,
      well_formed ms ->
      cold (tiering now ms) = cold ms /\
      archived (tiering now ms) = archived ms /\
      (forall k e, own_get (hot ms) k = Some e -> stale now e = true ->
         own_get (hot (tiering now ms)) k = None /\
         (k <> "__proto__" -> own_get (warm (tiering now ms)) k = Some e) /\
         own_get (hot (_optimizeMemory now ms)) k = None) /\
      (forall k e, own_get (hot ms) k = Some e -> stale now e = false ->
         own_get (hot (tiering now ms)) k = Some e /\
         own_get (warm (tiering now ms)) k = own_get (warm ms) k) /\
      (forall k, own_get (hot ms) k = None ->
         own_get (warm (tiering now ms)) k = own_get (warm ms) k) /\
      (forall t k e, own_get (tier_get (_optimizeMemory now ms) t) k = Some e ->
         own_get (tier_get ms t) k = Some e \/
         (t = Warm /\ own_get (hot ms) k = Some e /\ stale now e = true))) /\
  (forall ms now k e,
      well_formed ms ->
      plain_store ms = true ->
      own_get (hot ms) k = Some e ->
      archived (_optimizeMemory now ms) = archived ms /\
      (stale now e = true ->
       own_get (hot (_optimizeMemory now ms)) k = None /\
       own_get (warm (_optimizeMemory now ms)) k
       = (if duplicate_of (visited_before (tiering now ms) Warm k) (k, e)
          then None else Some e) /\
       ((forall t' k' e', t' = Hot \/ t' = Warm -> k' <> k ->
                          own_get (tier_get ms t') k' = Some e' ->
                          serialization (k', e') <> serialization (k, e)) ->
        own_get (warm (_optimizeMemory now ms)) k = Some e)) /\
      (stale now e = false ->
       own_get (hot (_optimizeMemory now ms)) k
       = (if duplicate_of (visited_before (tiering now ms) Hot k) (k, e)
          then None else Some e) /\
       ((forall k' e', k' <> k -> own_get (hot ms) k' = Some e' ->
                       serialization (k', e') <> serialization (k, e)) ->
        own_get (hot (_optimizeMemory now ms)) k = Some e))) /\
  (forall now e,
      stale now e = true <->
      (24 * (1000 * 60 * 60) < now - timestamp (metadata e))%Z /\
      accessCount (metadata e) < 5) /\
  (forall now rnd scopeConfig this,
      memoryStore (snd (pushScope now rnd scopeConfig this)) = memoryStore this).
Proof.
  assert (Gone : forall ms now k e,
             well_formed ms -> own_get (hot ms) k = Some e -> stale now e = true ->
             own_get (hot (_optimizeMemory now ms)) k = None).
  { intros ms now k e W H S.
    destruct (tiering_spec now ms W) as (_ & _ & Hh & _).
    destruct (own_get (hot (_optimizeMemory now ms)) k) as [e1|] eqn:E; [|reflexivity].
    unfold _optimizeMemory in E.
    apply (deduplicate_own_get _ Hot) in E; [|now apply well_formed_tiering].
    simpl in E. rewrite Hh, H, S in E. discriminate. }
  split; [|split; [|split; [|split; [|split; [|reflexivity]]]]].
  - intros ms now key t k e H.
    destruct (retrieve_keeps now key ms t k e H) as [K|[K|(t1 & T1 & K)]]; auto.
    right. right. exists t1. auto using next_tier_rank.
  - intros ms now key t' k e' H.
    destruct (retrieve_origin now key ms t' k e' H) as [K|(t & e & T & K)]; auto.
    right. exists t, e. auto using next_tier_rank.
  - intros ms now W.
    destruct (tiering_spec now ms W) as (Hc & Ha & Hh & Hw).
    split; [assumption|]. split; [assumption|].
    split; [|split; [|split]].
    + intros k e H S. split; [|split].
      * now rewrite Hh, H, S.
      * intros _. now rewrite Hw, H, S.
      * now apply (Gone ms now k e).
    + intros k e H S. split.
      * now rewrite Hh, H, S.
      * now rewrite Hw, H, S.
    + intros k H. now rewrite Hw, H.
    + intros t k e. now apply optimize_origin.
  - intros ms now k e W _ H. split; [now apply optimize_archived|].
    pose proof (well_formed_tiering now ms W) as Wm.
    destruct (tiering_spec now ms W) as (_ & _ & Hh & Hw).
    split.
    + intros S. split; [now apply (Gone ms now k e)|]. split.
      * assert (G : own_get (tier_get (tiering now ms) Warm) k = Some e)
          by (cbn [tier_get]; now rewrite Hw, H, S).
        destruct (duplicate_of (visited_before (tiering now ms) Warm k) (k, e)) eqn:D.
        -- apply (deduplicate_deletes (tiering now ms) Warm k e Wm); [discriminate| |];
             assumption.
        -- apply (deduplicate_keeps (tiering now ms) Warm k e Wm); [discriminate| |];
             assumption.
      * intro D. now apply pass_moves_stale.
    + intros S. split.
      * assert (G : own_get (tier_get (tiering now ms) Hot) k = Some e)
          by (cbn [tier_get]; now rewrite Hh, H, S).
        destruct (duplicate_of (visited_before (tiering now ms) Hot k) (k, e)) eqn:D.
        -- apply (deduplicate_deletes (tiering now ms) Hot k e Wm); [discriminate| |];
             assumption.
        -- apply (deduplicate_keeps (tiering now ms) Hot k e Wm); [discriminate| |];
             assumption.
      * intro D. now apply pass_keeps_fresh.
  - apply stale_iff.
Qed.

Lemma promotion_monotonicity_witness :
  let e := mkEntry "k" (VData (JNum 1)) (mkMetadata 0 4 None 1.0%float) in
  let ms := mkStore [("k", e)] [] [] [] in
  well_formed ms /\
  plain_store ms = true /\
  stale 86400001 e = true /\
  own_get (hot (_optimizeMemory 86400001 ms)) "k" = None /\
  own_get (warm (_optimizeMemory 86400001 ms)) "k" = Some e.
Proof.
  intros e ms.
  assert (W : well_formed ms).
  { intros []; simpl; repeat constructor. simpl. tauto. }
  split; [exact W|]. split; [reflexivity|]. split; [reflexivity|].
  destruct promotion_monotonicity as (_ & _ & _ & M & _).
  destruct (M ms 86400001%Z "k" e W eq_refl eq_refl) as (_ & D & _).
  destruct (D eq_refl) as (Dh & _ & Dw).
  split; [exact Dh|]. apply Dw.
  intros t' k' e' _ K G. destruct t'; simpl in G; try discriminate G.
  destruct (String.eqb_spec k' "k"); [contradiction|discriminate G].
Defined.

End Moves.

(** ** Repeated retrievals *)

Section PromotionSchedule.

Local Open Scope list_scope.

Lemma scanned_before_iff t' t : scanned_before t' t <-> rank t < rank t'.
Proof. unfold scanned_before, rank. destruct t, t'; simpl; lia. Qed.

Lemma rank_le t : rank t <= 3.
Proof. destruct t; unfold rank; simpl; lia. Qed.

(** The scan after a hit: the touched entry is found again, in the same
    tier or, after a promotion, one step up. *)
Lemma finds_retrieved now k t e ms :
  finds ms k t e ->
  exists t1,
    finds (retrieved now k t e ms) k t1 (touch now e) /\
    rank t1 = rank t +
              (if (Nat.ltb 10 (S (accessCount (metadata e))) && negb (tier_eqb t Hot))%bool
               then 1 else 0).
Proof.
  intros [H B].
  destruct (Nat.ltb 10 (S (accessCount (metadata e))) && negb (tier_eqb t Hot))%bool eqn:C.
  - destruct (retrieved_moves now k t e ms H C) as (t1 & T1 & M1 & M & Mo).
    pose proof (next_tier_rank _ _ T1) as R1.
    exists t1. split; [|lia]. split.
    + rewrite M1. apply own_get_set_same.
    + intros t' L. apply scanned_before_iff in L.
      rewrite Mo.
      * apply B. apply scanned_before_iff. lia.
      * intro X. subst t'. lia.
      * intro X. subst t'. lia.
  - destruct (retrieved_stays now k t e ms H C) as (So & Ot).
    exists t. split; [|lia]. split; [exact So|].
    intros t' L. rewrite Ot; [now apply B|].
    intro X. subst t'. now apply scanned_before_irrefl in L.
Qed.

(** X6.  Repeated retrievals.  After [n] retrievals of a key that is found,
    the key is still found, with the same value and creation time, its access
    count is the old count [c] plus [n], and its tier is as many steps up the
    promotion order archived, cold, warm, hot as there were retrievals that
    raised the count above 10, stopping at hot.  The next retrieval returns
    the value. *)
Theorem retrievals_promotion_schedule :
  forall (nows : list Z) (k : string) (ms : MemoryStore) (t : tier) (e : contextEntry),
    finds ms k t e ->
    let c := accessCount (metadata e) in
    let n := List.length nows in
    exists t' e',
      finds (retrievals nows k ms) k t' e' /\
      value e' = value e /\
      timestamp (metadata e') = timestamp (metadata e) /\
      accessCount (metadata e') = c + n /\
      rank t' = Nat.min 3 (rank t + ((c + n - 10) - (c - 10))) /\
      forall now, fst (retrieveContext now k (retrievals nows k ms)) = Normal (value e).
Proof.
  induction nows as [|now nows IH]; intros k ms t e F c n.
  - exists t, e. cbn [retrievals]. repeat split; try apply F.
    + subst c n. cbn [List.length]. lia.
    + subst c n. cbn [List.length]. pose proof (rank_le t). lia.
    + intro now. now rewrite (retrieve_finds now k ms t e F).
  - simpl retrievals. rewrite (retrieve_finds now k ms t e F). cbn [snd].
    destruct (finds_retrieved now k t e ms F) as (t1 & F1 & R1).
    destruct (IH k _ t1 (touch now e) F1) as (t' & e' & F' & V & T & A & R & N).
    exists t', e'. split; [exact F'|]. split; [exact V|]. split; [exact T|].
    cbn [touch accessCount metadata] in A, R.
    split; [subst c n; cbn [List.length]; lia|]. split; [|exact N].
    rewrite R, R1. subst c n. cbn [List.length].
    pose proof (rank_le t) as L3.
    destruct (Nat.ltb_spec 10 (S (accessCount (metadata e)))) as [L|L];
      [destruct (tier_eqb t Hot) eqn:TH|]; cbn [andb negb].
    + apply tier_eqb_eq in TH. subst t. change (rank Hot) with 3. lia.
    + assert (rank t < 3).
      { destruct t; unfold rank; simpl; try lia. discriminate TH. }
      lia.
    + lia.
Qed.

Lemma retrievals_promotion_schedule_witness :
  let ms := storeContext 1 "key1" (VData (JObj [("data", JStr "value1")]))
              (Options.mk (Some Cold) None) empty_store in
  exists e',
    finds (retrievals [2; 3; 4; 5; 6; 7; 8; 9; 10; 11; 12; 13]%Z "key1" ms) "key1" Hot e' /\
    accessCount (metadata e') = 12.
Proof.
  intro ms.
  assert (F : finds ms "key1" Cold
                (new_entry 1 "key1" (VData (JObj [("data", JStr "value1")]))
                   (Options.mk (Some Cold) None))).
  { split; [reflexivity|].
    intros [] L; unfold scanned_before in L; simpl in L; try lia; reflexivity. }
  destruct (retrievals_promotion_schedule
              [2; 3; 4; 5; 6; 7; 8; 9; 10; 11; 12; 13]%Z "key1" ms Cold _ F)
    as (t' & e' & F' & _ & _ & A & R & _).
  exists e'. split; [|exact A].
  destruct t'; try exact F'; discriminate R.
Defined.

End PromotionSchedule.

(** ** Running the maintenance again *)

Section Idempotence.

Local Open Scope list_scope.

Implicit Types (l E : object) (p q : string * contextEntry).

Lemma duplicate_of_iff E p :
  duplicate_of E p = true <-> exists q, In q E /\ serialization p = serialization q.
Proof.
  unfold duplicate_of. rewrite existsb_exists.
  split; intros (q & I & H); exists q; split; auto; now apply String.eqb_eq.
Qed.

Lemma same_values_iff E E' :
  (forall p, (exists q, In q E /\ serialization p = serialization q) <->
             (exists q, In q E' /\ serialization p = serialization q)) ->
  same_values E E'.
Proof.
  intros H p. apply eq_true_iff_eq. rewrite !duplicate_of_iff. apply H.
Qed.

Lemma same_values_app E E' l : same_values E E' -> same_values (E ++ l) (E' ++ l).
Proof.
  intros H p. unfold duplicate_of. rewrite !existsb_app. f_equal. apply H.
Qed.

Lemma keep_first_ext l : forall E E',
  same_values E E' -> keep_first E l = keep_first E' l.
Proof.
  induction l as [|p l IH]; intros E E' H; simpl; [reflexivity|].
  rewrite (H p). f_equal. apply IH. now apply same_values_app.
Qed.

(** Every entry of [l] has its serialization among the kept ones. *)
Lemma keep_first_covers l : forall E q,
  In q l -> exists q', In q' (E ++ keep_first E l) /\ serialization q = serialization q'.
Proof.
  induction l as [|p l IH]; intros E q I; [destruct I|].
  assert (P : exists q', In q' (E ++ keep_first E (p :: l))
                         /\ serialization p = serialization q').
  { simpl. destruct (duplicate_of E p) eqn:D.
    - apply duplicate_of_iff in D. destruct D as (q' & I' & S').
      exists q'. split; [|assumption]. apply in_or_app. now left.
    - exists p. split; [|reflexivity]. apply in_or_app. right. now left. }
  destruct I as [<-|I]; [exact P|].
  destruct (IH (E ++ [p]) q I) as (q' & I' & S').
  rewrite <- app_assoc in I'. apply in_app_or in I'. destruct I' as [I'|I'].
  - exists q'. split; [|assumption]. apply in_or_app. now left.
  - destruct I' as [<-|I'].
    + destruct P as (q'' & I'' & S''). exists q''. split; [assumption|congruence].
    + exists q'. split; [|assumption]. apply in_or_app. right. simpl.
      apply in_or_app. now right.
Qed.

Lemma keep_first_same_values E l : same_values (E ++ keep_first E l) (E ++ l).
Proof.
  apply same_values_iff. intro p. split; intros (q & I & H).
  - exists q. split; [|assumption]. apply in_app_or in I. apply in_or_app.
    destruct I as [I|I]; [now left|right]. now apply keep_first_In in I.
  - apply in_app_or in I. destruct I as [I|I].
    + exists q. split; [|assumption]. apply in_or_app. now left.
    + destruct (keep_first_covers l E q I) as (q' & I' & H').
      exists q'. split; [assumption|congruence].
Qed.

Lemma keep_first_idem l : forall E, keep_first E (keep_first E l) = keep_first E l.
Proof.
  induction l as [|p l IH]; intro E; simpl; [reflexivity|].
  destruct (duplicate_of E p) eqn:D; simpl.
  - rewrite <- (IH (E ++ [p])) at 2. apply keep_first_ext.
    apply same_values_iff. intro r. split; intros (q & I & H).
    + exists q. split; [|assumption]. apply in_or_app. now left.
    + apply in_app_or in I. destruct I as [I|[<-|[]]].
      * now exists q.
      * apply duplicate_of_iff in D. destruct D as (q' & I' & H').
        exists q'. split; [assumption|congruence].
  - rewrite D. simpl. f_equal. apply IH.
Qed.

Lemma deduplicate_idempotent ms :
  well_formed ms ->
  _deduplicateContexts (_deduplicateContexts ms) = _deduplicateContexts ms.
Proof.
  intro W. pose proof (well_formed_deduplicate ms W) as W'.
  rewrite (deduplicate_spec (_deduplicateContexts ms) W').
  rewrite (deduplicate_spec ms W). cbn [hot warm cold archived].
  f_equal.
  - apply keep_first_idem.
  - rewrite (keep_first_ext _ (keep_first [] (hot ms)) (hot ms)).
    + apply keep_first_idem.
    + apply (keep_first_same_values [] (hot ms)).
  - rewrite (keep_first_ext _ (keep_first [] (hot ms) ++ keep_first (hot ms) (warm ms))
               (hot ms ++ warm ms)).
    + apply keep_first_idem.
    + pose proof (keep_first_same_values [] (hot ms ++ warm ms)) as H.
      rewrite keep_first_app in H. exact H.
Qed.

Lemma tiering_nothing_stale now l : forall m,
  (forall p, In p l -> stale now (snd p) = false) ->
  fold_left (fun m p => if stale now (snd p) then demote m p else m) l m = m.
Proof.
  induction l as [|p l IH]; intros m H; simpl; [reflexivity|].
  rewrite (H p) by now left. apply IH. intros q I. apply H. now right.
Qed.

Lemma tiering_fixed now ms :
  (forall k e, own_get (hot ms) k = Some e -> stale now e = false) ->
  well_formed ms ->
  tiering now ms = ms.
Proof.
  intros H W. unfold tiering. apply tiering_nothing_stale.
  intros [k e] I. simpl. apply (H k). apply In_own_get; [apply (W Hot)|assumption].
Qed.

(** X7.  Running the maintenance again changes nothing: on a store that
    [_optimizeMemory] has just returned, a second [_optimizeMemory] at the
    same clock reading, and [_deduplicateContexts] at any time, give back
    the store as it is.  In particular no hot entry left by the pass is both
    older than 24 hours and accessed fewer than 5 times. *)
Theorem maintenance_idempotent :
  forall (ms : MemoryStore) (now : Z),
    well_formed ms ->
    let ms' := _optimizeMemory now ms in
    _optimizeMemory now ms' = ms' /\
    _deduplicateContexts ms' = ms' /\
    forall k e, own_get (hot ms') k = Some e -> stale now e = false.
Proof.
  intros ms now W ms'.
  pose proof (well_formed_tiering now ms W) as Wt.
  assert (D : _deduplicateContexts ms' = ms') by now apply deduplicate_idempotent.
  assert (N : forall k e, own_get (hot ms') k = Some e -> stale now e = false).
  { intros k e H. unfold ms', _optimizeMemory in H.
    rewrite deduplicate_spec in H by assumption. cbn [hot] in H.
    apply own_get_In, keep_first_In in H.
    apply In_own_get in H; [|apply (Wt Hot)].
    destruct (tiering_spec now ms W) as (_ & _ & Hh & _).
    rewrite Hh in H. destruct (own_get (hot ms) k) as [e0|]; [|discriminate].
    destruct (stale now e0) eqn:S0; [discriminate|]. now injection H as <-. }
  split; [|split; assumption].
  unfold _optimizeMemory at 1. rewrite tiering_fixed; try assumption.
  now apply well_formed_optimize.
Qed.

Lemma maintenance_idempotent_witness :
  let ms := inserted 0 "b" (VData (JNum 1)) Options.default
              (inserted 0 "a" (VData (JNum 1)) Options.default
                 (inserted 0 "c" (VData (JNum 2)) Options.default empty_store)) in
  well_formed ms /\
  _optimizeMemory 90000000 (_optimizeMemory 90000000 ms) = _optimizeMemory 90000000 ms.
Proof.
  intro ms.
  assert (W : well_formed ms)
    by (repeat apply well_formed_inserted; exact well_formed_empty).
  split; [exact W|]. apply (maintenance_idempotent ms 90000000 W).
Defined.

End Idempotence.

(** ** The tensor registry *)

Section Registry.

Local Open Scope list_scope.

Context {A : Type}.

Implicit Types (d : Dict.t A) (k : string) (a : A).

Lemma dict_replace_same d k a :
  Dict.own_get d k <> None -> Dict.own_get (Dict.replace d k a) k = Some a.
Proof.
  induction d as [|[k' a'] d IH]; simpl; [congruence|].
  destruct (String.eqb k k') eqn:E; simpl; rewrite E; auto.
Qed.

Lemma dict_replace_other d k a k' :
  k' <> k -> Dict.own_get (Dict.replace d k a) k' = Dict.own_get d k'.
Proof.
  intro N. induction d as [|[k0 a0] d IH]; simpl; [reflexivity|].
  destruct (String.eqb_spec k k0) as [->|N0]; simpl.
  - destruct (String.eqb_spec k' k0); [contradiction|reflexivity].
  - destruct (String.eqb k' k0); [reflexivity|assumption].
Qed.

Lemma dict_define_same d k a :
  Dict.own_get d k = None -> Dict.own_get (Dict.define d k a) k = Some a.
Proof.
  induction d as [|[k' a'] d IH]; simpl.
  - intros _. now rewrite String.eqb_refl.
  - destruct (String.eqb k k') eqn:E; [discriminate|]. intro H.
    destruct (precedes k k'); simpl.
    + now rewrite String.eqb_refl.
    + rewrite E. auto.
Qed.

Lemma dict_define_other d k a k' :
  k' <> k -> Dict.own_get (Dict.define d k a) k' = Dict.own_get d k'.
Proof.
  intro N. induction d as [|[k0 a0] d IH]; simpl.
  - now rewrite (proj2 (String.eqb_neq k' k) N).
  - destruct (precedes k k0); simpl.
    + now rewrite (proj2 (String.eqb_neq k' k) N).
    + destruct (String.eqb k' k0); auto.
Qed.

Lemma dict_get_set_same d k a : Dict.get (Dict.set d k a) k = Dict.Own a.
Proof.
  unfold Dict.get, Dict.set. destruct (Dict.own_get d k) eqn:H.
  - rewrite dict_replace_same; [reflexivity|congruence].
  - now rewrite dict_define_same.
Qed.

Lemma dict_get_set_other d k a k' :
  k' <> k -> Dict.get (Dict.set d k a) k' = Dict.get d k'.
Proof.
  intro N. unfold Dict.get, Dict.set. destruct (Dict.own_get d k).
  - now rewrite dict_replace_other.
  - now rewrite dict_define_other.
Qed.

End Registry.

Section Tensors.

Local Open Scope list_scope.
Local Open Scope Z_scope.

Lemma fold_mul_ge shape : forall acc,
  Forall (fun d => 1 <= d) shape -> 1 <= acc -> acc <= fold_left Z.mul shape acc.
Proof.
  induction shape as [|d shape IH]; intros acc H L; simpl; [lia|].
  inversion H as [|? ? Hd Hs]; subst.
  transitivity (acc * d); [nia|]. apply IH; [assumption|nia].
Qed.

Lemma shape_size_positive shape :
  Forall (fun d => 1 <= d) shape -> 1 <= shape_size shape.
Proof. intro H. unfold shape_size. now apply fold_mul_ge. Qed.

(** X8.  Creating a tensor.  For a shape whose dimensions are at least 1
    and a name other than [__proto__]: without data, [initTensor] fills the
    tensor with as many zeros as the product of the dimensions (one zero for
    the empty shape) when that product is at most 2^25, registers it under
    its name, where [getTensor] finds it, and leaves the other names as they
    are; with a product above 2^32 - 1 it throws a [RangeError] and the
    registry is unchanged (between the two bounds the outcome depends on the
    engine and nothing is stated).  Data handed over is taken as it is,
    whatever the shape. *)
Theorem initTensor_zero_filled :
  forall (now : Z) (name : string) (shape : list Z) (this : TensorLogicService),
    Forall (fun d => 1 <= d) shape ->
    name <> "__proto__"%string ->
    let size := shape_size shape in
    let r := initTensor now name shape None this in
    (size <= 33554432 ->
     exists tensor,
       fst r = Return tensor /\
       Tensor.name tensor = name /\
       Tensor.shape tensor = shape /\
       Tensor.data tensor = repeat (JNum 0) (Z.to_nat size) /\
       Z.of_nat (List.length (Tensor.data tensor)) = size /\
       getTensor name (snd r) = Dict.Own tensor /\
       forall other, other <> name -> getTensor other (snd r) = getTensor other this) /\
    (4294967295 < size -> r = (RangeError, this)) /\
    (forall data,
       let r' := initTensor now name shape (Some data) this in
       exists tensor,
         fst r' = Return tensor /\
         Tensor.shape tensor = shape /\
         Tensor.data tensor = data /\
         getTensor name (snd r') = Dict.Own tensor).
Proof.
  intros now name shape this H _ size r.
  pose proof (shape_size_positive shape H) as P. fold size in P.
  split; [|split].
  - intro L. unfold r, initTensor, _initializeData. fold size.
    replace (Z.leb 0 size) with true by (symmetry; apply Z.leb_le; lia).
    replace (Z.leb size 4294967295) with true by (symmetry; apply Z.leb_le; lia).
    cbn [andb fst snd].
    eexists. split; [reflexivity|]. cbn [Tensor.name Tensor.shape Tensor.data].
    repeat split.
    + rewrite repeat_length. lia.
    + unfold getTensor. cbn [tensorRegistry]. apply dict_get_set_same.
    + intros other N. unfold getTensor. cbn [tensorRegistry].
      now apply dict_get_set_other.
  - intro L. unfold r, initTensor, _initializeData. fold size.
    replace (Z.leb size 4294967295) with false by (symmetry; apply Z.leb_gt; lia).
    rewrite andb_false_r. reflexivity.
  - intros data r'. unfold r', initTensor. cbn [fst snd].
    eexists. split; [reflexivity|]. cbn [Tensor.shape Tensor.data].
    repeat split. unfold getTensor. cbn [tensorRegistry]. apply dict_get_set_same.
Qed.

Lemma initTensor_zero_filled_witness :
  exists tensor,
    fst (initTensor 0 "grid" [2; 3] None (mkTensorLogic [])) = Return tensor /\
    Tensor.data tensor = repeat (JNum 0) 6.
Proof.
  assert (H : Forall (fun d => 1 <= d) [2; 3]) by (repeat constructor; lia).
  assert (N : "grid"%string <> "__proto__"%string) by discriminate.
  destruct (initTensor_zero_filled 0 "grid" [2; 3] (mkTensorLogic []) H N) as (K & _).
  assert (L : shape_size [2; 3] <= 33554432) by (vm_compute; discriminate).
  destruct (K L) as (tensor & R & _ & _ & D & _).
  exists tensor. split; [exact R|exact D].
Defined.

End Tensors.

(** ** Selecting a scope *)

Section Selecting.

Local Open Scope list_scope.
Local Open Scope string_scope.

Lemma initTensor_unit now name this :
  initTensor now name [1%Z; 1%Z] None this
  = (Return (unit_tensor now name),
     mkTensorLogic (Dict.set (tensorRegistry this) name (unit_tensor now name))).
Proof. reflexivity. Qed.

(** The application after [mapScopeToDomain]. *)
Lemma mapScopeToDomain_eq now m app :
  mapScopeToDomain now m app
  = (Return (List.length (spaces (atenSpace app))),
     mkApp (scope app) (hypermind app)
       (mkTensorLogic
          (Dict.set (tensorRegistry (tensorLogic app)) (domain_name m ++ "_tensor")
             (unit_tensor now (domain_name m ++ "_tensor"))))
       (mkATenSpace
          (spaces (atenSpace app) ++ [domain_space now m (scope app)])%list
          (Dict.set (spaceRegistry (atenSpace app)) (domain_name m)
             (List.length (spaces (atenSpace app))))
          (Dict.set (boundaries (atenSpace app)) (boundary_name m)
             (domain_boundary now m (scope app)))
          (mkAtomSpace
             (atoms (atomSpace (atenSpace app))
              ++ [domain_atom now m (List.length (spaces (atenSpace app)))])%list
             (links (atomSpace (atenSpace app)))))).
Proof.
  unfold mapScopeToDomain, createSpace, defineBoundary.
  cbn [snd scope hypermind tensorLogic atenSpace Space.config_shape
       Space.config_boundary Space.config_dimensions].
  fold (domain_name m). fold (boundary_name m).
  rewrite initTensor_unit.
  unfold _addToAtomSpace, domain_space, domain_boundary, domain_atom, dimensions_or_one.
  cbn [spaces spaceRegistry boundaries atomSpace Space.name Boundary.config_type
       Boundary.config_constraints Boundary.config_domain string_or json_or truthy].
  destruct (ScopeModel.isGlobal m), (ScopeModel.isProject m), (ScopeModel.isOrg m);
    reflexivity.
Qed.

Lemma initializeScopeFrameworks_eq now rnd m app :
  initializeScopeFrameworks now rnd (Some m) app
  = (Return tt,
     snd (mapScopeToDomain now m
            (mkApp (scope app)
               (snd (pushScope now rnd (scope_config m) (hypermind app)))
               (mkTensorLogic
                  (Dict.set (tensorRegistry (tensorLogic app)) ("scope_" ++ ScopeModel.id m)
                     (unit_tensor now ("scope_" ++ ScopeModel.id m))))
               (atenSpace app)))).
Proof.
  unfold initializeScopeFrameworks. rewrite initTensor_unit.
  cbn [scope hypermind tensorLogic atenSpace].
  rewrite !mapScopeToDomain_eq. reflexivity.
Qed.

Lemma scope_tensor_name_neq m m' :
  "scope_" ++ ScopeModel.id m <> domain_name m' ++ "_tensor".
Proof. unfold domain_name. simpl. discriminate. Qed.

Lemma run_selection_eq c app :
  run_selection c app
  = match chosen c with
    | Some m =>
        initializeScopeFrameworks (clock c) (drawn c) (Some m)
          (mkApp (select c (scope app)) (hypermind app) (tensorLogic app) (atenSpace app))
    | None =>
        (Return tt,
         mkApp (select c (scope app)) (hypermind app) (tensorLogic app) (atenSpace app))
    end.
Proof. destruct c as [now rnd [m|]|now rnd [m|]]; reflexivity. Qed.

Lemma space_at_app_old (store : list Space.t) s r x :
  nth_error store r = Some s -> nth_error (store ++ [x])%list r = Some s.
Proof.
  intro H. rewrite nth_error_app1; [assumption|]. apply nth_error_Some. congruence.
Qed.

Lemma space_at_app_new (store : list Space.t) x :
  nth_error (store ++ [x])%list (List.length store) = Some x.
Proof. rewrite nth_error_app2 by lia. now rewrite Nat.sub_diag. Qed.

(** X9.  Selecting a scope.  [setOrg] and [setProject] with a scope model
    never throw.  They record the model in the selector, push one scope with
    the model's id and type as configuration onto the HyperMind stack (its
    parent is the scope that was current; the memory store is untouched),
    register the zero tensors [scope_<id>] and [domain_<type>_<id>_tensor] of
    shape [1, 1], a new space object under [domain_<type>_<id>] and the
    boundary [boundary_<type>], leave every other tensor, space and boundary
    name and every existing space object as it was, and append one atom that
    holds the new space object; no link is added. *)
Theorem selecting_a_scope :
  forall (c : selection) (m : ScopeModel.t) (app : App),
    chosen c = Some m ->
    let now := clock c in
    let app' := snd (run_selection c app) in
    let frame := fst (pushScope now (drawn c) (scope_config m) (hypermind app)) in
    let ref := List.length (spaces (atenSpace app)) in
    fst (run_selection c app) = Return tt /\
    scope app' = select c (scope app) /\
    (scopeStack (hypermind app') = (scopeStack (hypermind app) ++ [frame])%list /\
     Scope.config frame = scope_config m /\
     Scope.parent frame = getCurrentScope (hypermind app) /\
     memoryStore (hypermind app') = memoryStore (hypermind app)) /\
    (getTensor ("scope_" ++ ScopeModel.id m) (tensorLogic app')
     = Dict.Own (unit_tensor now ("scope_" ++ ScopeModel.id m)) /\
     getTensor (domain_name m ++ "_tensor") (tensorLogic app')
     = Dict.Own (unit_tensor now (domain_name m ++ "_tensor")) /\
     forall name, name <> "scope_" ++ ScopeModel.id m ->
                  name <> domain_name m ++ "_tensor" ->
                  getTensor name (tensorLogic app') = getTensor name (tensorLogic app)) /\
    (getSpace (domain_name m) app' = Dict.Own ref /\
     space_at ref (atenSpace app') = Some (domain_space now m (scope app')) /\
     (forall name, name <> domain_name m -> getSpace name app' = getSpace name app) /\
     (forall r s, space_at r (atenSpace app) = Some s ->
                  space_at r (atenSpace app') = Some s)) /\
    (getBoundary (boundary_name m) app' = Dict.Own (domain_boundary now m (scope app')) /\
     forall name, name <> boundary_name m -> getBoundary name app' = getBoundary name app) /\
    atoms (atomSpace (atenSpace app'))
    = (atoms (atomSpace (atenSpace app)) ++ [domain_atom now m ref])%list /\
    links (atomSpace (atenSpace app')) = links (atomSpace (atenSpace app)).
Proof.
  intros c m app C now app' frame ref.
  assert (E : run_selection c app
              = initializeScopeFrameworks now (drawn c) (Some m)
                  (mkApp (select c (scope app)) (hypermind app) (tensorLogic app)
                     (atenSpace app)))
    by (rewrite run_selection_eq, C; reflexivity).
  rewrite initializeScopeFrameworks_eq, mapScopeToDomain_eq in E.
  cbn [snd scope hypermind tensorLogic atenSpace tensorRegistry] in E.
  subst app'. rewrite E.
  cbn [fst snd scope hypermind tensorLogic atenSpace atomSpace atoms links].
  split; [reflexivity|]. split; [reflexivity|].
  split; [repeat split|]. split; [|split; [|split; [|split; reflexivity]]].
  - unfold getTensor. cbn [tensorRegistry]. split; [|split].
    + rewrite dict_get_set_other by apply scope_tensor_name_neq.
      apply dict_get_set_same.
    + apply dict_get_set_same.
    + intros name N1 N2. now rewrite !dict_get_set_other.
  - unfold getSpace, space_at. cbn [atenSpace spaceRegistry spaces].
    split; [|split; [|split]].
    + apply dict_get_set_same.
    + apply space_at_app_new.
    + intros name N. now apply dict_get_set_other.
    + intros r s H. now apply space_at_app_old.
  - unfold getBoundary. cbn [atenSpace boundaries]. split.
    + apply dict_get_set_same.
    + intros name N. now apply dict_get_set_other.
Qed.

Lemma selecting_a_scope_witness :
  let m := ScopeModel.mk "o_1" "org" false true false in
  let app' := snd (setOrg 1000 "abc" (Some m) fresh_app) in
  fst (setOrg 1000 "abc" (Some m) fresh_app) = Return tt /\
  getSpace "domain_org_o_1" app' = Dict.Own 0 /\
  space_at 0 (atenSpace app') = Some (domain_space 1000 m (scope app')).
Proof.
  intros m app'.
  destruct (selecting_a_scope (SetOrg 1000 "abc" (Some m)) m fresh_app eq_refl)
    as (R & _ & _ & _ & (G & S & _) & _).
  split; [exact R|]. split; [exact G|exact S].
Defined.

Lemma pushScope_nodes now rnd config this :
  nodes (contextGraph (snd (pushScope now rnd config this)))
  = (nodes (contextGraph this)
     ++ [Node.mk (_generateScopeId now rnd) "scope"
           (fst (pushScope now rnd config this))])%list.
Proof.
  unfold pushScope, _updateContextGraph. cbn [fst snd contextGraph Scope.parent Scope.id].
  destruct (last_element (scopeStack this)); reflexivity.
Qed.

(** One call: what it appends. *)
Lemma run_selection_appends c app :
  let app' := snd (run_selection c app) in
  let n := if selects c then 1 else 0 in
  fst (run_selection c app) = Return tt /\
  (exists frames,
     scopeStack (hypermind app') = (scopeStack (hypermind app) ++ frames)%list /\
     List.length frames = n) /\
  memoryStore (hypermind app') = memoryStore (hypermind app) /\
  List.length (nodes (contextGraph (hypermind app')))
  = List.length (nodes (contextGraph (hypermind app))) + n /\
  List.length (atoms (atomSpace (atenSpace app')))
  = List.length (atoms (atomSpace (atenSpace app))) + n /\
  links (atomSpace (atenSpace app')) = links (atomSpace (atenSpace app)).
Proof.
  intros app' n. subst app' n. rewrite run_selection_eq.
  assert (S : selects c = match chosen c with Some _ => true | None => false end)
    by (destruct c as [? ? [?|]|? ? [?|]]; reflexivity).
  rewrite S. destruct (chosen c) as [m|].
  - rewrite initializeScopeFrameworks_eq, mapScopeToDomain_eq.
    cbn [fst snd scope hypermind tensorLogic atenSpace atomSpace atoms links].
    split; [reflexivity|]. split; [|split; [reflexivity|split; [|split]]].
    + eexists. split; [reflexivity|reflexivity].
    + rewrite pushScope_nodes, length_app. reflexivity.
    + rewrite length_app. reflexivity.
    + reflexivity.
  - cbn [fst snd hypermind atenSpace]. split; [reflexivity|].
    split; [exists []; split; [now rewrite app_nil_r|reflexivity]|].
    repeat split; lia.
Qed.

(** X10.  The selector only pushes.  No sequence of [setOrg] and
    [setProject] calls throws, and none of them pops a scope: the HyperMind
    stack after the calls is the stack before them followed by one frame for
    every call that handed over a scope, so neither selecting another scope
    nor clearing the selection with [null] takes a frame off.  The context
    graph and the atom space grow by one node and one atom per such call;
    the memory store and the links stay as they were. *)
Theorem selections_only_push :
  forall (cs : list selection) (app : App),
    let app' := snd (run_selections cs app) in
    let n := List.length (filter selects cs) in
    fst (run_selections cs app) = Return tt /\
    (exists frames,
       scopeStack (hypermind app') = (scopeStack (hypermind app) ++ frames)%list /\
       List.length frames = n) /\
    memoryStore (hypermind app') = memoryStore (hypermind app) /\
    List.length (nodes (contextGraph (hypermind app')))
    = List.length (nodes (contextGraph (hypermind app))) + n /\
    List.length (atoms (atomSpace (atenSpace app')))
    = List.length (atoms (atomSpace (atenSpace app))) + n /\
    links (atomSpace (atenSpace app')) = links (atomSpace (atenSpace app)).
Proof.
  induction cs as [|c cs IH]; intro app.
  - cbn [run_selections filter List.length fst snd].
    split; [reflexivity|]. split; [exists []; now rewrite app_nil_r|].
    repeat split; lia.
  - destruct (run_selection_appends c app) as (R & (f1 & S1 & L1) & M1 & N1 & A1 & K1).
    cbn [run_selections].
    destruct (run_selection c app) as [[[]|] app1] eqn:E; [|discriminate R].
    cbn [snd] in S1, M1, N1, A1, K1.
    destruct (IH app1) as (R' & (f2 & S2 & L2) & M2 & N2 & A2 & K2).
    assert (C : List.length (filter selects (c :: cs))
                = (if selects c then 1 else 0) + List.length (filter selects cs))
      by (cbn [filter]; destruct (selects c); reflexivity).
    rewrite C.
    split; [exact R'|]. split; [|split; [congruence|split; [lia|split; [lia|congruence]]]].
    exists (f1 ++ f2)%list. split.
    + rewrite S2, S1. now rewrite app_assoc.
    + rewrite length_app. lia.
Qed.

(** X11.  A project selected under an org.  After [setOrg] with an org
    whose id is not empty and then [setProject] with a project, the stack
    has grown by the org's frame and, on top of it and with it as parent, the
    project's frame.  The boundary and the space created for the project
    carry the id of the org, not of the project, as the scope id of their
    metadata, while the constraints of the boundary name the project. *)
Theorem project_under_org :
  forall (now1 now2 : Z) (rnd1 rnd2 : string) (o p : ScopeModel.t) (app : App),
    ScopeModel.id o <> EmptyString ->
    let app1 := snd (setOrg now1 rnd1 (Some o) app) in
    let app2 := snd (setProject now2 rnd2 (Some p) app1) in
    (exists orgFrame projectFrame,
       scopeStack (hypermind app2)
       = (scopeStack (hypermind app) ++ [orgFrame; projectFrame])%list /\
       Scope.config orgFrame = scope_config o /\
       Scope.config projectFrame = scope_config p /\
       Scope.parent projectFrame = Some orgFrame) /\
    (exists b,
       getBoundary (boundary_name p) app2 = Dict.Own b /\
       Boundary.scopeId (Boundary.metadata b) = ScopeModel.id o /\
       Boundary.constraints b
       = JObj [("scopeType", JStr (ScopeModel.type p));
               ("scopeId", JStr (ScopeModel.id p))] /\
       Boundary.domain b = ScopeModel.toJSON p) /\
    (exists ref s,
       getSpace (domain_name p) app2 = Dict.Own ref /\
       space_at ref (atenSpace app2) = Some s /\
       Space.scopeId (Space.metadata s) = ScopeModel.id o /\
       Space.boundary s = Some (boundary_name p)).
Proof.
  intros now1 now2 rnd1 rnd2 o p app NE app1 app2.
  assert (E1 : app1 = snd (initializeScopeFrameworks now1 rnd1 (Some o)
                 (mkApp (mkScope (Some o) (project (scope app))) (hypermind app)
                    (tensorLogic app) (atenSpace app)))) by reflexivity.
  rewrite initializeScopeFrameworks_eq, mapScopeToDomain_eq in E1.
  cbn [snd scope hypermind tensorLogic atenSpace] in E1.
  assert (E2 : app2 = snd (initializeScopeFrameworks now2 rnd2 (Some p)
                 (mkApp (mkScope (org (scope app1)) (Some p)) (hypermind app1)
                    (tensorLogic app1) (atenSpace app1)))) by reflexivity.
  rewrite initializeScopeFrameworks_eq, mapScopeToDomain_eq in E2.
  cbn [snd scope hypermind tensorLogic atenSpace] in E2.
  assert (O : org (scope app1) = Some o) by (rewrite E1; reflexivity).
  assert (C : forall q, current_scopeId (mkScope (Some o) q) = ScopeModel.id o).
  { intro q. unfold current_scopeId, string_or, optional_id. cbn [org project].
    destruct (String.eqb_spec (ScopeModel.id o) EmptyString) as [X|X]; [contradiction|].
    destruct (String.eqb_spec (ScopeModel.id o) EmptyString); [contradiction|reflexivity]. }
  split; [|split].
  - exists (fst (pushScope now1 rnd1 (scope_config o) (hypermind app))),
           (fst (pushScope now2 rnd2 (scope_config p) (hypermind app1))).
    rewrite E2. cbn [hypermind]. split; [|split; [reflexivity|split; [reflexivity|]]].
    + unfold pushScope at 1. cbn [snd scopeStack]. rewrite E1 at 1.
      cbn [hypermind]. unfold pushScope at 1. cbn [snd scopeStack].
      rewrite <- app_assoc. reflexivity.
    + unfold pushScope at 1. cbn [fst Scope.parent]. rewrite E1. cbn [hypermind].
      unfold pushScope at 1. cbn [snd scopeStack]. apply last_element_app.
  - exists (domain_boundary now2 p (mkScope (org (scope app1)) (Some p))).
    split; [|split; [|split; reflexivity]].
    + rewrite E2. unfold getBoundary. cbn [atenSpace boundaries].
      apply dict_get_set_same.
    + rewrite O. cbn [domain_boundary Boundary.metadata Boundary.scopeId]. apply C.
  - exists (List.length (spaces (atenSpace app1))),
           (domain_space now2 p (mkScope (org (scope app1)) (Some p))).
    split; [|split; [|split; [|reflexivity]]].
    + rewrite E2. unfold getSpace. cbn [atenSpace spaceRegistry].
      apply dict_get_set_same.
    + rewrite E2. unfold space_at. cbn [atenSpace spaces]. apply space_at_app_new.
    + rewrite O. cbn [domain_space Space.metadata Space.scopeId]. apply C.
Qed.

Lemma project_under_org_witness :
  let o := ScopeModel.mk "org-abc" "org" false true false in
  let p := ScopeModel.mk "project-xyz" "project" false false true in
  let app2 := snd (setProject 2000 "def" (Some p)
                     (snd (setOrg 1000 "abc" (Some o) fresh_app))) in
  ScopeModel.id o <> EmptyString /\
  exists b,
    getBoundary "boundary_project" app2 = Dict.Own b /\
    Boundary.scopeId (Boundary.metadata b) = "org-abc".
Proof.
  intros o p app2.
  assert (NE : ScopeModel.id o <> EmptyString) by discriminate.
  split; [exact NE|].
  destruct (project_under_org 1000 2000 "abc" "def" o p fresh_app NE)
    as (_ & (b & G & I & _) & _).
  exists b. split; [exact G|exact I].
Defined.

End Selecting.

(** ** Spaces, boundaries and atoms *)

Section Spaces.

Local Open Scope list_scope.
Local Open Scope string_scope.

Lemma append_inj_l (a b c : string) : a ++ b = a ++ c -> b = c.
Proof. induction a as [|x a IH]; simpl; [auto|]. intros [= H]. auto. Qed.

Lemma domain_name_neq m1 m2 :
  ScopeModel.type m1 = ScopeModel.type m2 ->
  ScopeModel.id m1 <> ScopeModel.id m2 ->
  domain_name m1 <> domain_name m2.
Proof.
  intros T N E. apply N. unfold domain_name in E. rewrite T in E.
  apply append_inj_l in E. apply append_inj_l in E. now apply append_inj_l in E.
Qed.

(** X12.  One boundary per scope type.  When two scopes of the same type
    and different ids are mapped one after the other, both spaces stay
    registered and both name the boundary [boundary_<type>], but that name
    now holds the boundary of the second scope only: the boundary the first
    space refers to describes the second scope. *)
Theorem boundary_shared_by_type :
  forall (now1 now2 : Z) (m1 m2 : ScopeModel.t) (app : App),
    ScopeModel.type m1 = ScopeModel.type m2 ->
    ScopeModel.id m1 <> ScopeModel.id m2 ->
    let app2 := snd (mapScopeToDomain now2 m2 (snd (mapScopeToDomain now1 m1 app))) in
    exists r1 r2 s1 s2 b,
      getSpace (domain_name m1) app2 = Dict.Own r1 /\
      getSpace (domain_name m2) app2 = Dict.Own r2 /\
      space_at r1 (atenSpace app2) = Some s1 /\
      space_at r2 (atenSpace app2) = Some s2 /\
      Space.name s1 = domain_name m1 /\
      Space.name s2 = domain_name m2 /\
      Space.boundary s1 = Some (boundary_name m2) /\
      Space.boundary s2 = Some (boundary_name m2) /\
      getBoundary (boundary_name m2) app2 = Dict.Own b /\
      Boundary.domain b = ScopeModel.toJSON m2 /\
      Boundary.constraints b
      = JObj [("scopeType", JStr (ScopeModel.type m2));
              ("scopeId", JStr (ScopeModel.id m2))].
Proof.
  intros now1 now2 m1 m2 app T N app2.
  subst app2. rewrite !mapScopeToDomain_eq.
  cbn [snd scope atenSpace spaceRegistry boundaries spaces].
  exists (List.length (spaces (atenSpace app))),
         (List.length (spaces (atenSpace app) ++ [domain_space now1 m1 (scope app)])%list),
         (domain_space now1 m1 (scope app)), (domain_space now2 m2 (scope app)),
         (domain_boundary now2 m2 (scope app)).
  unfold getSpace, getBoundary, space_at. cbn [atenSpace spaceRegistry boundaries spaces].
  split; [|split; [|split; [|split; [|repeat split]]]].
  - rewrite dict_get_set_other by now apply domain_name_neq.
    apply dict_get_set_same.
  - apply dict_get_set_same.
  - apply space_at_app_old, space_at_app_new.
  - apply space_at_app_new.
  - cbn [domain_space Space.boundary]. unfold boundary_name. now rewrite T.
  - apply dict_get_set_same.
Qed.

Lemma boundary_shared_by_type_witness :
  let m1 := ScopeModel.mk "p_1" "project" false false true in
  let m2 := ScopeModel.mk "p_2" "project" false false true in
  let app2 := snd (mapScopeToDomain 2 m2 (snd (mapScopeToDomain 1 m1 fresh_app))) in
  exists r1 s1 b,
    getSpace "domain_project_p_1" app2 = Dict.Own r1 /\
    space_at r1 (atenSpace app2) = Some s1 /\
    Space.boundary s1 = Some "boundary_project" /\
    getBoundary "boundary_project" app2 = Dict.Own b /\
    Boundary.constraints b = JObj [("scopeType", JStr "project"); ("scopeId", JStr "p_2")].
Proof.
  intros m1 m2 app2.
  assert (T : ScopeModel.type m1 = ScopeModel.type m2) by reflexivity.
  assert (N : ScopeModel.id m1 <> ScopeModel.id m2) by discriminate.
  destruct (boundary_shared_by_type 1 2 m1 m2 fresh_app T N)
    as (r1 & r2 & s1 & s2 & b & G1 & _ & A1 & _ & _ & _ & B1 & _ & G & _ & C).
  exists r1, s1, b. repeat split; assumption.
Defined.

Lemma dict_own_get_set_same {A : Type} (d : Dict.t A) k a :
  Dict.own_get (Dict.set d k a) k = Some a.
Proof.
  unfold Dict.set. destruct (Dict.own_get d k) eqn:H.
  - apply dict_replace_same. congruence.
  - now apply dict_define_same.
Qed.

Lemma dict_own_get_set_other {A : Type} (d : Dict.t A) k a k' :
  k' <> k -> Dict.own_get (Dict.set d k a) k' = Dict.own_get d k'.
Proof.
  intro N. unfold Dict.set. destruct (Dict.own_get d k).
  - now apply dict_replace_other.
  - now apply dict_define_other.
Qed.

Lemma log_operation_length result store : forall ref,
  List.length (log_operation ref result store) = List.length store.
Proof.
  induction store as [|s store IH]; intros [|ref]; simpl; auto.
Qed.

Lemma log_operation_nth result store : forall ref r,
  nth_error (log_operation ref result store) r
  = if Nat.eqb r ref then option_map (logged result) (nth_error store r)
    else nth_error store r.
Proof.
  induction store as [|s store IH]; intros ref r.
  - simpl. destruct r, (Nat.eqb _ ref); reflexivity.
  - destruct ref as [|ref], r as [|r]; simpl; try reflexivity. apply IH.
Qed.

Lemma log_operation_new result (store : list Space.t) space :
  log_operation (List.length store) result (store ++ [space])%list
  = (store ++ [logged result space])%list.
Proof. induction store as [|s store IH]; simpl; [reflexivity|]. now rewrite IH. Qed.

Lemma inherited_domain_name m : inherited (domain_name m) = false.
Proof. reflexivity. Qed.

Lemma fitting_fresh : fitting [] (atenSpace fresh_app).
Proof.
  unfold fitting. cbn [fresh_app atenSpace spaceRegistry atomSpace atoms].
  split; [|split; [|split]].
  - intros name ref H. discriminate H.
  - intros m [].
  - intros atom [].
  - intros m [].
Qed.

Lemma fitting_map now m app ms :
  fitting ms (atenSpace app) ->
  fitting (ms ++ [m])%list (atenSpace (snd (mapScopeToDomain now m app))).
Proof.
  intros (R & M & A & B). rewrite mapScopeToDomain_eq.
  cbn [snd atenSpace]. unfold fitting, space_at.
  cbn [spaces spaceRegistry atomSpace atoms].
  split; [|split; [|split]].
  - intros name ref H.
    destruct (String.eqb_spec name (domain_name m)) as [->|N].
    + rewrite dict_own_get_set_same in H. injection H as <-. split.
      * exists (domain_space now m (scope app)).
        split; [apply space_at_app_new|reflexivity].
      * exists m. split; [|reflexivity]. apply in_or_app. right. now left.
    + rewrite dict_own_get_set_other in H by assumption.
      destruct (R name ref H) as ((s & S & Nm) & (m0 & I0 & E0)). split.
      * exists s. split; [now apply space_at_app_old|assumption].
      * exists m0. split; [|assumption]. apply in_or_app. now left.
  - intros m0 I.
    destruct (String.eqb_spec (domain_name m0) (domain_name m)) as [E|N].
    + rewrite E, dict_own_get_set_same. discriminate.
    + rewrite dict_own_get_set_other by assumption.
      apply in_app_or in I. destruct I as [I|[<-|[]]]; [now apply M|].
      now contradiction N.
  - intros atom I. apply in_app_or in I. destruct I as [I|[<-|[]]].
    + destruct (A atom I) as (T & s & S & Id). split; [assumption|].
      exists s. split; [now apply space_at_app_old|assumption].
    + split; [reflexivity|]. exists (domain_space now m (scope app)).
      split; [apply space_at_app_new|reflexivity].
  - intros m0 I. apply in_app_or in I. destruct I as [I|[<-|[]]].
    + destruct (B m0 I) as (atom & Ia & Id). exists atom.
      split; [|assumption]. apply in_or_app. now left.
    + eexists. split; [apply in_or_app; right; now left|reflexivity].
Qed.

Lemma fitting_select c app ms :
  fitting ms (atenSpace app) ->
  fitting (ms ++ match chosen c with Some m => [m] | None => [] end)%list
    (atenSpace (snd (run_selection c app))).
Proof.
  intro F. rewrite run_selection_eq. destruct (chosen c) as [m|].
  - rewrite initializeScopeFrameworks_eq. now apply fitting_map.
  - cbn [snd atenSpace]. now rewrite app_nil_r.
Qed.

Lemma fitting_execute now name operation params this ms :
  fitting ms this ->
  fitting ms (snd (executeInSpace now name operation params this)).
Proof.
  intro F. unfold executeInSpace.
  destruct (Dict.get (spaceRegistry this) name) as [ref| |]; cbn [snd];
    try exact F.
  destruct F as (R & M & A & B).
  assert (K : forall r s, space_at r this = Some s ->
                exists s', nth_error (log_operation ref
                  (Operation.mk name operation
                     match params with Some p => p | None => JObj [] end
                     (toISOString now)) (spaces this)) r = Some s'
                  /\ Space.name s' = Space.name s).
  { intros r s H. unfold space_at in H. rewrite log_operation_nth, H.
    destruct (Nat.eqb r ref); eexists; (split; [reflexivity|reflexivity]). }
  unfold fitting, space_at. cbn [spaces spaceRegistry atomSpace].
  split; [|split; [|split]]; try assumption.
  - intros n r H. destruct (R n r H) as ((s & S & Nm) & E). split; [|assumption].
    destruct (K r s S) as (s' & S' & N'). exists s'. split; [assumption|congruence].
  - intros atom I. destruct (A atom I) as (T & s & S & Id). split; [assumption|].
    destruct (K _ s S) as (s' & S' & N'). exists s'. split; [assumption|congruence].
Qed.

Lemma fitting_run cs : forall app ms,
  fitting ms (atenSpace app) ->
  fitting (ms ++ selected cs)%list (atenSpace (run_app cs app)).
Proof.
  induction cs as [|c cs IH]; intros app ms F.
  - cbn [run_app fold_left selected flat_map]. now rewrite app_nil_r.
  - change (run_app (c :: cs) app) with (run_app cs (run_app_call c app)).
    change (selected (c :: cs))
      with ((match c with
             | Select c => match chosen c with Some m => [m] | None => [] end
             | Execute _ _ _ _ => []
             end) ++ selected cs)%list.
    rewrite app_assoc. apply IH. destruct c as [c|now name operation params].
    + cbn [run_app_call]. now apply fitting_select.
    + cbn [run_app_call with_atenSpace atenSpace]. rewrite app_nil_r.
      now apply fitting_execute.
Qed.

Lemma fitting_reached cs : fitting (selected cs) (atenSpace (run_app cs fresh_app)).
Proof. apply (fitting_run cs fresh_app []). exact fitting_fresh. Qed.

(** X13.  Querying the atoms.  After any sequence of [setOrg],
    [setProject] and [executeInSpace] calls on a fresh application every atom
    is a space atom, so the query for the type [space] and the empty query
    both return all the atoms, and a query for another type returns none;
    and for every scope that was handed over, the query for the scope's id
    as name returns an atom [atom_domain_<type>_<id>]. *)
Theorem atom_queries :
  forall (cs : list app_call),
    let aten := atenSpace (run_app cs fresh_app) in
    queryAtomSpace (AtomQuery.mk None None) aten = atoms (atomSpace aten) /\
    queryAtomSpace (AtomQuery.mk (Some "space") None) aten = atoms (atomSpace aten) /\
    (forall type name,
       type <> EmptyString -> type <> "space" ->
       queryAtomSpace (AtomQuery.mk (Some type) name) aten = []) /\
    (forall m,
       In m (selected cs) ->
       exists atom space,
         In atom (queryAtomSpace (AtomQuery.mk (Some "space") (Some (ScopeModel.id m))) aten) /\
         Atom.id atom = "atom_" ++ domain_name m /\
         space_at (Atom.data atom) aten = Some space /\
         Space.name space = domain_name m).
Proof.
  intros cs aten.
  destruct (fitting_reached cs) as (_ & _ & A & B). fold aten in A, B.
  assert (F : forall a, In a (atoms (atomSpace aten)) -> Atom.type a = "space")
    by (intros a I; now apply A).
  split; [|split; [|split]].
  - unfold queryAtomSpace. apply forallb_filter_id. apply forallb_forall.
    intros a _. reflexivity.
  - unfold queryAtomSpace. apply forallb_filter_id. apply forallb_forall.
    intros a I. unfold _matchesQuery. cbn [AtomQuery.type AtomQuery.name mismatch].
    rewrite (F a I). reflexivity.
  - intros type name N1 N2. unfold queryAtomSpace. clear A B. revert F.
    generalize (atoms (atomSpace aten)). intros l F.
    induction l as [|a l IH]; [reflexivity|].
    cbn [filter]. rewrite IH by (intros x I; apply F; now right).
    unfold _matchesQuery. cbn [AtomQuery.type mismatch].
    rewrite (F a) by now left.
    rewrite (proj2 (String.eqb_neq type EmptyString) N1).
    assert (X : String.eqb "space" type = false)
      by (apply String.eqb_neq; congruence).
    rewrite X. reflexivity.
  - intros m I. destruct (B m I) as (a & Ia & Id).
    destruct (A a Ia) as (T & s & S & Ids).
    exists a, s. split; [|split; [assumption|split; [assumption|]]].
    + unfold queryAtomSpace. apply filter_In. split; [assumption|].
      unfold _matchesQuery. cbn [AtomQuery.type AtomQuery.name mismatch].
      rewrite T. cbn [String.eqb Ascii.eqb Bool.eqb negb andb].
      rewrite Id. unfold domain_name.
      replace ("atom_" ++ "domain_" ++ ScopeModel.type m ++ "_" ++ ScopeModel.id m)
        with (("atom_" ++ "domain_" ++ ScopeModel.type m ++ "_") ++ ScopeModel.id m)
        by (now rewrite !append_assoc).
      rewrite includes_suffix. now rewrite andb_false_r.
    + rewrite Id in Ids. now apply append_inj_l in Ids.
Qed.

(** X14.  Executing in a space.  On an application reached from a fresh one
    by [setOrg], [setProject] and [executeInSpace] calls: for the domain name
    of a scope that was handed over, [executeInSpace] returns the operation
    record (space name, operation, the parameters or [{}], the time), appends
    it to the log of the space object registered under the name and changes
    nothing else; no boundary can reject it.  For any other name it throws
    and changes nothing: [Error('Space not found: <name>')], except for the
    names of the members of [Object.prototype], where it throws a
    [TypeError]. *)
Theorem executing_in_a_space :
  forall (cs : list app_call) (now : Z) (name operation : string) (params : option json),
    let this := atenSpace (run_app cs fresh_app) in
    let r := executeInSpace now name operation params this in
    let result :=
      Operation.mk name operation (match params with Some p => p | None => JObj [] end)
        (toISOString now) in
    ((exists m, In m (selected cs) /\ name = domain_name m) ->
     exists ref space,
       Dict.get (spaceRegistry this) name = Dict.Own ref /\
       space_at ref this = Some space /\
       fst r = Normal result /\
       space_at ref (snd r) = Some (logged result space) /\
       (forall ref', ref' <> ref -> space_at ref' (snd r) = space_at ref' this) /\
       spaceRegistry (snd r) = spaceRegistry this /\
       boundaries (snd r) = boundaries this /\
       atomSpace (snd r) = atomSpace this) /\
    ((forall m, In m (selected cs) -> name <> domain_name m) ->
     r = (Throw (if inherited name then TypeError
                 else Error ("Space not found: " ++ name)), this)).
Proof.
  intros cs now name operation params this r result.
  destruct (fitting_reached cs) as (R & M & _ & _). fold this in R, M.
  split.
  - intros (m & I & ->). specialize (M m I).
    destruct (Dict.own_get (spaceRegistry this) (domain_name m)) as [ref|] eqn:G;
      [clear M|congruence].
    destruct (R _ _ G) as ((space & S & _) & _).
    assert (D : Dict.get (spaceRegistry this) (domain_name m) = Dict.Own ref)
      by (unfold Dict.get; now rewrite G).
    exists ref, space. split; [exact D|]. split; [exact S|].
    subst r. unfold executeInSpace. rewrite D. cbn [fst snd].
    unfold space_at. cbn [spaces spaceRegistry boundaries atomSpace].
    split; [reflexivity|]. split; [|split; [|repeat split]].
    + rewrite log_operation_nth, Nat.eqb_refl. unfold space_at in S. now rewrite S.
    + intros ref' N. rewrite log_operation_nth.
      now rewrite (proj2 (Nat.eqb_neq ref' ref) N).
  - intro N. subst r. unfold executeInSpace, Dict.get.
    destruct (Dict.own_get (spaceRegistry this) name) as [ref|] eqn:G.
    + destruct (R _ _ G) as (_ & (m & I & E)). now contradiction (N m I).
    + destruct (inherited name); reflexivity.
Qed.

(** X15.  The log is with the space object, not with the name.  After a
    scope is selected and an operation is executed in its space, the atom of
    the space shows the operation, since it holds the same object.  When the
    scope is then selected again, the name is registered to a fresh space
    object with an empty log; the operation stays in the log of the first
    object, which only the first atom still holds, and the atom space has two
    atoms of the same id. *)
Theorem reselecting_resets_the_log :
  forall (c1 c2 : selection) (m m' : ScopeModel.t) (app : App)
         (now : Z) (operation : string) (params : option json),
    chosen c1 = Some m ->
    chosen c2 = Some m' ->
    domain_name m' = domain_name m ->
    let app1 := run_app_call (Select c1) app in
    let app2 := run_app_call (Execute now (domain_name m) operation params) app1 in
    let app3 := run_app_call (Select c2) app2 in
    let first := List.length (spaces (atenSpace app)) in
    let result :=
      Operation.mk (domain_name m) operation
        (match params with Some p => p | None => JObj [] end) (toISOString now) in
    let space1 := logged result (domain_space (clock c1) m (scope app1)) in
    (getSpace (domain_name m) app2 = Dict.Own first /\
     space_at first (atenSpace app2) = Some space1 /\
     atoms (atomSpace (atenSpace app2))
     = (atoms (atomSpace (atenSpace app)) ++ [domain_atom (clock c1) m first])%list) /\
    (getSpace (domain_name m) app3 = Dict.Own (S first) /\
     space_at (S first) (atenSpace app3) = Some (domain_space (clock c2) m' (scope app3)) /\
     Space.operations (domain_space (clock c2) m' (scope app3)) = [] /\
     space_at first (atenSpace app3) = Some space1 /\
     Space.operations space1 = [result] /\
     atoms (atomSpace (atenSpace app3))
     = (atoms (atomSpace (atenSpace app))
        ++ [domain_atom (clock c1) m first; domain_atom (clock c2) m' (S first)])%list).
Proof.
  intros c1 c2 m m' app now operation params C1 C2 E app1 app2 app3 first result space1.
  assert (E1 : app1 = snd (mapScopeToDomain (clock c1) m
                 (mkApp (select c1 (scope app))
                    (snd (pushScope (clock c1) (drawn c1) (scope_config m) (hypermind app)))
                    (mkTensorLogic
                       (Dict.set (tensorRegistry (tensorLogic app))
                          ("scope_" ++ ScopeModel.id m)
                          (unit_tensor (clock c1) ("scope_" ++ ScopeModel.id m))))
                    (atenSpace app)))).
  { unfold app1. cbn [run_app_call]. rewrite run_selection_eq, C1.
    now rewrite initializeScopeFrameworks_eq. }
  rewrite mapScopeToDomain_eq in E1. cbn [snd scope hypermind tensorLogic atenSpace] in E1.
  fold first in E1.
  assert (S1 : scope app1 = select c1 (scope app)) by (rewrite E1; reflexivity).
  assert (E2 : atenSpace app2
               = mkATenSpace (spaces (atenSpace app) ++ [space1])%list
                   (spaceRegistry (atenSpace app1)) (boundaries (atenSpace app1))
                   (atomSpace (atenSpace app1))).
  { unfold app2. cbn [run_app_call with_atenSpace atenSpace]. unfold executeInSpace.
    assert (D : Dict.get (spaceRegistry (atenSpace app1)) (domain_name m) = Dict.Own first)
      by (rewrite E1; cbn [atenSpace spaceRegistry]; apply dict_get_set_same).
    rewrite D. cbn [snd]. fold result. f_equal.
    rewrite E1 at 1. cbn [atenSpace spaces]. unfold first.
    rewrite log_operation_new. unfold space1. now rewrite S1. }
  assert (L2 : List.length (spaces (atenSpace app2)) = S first).
  { rewrite E2. cbn [spaces]. rewrite length_app. cbn [List.length]. unfold first. lia. }
  assert (E3 : app3 = snd (mapScopeToDomain (clock c2) m'
                 (mkApp (select c2 (scope app2))
                    (snd (pushScope (clock c2) (drawn c2) (scope_config m') (hypermind app2)))
                    (mkTensorLogic
                       (Dict.set (tensorRegistry (tensorLogic app2))
                          ("scope_" ++ ScopeModel.id m')
                          (unit_tensor (clock c2) ("scope_" ++ ScopeModel.id m'))))
                    (atenSpace app2)))).
  { unfold app3. cbn [run_app_call]. rewrite run_selection_eq, C2.
    now rewrite initializeScopeFrameworks_eq. }
  rewrite mapScopeToDomain_eq in E3. cbn [snd scope hypermind tensorLogic atenSpace] in E3.
  rewrite L2 in E3.
  assert (S3 : scope app3 = select c2 (scope app2)) by (rewrite E3; reflexivity).
  split.
  - unfold getSpace, space_at. rewrite E2. cbn [spaceRegistry spaces atomSpace].
    split; [|split].
    + rewrite E1. cbn [atenSpace spaceRegistry]. apply dict_get_set_same.
    + apply space_at_app_new.
    + rewrite E1. reflexivity.
  - unfold getSpace, space_at. rewrite S3. rewrite E3 at 1 2 3 4.
    cbn [atenSpace spaceRegistry spaces atomSpace atoms].
    split; [|split; [|split; [|split; [|split]]]].
    + rewrite <- E. apply dict_get_set_same.
    + rewrite <- L2. apply space_at_app_new.
    + reflexivity.
    + apply space_at_app_old. rewrite E2. cbn [spaces]. apply space_at_app_new.
    + reflexivity.
    + rewrite E2. cbn [atomSpace]. rewrite E1. cbn [atenSpace atomSpace atoms].
      rewrite <- app_assoc. reflexivity.
Qed.

Lemma reselecting_resets_the_log_witness :
  let m := ScopeModel.mk "o_1" "org" false true false in
  let c := SetOrg 1000 "abc" (Some m) in
  let app3 :=
    run_app [Select c; Execute 1001 "domain_org_o_1" "join" None;
             Select (SetOrg 1002 "def" (Some m))] fresh_app in
  getSpace "domain_org_o_1" app3 = Dict.Own 1 /\
  exists space, space_at 0 (atenSpace app3) = Some space /\
                Space.operations space
                = [Operation.mk "domain_org_o_1" "join" (JObj []) (toISOString 1001)].
Proof.
  intros m c app3.
  destruct (reselecting_resets_the_log c (SetOrg 1002 "def" (Some m)) m m fresh_app
              1001 "join" None eq_refl eq_refl eq_refl)
    as (_ & G & _ & _ & S & O & _).
  split; [exact G|]. eexists. split; [exact S|exact O].
Defined.

End Spaces.
